(** * STaBioM compare: harmonisation and comparison analysis

    A shallow embedding of [compare/src/harmonise.py] (class [Harmoniser])
    and [compare/src/analysis.py] (class [ComparisonAnalyzer]).

    Numbers.  Abundances, distances and statistics are Python floats; they
    are embedded as exact rationals [Q], so rounding is not modelled.  A
    float division that can meet a zero denominator returns an [fval], which
    keeps IEEE's NaN and the infinities apart from finite values.  The alpha
    diversity indices need the natural logarithm and are embedded over [R].

    Strings.  Python [str] values are embedded as [string], read as
    sequences of code points below 256; the whitespace class of [str.strip]
    and of the regular expression [\s] is [py_isspace].

    Tables.  A pandas [DataFrame] is a record of row labels, column labels
    and a row-major list of rows. *)

From Stdlib Require Import Reals Qreals Lra.
From Stdlib Require Import QArith Qabs Lqa Lia Bool Ascii String.
From stdpp Require Import base list strings pretty gmap sorting.

Local Open Scope string_scope.

(* ================================================================== *)
(** * Python string primitives *)
(* ================================================================== *)

Module PyStr.

(** [str.isspace] on the code points below 256: TAB, LF, VT, FF, CR, the
    four separators FS GS RS US, the space, NEL and the no-break space. *)
Definition py_isspace (c : ascii) : bool :=
  let n := nat_of_ascii c in
  ((9 <=? n)%nat && (n <=? 13)%nat) || ((28 <=? n)%nat && (n <=? 32)%nat)
  || (n =? 133)%nat || (n =? 160)%nat.

Definition is_underscore (c : ascii) : bool := Ascii.eqb c "_"%char.

(** [s.lstrip(chars)] for the character class [p]. *)
Fixpoint lstrip_with (p : ascii -> bool) (s : string) : string :=
  match s with
  | String c s' => if p c then lstrip_with p s' else s
  | EmptyString => EmptyString
  end.

(** [s.rstrip(chars)] for the character class [p]. *)
Fixpoint rstrip_with (p : ascii -> bool) (s : string) : string :=
  match s with
  | EmptyString => EmptyString
  | String c s' =>
      match rstrip_with p s' with
      | EmptyString => if p c then EmptyString else String c EmptyString
      | r => String c r
      end
  end.

(** [s.strip()] *)
Definition strip (s : string) : string :=
  rstrip_with py_isspace (lstrip_with py_isspace s).

(** [s.startswith(p)] *)
Definition startswith (s p : string) : bool := String.prefix p s.

(** [s[n:]] *)
Fixpoint drop_chars (n : nat) (s : string) : string :=
  match n, s with
  | O, _ => s
  | S n', String _ s' => drop_chars n' s'
  | S _, EmptyString => EmptyString
  end.

(** [re.sub(r"\s+", " ", s)]: [in_run] records that the previous character
    belonged to a whitespace run which has already produced its blank. *)
Fixpoint collapse_from (in_run : bool) (s : string) : string :=
  match s with
  | EmptyString => EmptyString
  | String c s' =>
      if py_isspace c
      then (if in_run then collapse_from true s'
            else String " "%char (collapse_from true s'))
      else String c (collapse_from false s')
  end.

Definition collapse_ws (s : string) : string := collapse_from false s.

(** [re.split] on a one-character class, and [str.split(sep)] for a
    one-character separator: always at least one field. *)
Fixpoint split_on (p : ascii -> bool) (s : string) : list string :=
  match s with
  | EmptyString => [EmptyString]
  | String c s' =>
      if p c then EmptyString :: split_on p s'
      else match split_on p s' with
           | h :: t => String c h :: t
           | [] => [String c EmptyString]
           end
  end.

(** The last character, if any. *)
Fixpoint last_char (s : string) : option ascii :=
  match s with
  | EmptyString => None
  | String c EmptyString => Some c
  | String _ s' => last_char s'
  end.

Definition first_char (s : string) : option ascii :=
  match s with
  | EmptyString => None
  | String c _ => Some c
  end.

Definition is_empty (s : string) : bool :=
  match s with EmptyString => true | _ => false end.

End PyStr.

Import PyStr.

(* ================================================================== *)
(** * Rank tables and lineage parsing ([Harmoniser]) *)
(* ================================================================== *)

(** [Harmoniser.RANK_PREFIXES], in insertion order. *)
Definition RANK_PREFIXES : list (string * string) :=
  [ ("domain", "d__"); ("kingdom", "k__"); ("phylum", "p__");
    ("class", "c__"); ("order", "o__"); ("family", "f__");
    ("genus", "g__"); ("species", "s__") ].

(** [Harmoniser.RANK_ORDER] *)
Definition RANK_ORDER : list string :=
  [ "domain"; "kingdom"; "phylum"; "class"; "order"; "family"; "genus";
    "species" ].

(** [RANK_PREFIXES.values()] *)
Definition rank_prefix_values : list string := RANK_PREFIXES.*2.

(** [RANK_PREFIXES.get(rank, "")] *)
Definition rank_prefix_get (rank : string) : string :=
  match list_find (fun kv => String.eqb kv.1 rank = true) RANK_PREFIXES with
  | Some (_, (_, p)) => p
  | None => ""
  end.

(** [RANK_ORDER.index(rank) if rank in RANK_ORDER else -1] *)
Definition rank_index (rank : string) : option nat :=
  fst <$> list_find (fun r => String.eqb r rank = true) RANK_ORDER.

(** The inner loop
    [for p in RANK_PREFIXES.values(): if part.startswith(p): part = part[len(p):]; break] *)
Fixpoint strip_first_prefix (ps : list string) (part : string) : string :=
  match ps with
  | [] => part
  | p :: ps' =>
      if startswith part p then drop_chars (String.length p) part
      else strip_first_prefix ps' part
  end.

(** First loop of [_extract_rank]: the first token carrying the rank's
    prefix with a usable remainder. *)
Fixpoint extract_by_prefix (prefix : string) (parts : list string)
  : option string :=
  match parts with
  | [] => None
  | part :: rest =>
      let part := strip part in
      if startswith part prefix then
        let name := drop_chars (String.length prefix) part in
        if negb (is_empty name) && negb (String.eqb name "__") then Some name
        else extract_by_prefix prefix rest
      else extract_by_prefix prefix rest
  end.

(** Second block of [_extract_rank]: positional lookup. *)
Definition extract_by_position (rank : string) (parts : list string)
  : option string :=
  match rank_index rank with
  | Some rank_idx =>
      match parts !! rank_idx with
      | Some part =>
          let part := strip_first_prefix rank_prefix_values (strip part) in
          if negb (is_empty part) && negb (String.eqb part "__")
          then Some part else None
      | None => None
      end
  | None => None
  end.

(** Third loop of [_extract_rank], over [reversed(parts)]. *)
Fixpoint extract_last_meaningful (rparts : list string) : option string :=
  match rparts with
  | [] => None
  | part :: rest =>
      let part := strip_first_prefix rank_prefix_values (strip part) in
      if negb (is_empty part)
         && negb (String.eqb part "" || String.eqb part "__"
                  || String.eqb part "unclassified")
      then Some part
      else extract_last_meaningful rest
  end.

Definition is_lineage_sep (c : ascii) : bool :=
  Ascii.eqb c ";"%char || Ascii.eqb c "|"%char.

(** [Harmoniser._extract_rank] *)
Definition _extract_rank (lineage rank : string) : string :=
  let prefix := rank_prefix_get rank in
  let parts := split_on is_lineage_sep lineage in
  match extract_by_prefix prefix parts with
  | Some name => name
  | None =>
      match extract_by_position rank parts with
      | Some part => part
      | None =>
          match extract_last_meaningful (reverse parts) with
          | Some part => part
          | None => "Unclassified"
          end
      end
  end.

(** The prefix loop of [_clean_taxon_names]; unlike the loops of
    [_extract_rank] it has no [break], so each prefix is tried in turn on
    what the earlier ones left. *)
Definition strip_rank_prefixes (clean : string) : string :=
  fold_left
    (fun clean prefix =>
       if startswith clean prefix
       then drop_chars (String.length prefix) clean else clean)
    rank_prefix_values clean.

(** The body of the loop of [_clean_taxon_names] for one column name. *)
Definition clean_taxon_name (col : string) : string :=
  let clean := strip col in
  let clean := strip_rank_prefixes clean in
  let clean := rstrip_with is_underscore clean in
  let clean := collapse_ws clean in
  if is_empty clean || (String.eqb clean "" || String.eqb clean "__")
  then "Unclassified" else clean.

(* ================================================================== *)
(** * Numbers *)
(* ================================================================== *)

(** The result of a float division whose denominator may be zero. *)
Inductive fval : Type :=
| Fin (q : Q)
| PInf
| NInf
| NaN.

(** IEEE division of two finite values (the sign of a zero denominator is
    taken as positive, which is what sums of absolute values and [log 1]
    produce). *)
Definition fdiv (a b : Q) : fval :=
  if Qeq_bool b 0 then
    if Qeq_bool a 0 then NaN
    else if Qle_bool a 0 then NInf else PInf
  else Fin (a / b).

(** "is a non-negative number": finite and [>= 0]. *)
Definition fval_nonneg_number (x : fval) : Prop :=
  match x with
  | Fin q => (0 <= q)%Q
  | _ => False
  end.

Definition Qsum (l : list Q) : Q := fold_right Qplus 0%Q l.

Definition Qof_nat (n : nat) : Q := inject_Z (Z.of_nat n).

Definition Qlt_bool (a b : Q) : bool := negb (Qle_bool b a).

(** [Series.mean()]: NaN (here [None]) on an empty series. *)
Definition Qmean (l : list Q) : option Q :=
  match l with
  | [] => None
  | _ => Some (Qsum l / Qof_nat (length l))%Q
  end.

(* ================================================================== *)
(** * Tables *)
(* ================================================================== *)

Record DataFrame : Type := mkDF {
  index : list string;          (* row labels *)
  columns : list string;        (* column labels *)
  values : list (list Q)        (* [df.values], row-major *)
}.

Definition nrows (df : DataFrame) : nat := length (index df).
Definition ncols (df : DataFrame) : nat := length (columns df).

(** A rectangular table: one row per row label, one cell per column label. *)
Definition well_formed (df : DataFrame) : Prop :=
  length (values df) = nrows df
  /\ Forall (fun row => length row = ncols df) (values df).

(** [df.empty] *)
Definition df_empty (df : DataFrame) : bool :=
  (nrows df =? 0)%nat || (ncols df =? 0)%nat.

Definition cell_hd (row : list Q) : Q := hd 0%Q row.

(** The column vectors of the first [n] columns, left to right. *)
Fixpoint col_vectors (n : nat) (rows : list (list Q)) : list (list Q) :=
  match n with
  | O => []
  | S k => map cell_hd rows :: col_vectors k (map (@tl Q) rows)
  end.

(** Rows rebuilt from column vectors of height [n]. *)
Definition rows_of_columns (n : nat) (cols : list (list Q))
  : list (list Q) :=
  map (fun i => map (fun col => default 0%Q (col !! i)) cols) (seq 0 n).

(** [df.T] *)
Definition df_T (df : DataFrame) : DataFrame :=
  mkDF (columns df) (index df) (col_vectors (ncols df) (values df)).

(** Keep the positions of [l] whose mask bit is set (boolean indexing). *)
Fixpoint select_by_mask {A} (mask : list bool) (l : list A) : list A :=
  match mask, l with
  | b :: mask', x :: l' =>
      if b then x :: select_by_mask mask' l' else select_by_mask mask' l'
  | _, _ => []
  end.

(** [df.loc[:, mask]] *)
Definition select_columns (mask : list bool) (df : DataFrame) : DataFrame :=
  mkDF (index df) (select_by_mask mask (columns df))
       (map (select_by_mask mask) (values df)).

(** [df.loc[mask]] *)
Definition select_rows (mask : list bool) (df : DataFrame) : DataFrame :=
  mkDF (select_by_mask mask (index df)) (columns df)
       (select_by_mask mask (values df)).

(** Position of the first occurrence of a label. *)
Definition label_pos (name : string) (labels : list string) : option nat :=
  fst <$> list_find (fun l => l = name) labels.

(** Elementwise [Series + Series] on a shared index. *)
Definition vec_add (u v : list Q) : list Q := zip_with Qplus u v.

(** The run record handed over by the run parser. *)
Record Taxonomy : Type := mkTaxonomy {
  tax_columns : list string;
  tax_rows : list (list string)
}.

Record RunData : Type := mkRun {
  run_id : string;
  abundance_table : option DataFrame;
  taxonomy : option Taxonomy
}.

Definition tax_empty (t : Taxonomy) : bool :=
  (length (tax_rows t) =? 0)%nat || (length (tax_columns t) =? 0)%nat.

(** An entry of the [taxa_mapping] log. *)
Record TaxaMapping : Type := mkMapping {
  original : string;
  lineage : option string;
  mapped_rank : string;
  cleaned : string
}.

(* ================================================================== *)
(** * The harmoniser *)
(* ================================================================== *)

(** Python exceptions.  Both [raise] sites of [harmonise], the re-indexing
    of duplicated labels and the [DataFrame] constructor use [ValueError];
    [np.linalg.eigh] raises [LinAlgError]. *)
Inductive PyError : Type :=
| ValueError (msg : string)
| LinAlgError (msg : string).

Inductive result (A : Type) : Type :=
| Ok (a : A)
| Raise (e : PyError).
Arguments Ok {A} a.
Arguments Raise {A} e.

Definition rbind {A B} (r : result A) (k : A -> result B) : result B :=
  match r with
  | Ok a => k a
  | Raise e => Raise e
  end.

Notation "x <-! r ;; k" := (rbind r (fun x => k))
  (at level 100, r at next level, right associativity).

(** [Harmoniser.__init__]; [verbose] only drives prints and is left out. *)
Record Harmoniser : Type := mkHarmoniser {
  rank : string;
  norm : string;
  sample_align : string;
  min_prevalence : Q;
  min_mean_abundance : Q
}.

Record Settings : Type := mkSettings {
  s_rank : string;
  s_norm : string;
  s_sample_align : string;
  s_min_prevalence : Q;
  s_min_mean_abundance : Q;
  s_n_runs : nat;
  s_n_samples_final : nat;
  s_n_taxa_final : nat
}.

Record HarmonisedData : Type := mkHarmonised {
  aligned_abundance : DataFrame;
  run_labels : list string;
  runs : list RunData;
  taxa_mapping : list TaxaMapping;
  settings : Settings
}.

(** The insertion-ordered dict [aggregated]: a new key goes to the end, a
    known key has the column added to its series. *)
Fixpoint agg_add (taxon : string) (col : list Q)
    (aggregated : list (string * list Q)) : list (string * list Q) :=
  match aggregated with
  | [] => [(taxon, col)]
  | (k, v) :: rest =>
      if String.eqb k taxon then (k, vec_add v col) :: rest
      else (k, v) :: agg_add taxon col rest
  end.

(** [pd.DataFrame(aggregated)] over the row labels of [df]. *)
Definition df_of_aggregated (df : DataFrame)
    (aggregated : list (string * list Q)) : DataFrame :=
  mkDF (index df) (aggregated.*1)
       (rows_of_columns (nrows df) (aggregated.*2)).

(** The columns of a table as (label, series) pairs, left to right:
    [(col, df[col])] for [col in df.columns].  This is what the loops of
    the rank aggregation read when the column labels are distinct; under
    a repeated label [df[col]] is a frame, not a series, and pandas cannot
    build the aggregated table. *)
Definition df_items (df : DataFrame) : list (string * list Q) :=
  zip (columns df) (col_vectors (ncols df) (values df)).

(** [row[name]] for a row of the taxonomy table. *)
Definition tax_cell (t : Taxonomy) (row : list string) (name : string)
  : string :=
  match label_pos name (tax_columns t) with
  | Some j => default "" (row !! j)
  | None => ""
  end.

(** [Harmoniser._aggregate_to_rank] *)
Definition _aggregate_to_rank (df : DataFrame) (tax : Taxonomy)
    (rank : string) : DataFrame * list TaxaMapping :=
  let '(asv_to_taxon, mapping) :=
    if bool_decide ("Feature ID" ∈ tax_columns tax)
       && bool_decide ("Taxon" ∈ tax_columns tax)
    then
      fold_left
        (fun (acc : gmap string string * list TaxaMapping) row =>
           let asv_id := tax_cell tax row "Feature ID" in
           let lin := tax_cell tax row "Taxon" in
           let taxon_at_rank := _extract_rank lin rank in
           (<[asv_id := taxon_at_rank]> acc.1,
            (acc.2 ++ [mkMapping asv_id (Some lin) rank taxon_at_rank])%list))
        (tax_rows tax) (∅, [])
    else (∅, []) in
  let aggregated :=
    fold_left
      (fun agg (item : string * list Q) =>
         let taxon := default item.1 (asv_to_taxon !! item.1) in
         agg_add taxon item.2 agg)
      (df_items df) [] in
  (df_of_aggregated df aggregated, mapping).

(** [Harmoniser._parse_rank_from_names] *)
Definition _parse_rank_from_names (df : DataFrame) (rank : string)
  : DataFrame * list TaxaMapping :=
  let step (acc : list TaxaMapping * list (string * list Q))
           (item : string * list Q) :=
    let taxon_at_rank := _extract_rank item.1 rank in
    ((acc.1 ++ [mkMapping item.1 None rank taxon_at_rank])%list,
     agg_add taxon_at_rank item.2 acc.2) in
  let '(mapping, aggregated) := fold_left step (df_items df) ([], []) in
  (df_of_aggregated df aggregated, mapping).

(** [Harmoniser._clean_taxon_names]: [df.rename(columns=new_cols)] *)
Definition _clean_taxon_names (df : DataFrame) : DataFrame :=
  mkDF (index df) (map clean_taxon_name (columns df)) (values df).

(** [df.reindex(columns=target, fill_value=0)]; pandas refuses to re-index
    an axis that carries a label twice. *)
Definition reindex_columns (target : list string) (df : DataFrame)
  : result DataFrame :=
  if bool_decide (NoDup (columns df)) then
    Ok (mkDF (index df) target
          (map (fun row =>
                  map (fun taxon =>
                         match label_pos taxon (columns df) with
                         | Some j => default 0%Q (row !! j)
                         | None => 0%Q
                         end) target)
               (values df)))
  else Raise (ValueError "cannot reindex on an axis with duplicate labels").

Fixpoint mapM_result {A B} (f : A -> result B) (l : list A)
  : result (list B) :=
  match l with
  | [] => Ok []
  | x :: l' => y <-! f x ;; ys <-! mapM_result f l' ;; Ok (y :: ys)
  end.

(** [sorted(all_taxa)] *)
Definition sorted_labels (s : gset string) : list string :=
  merge_sort String.le (elements s).

(** [pd.concat(aligned_dfs, axis=0)]; it refuses an empty list. *)
Definition pd_concat (target : list string) (dfs : list DataFrame)
  : result DataFrame :=
  match dfs with
  | [] => Raise (ValueError "No objects to concatenate")
  | _ => Ok (mkDF (concat (map index dfs)) target
                  (concat (map values dfs)))
  end.

(** [Harmoniser._align_taxa] *)
Definition _align_taxa (dfs : list DataFrame) : result DataFrame :=
  let all_taxa : gset string :=
    fold_left (fun acc df => acc ∪ list_to_set (columns df)) dfs ∅ in
  let target := sorted_labels all_taxa in
  aligned_dfs <-! mapM_result (reindex_columns target) dfs ;;
  pd_concat target aligned_dfs.

Definition is_colon (c : ascii) : bool := Ascii.eqb c ":"%char.

(** [lbl.split(":")[-1]] and [lbl.split(":")[0]] *)
Definition label_suffix (lbl : string) : string :=
  List.last (split_on is_colon lbl) "".
Definition label_prefix (lbl : string) : string :=
  hd "" (split_on is_colon lbl).

(** [Harmoniser._align_samples_intersection]; the [runs] argument is not
    used by the source. *)
Definition _align_samples_intersection (df : DataFrame)
    (runs : list RunData) : DataFrame :=
  let sample_ids := map label_suffix (index df) in
  let n_runs := length (remove_dups (map label_prefix (index df))) in
  let common_samples :=
    filter (fun sid => n_runs <= length (filter (fun x => x = sid) sample_ids))
           (remove_dups sample_ids) in
  if (length common_samples =? 0)%nat then df
  else
    let mask := map (fun sid => bool_decide (sid ∈ common_samples))
                    sample_ids in
    select_rows mask df.

(** [Harmoniser._align_samples_union] *)
Definition _align_samples_union (df : DataFrame) : DataFrame := df.

(** One row of [_normalise_relative]: the row sum, with 0 replaced by 1,
    divides the row. *)
Definition normalise_row (row : list Q) : list Q :=
  let row_sum := Qsum row in
  let row_sum := if Qeq_bool row_sum 0 then 1%Q else row_sum in
  map (fun x => x / row_sum)%Q row.

(** [Harmoniser._normalise_relative] *)
Definition _normalise_relative (df : DataFrame) : DataFrame :=
  mkDF (index df) (columns df) (map normalise_row (values df)).

(** The two blocks of [Harmoniser._filter_taxa].  A column statistic that
    is NaN (a table without rows) fails every [>=] test. *)
Definition prevalence (col : list Q) : option Q :=
  Qmean (map (fun x => if Qlt_bool 0 x then 1%Q else 0%Q) col).

Definition keep_ge (threshold : Q) (stat : option Q) : bool :=
  match stat with
  | Some v => Qle_bool threshold v
  | None => false
  end.

Definition column_mask (stat : list Q -> option Q) (threshold : Q)
    (df : DataFrame) : list bool :=
  map (fun col => keep_ge threshold (stat col))
      (col_vectors (ncols df) (values df)).

(** [if self.min_prevalence > 0: ... df = df.loc[:, keep_taxa]] *)
Definition prevalence_filter (min_prevalence : Q) (df : DataFrame)
  : DataFrame :=
  if Qlt_bool 0 min_prevalence
  then select_columns (column_mask prevalence min_prevalence df) df
  else df.

(** [if self.min_mean_abundance > 0: ... df = df.loc[:, keep_taxa]] *)
Definition abundance_filter (min_mean_abundance : Q) (df : DataFrame)
  : DataFrame :=
  if Qlt_bool 0 min_mean_abundance
  then select_columns (column_mask Qmean min_mean_abundance df) df
  else df.

(** [Harmoniser._filter_taxa] *)
Definition _filter_taxa (self : Harmoniser) (df : DataFrame) : DataFrame :=
  abundance_filter (min_mean_abundance self)
    (prevalence_filter (min_prevalence self) df).

Section Harmonise.

(** [np.log] on floats; only the CLR normalisation calls it. *)
Variable log : Q -> Q.

(** One row of [_normalise_clr]. *)
Definition clr_row (pseudocount : Q) (row : list Q) : list Q :=
  let log_row := map (fun x => log (x + pseudocount)) row in
  let geo_mean := (Qsum log_row / Qof_nat (length log_row))%Q in
  map (fun x => x - geo_mean)%Q log_row.

(** [Harmoniser._normalise_clr], [pseudocount = 0.5] *)
Definition _normalise_clr (df : DataFrame) : DataFrame :=
  mkDF (index df) (columns df) (map (clr_row (1 # 2)) (values df)).

(** "Ensure samples are rows": [if df.shape[0] > df.shape[1]: df = df.T] *)
Definition ensure_samples_are_rows (df : DataFrame) : DataFrame :=
  if (ncols df <? nrows df)%nat then df_T df else df.

(** The rank aggregation branch of the loop body. *)
Definition aggregate_run (self : Harmoniser) (run : RunData)
    (df : DataFrame) : DataFrame * list TaxaMapping :=
  match taxonomy run with
  | Some tax =>
      if negb (tax_empty tax) then _aggregate_to_rank df tax (rank self)
      else _parse_rank_from_names df (rank self)
  | None => _parse_rank_from_names df (rank self)
  end.

(** The rest of the loop body: clean the names, emit one run label per
    sample and prefix the sample names with the run id. *)
Definition label_run (run : RunData)
    (agg : DataFrame * list TaxaMapping)
  : DataFrame * list TaxaMapping * list string :=
  let df := _clean_taxon_names agg.1 in
  let labels := map (fun _ => run_id run) (index df) in
  let df := mkDF (map (fun s => run_id run ++ ":" ++ s) (index df))
                 (columns df) (values df) in
  (df, agg.2, labels).

(** The loop body of [harmonise]; [None] is the [continue] of a skipped
    run. *)
Definition process_run (self : Harmoniser) (run : RunData)
  : option (DataFrame * list TaxaMapping * list string) :=
  match abundance_table run with
  | None => None
  | Some table =>
      if df_empty table then None
      else
        let df := ensure_samples_are_rows table in
        Some (label_run run (aggregate_run self run df))
  end.

(** [Harmoniser.harmonise] *)
Definition harmonise (self : Harmoniser) (runs : list RunData)
  : result HarmonisedData :=
  if (length runs <? 2)%nat
  then Raise (ValueError "Need at least 2 runs to harmonise")
  else
    let processed := omap (process_run self) runs in
    let all_taxa_mapping := concat (map (fun p => p.1.2) processed) in
    let processed_dfs := map (fun p => p.1.1) processed in
    let run_labels := concat (map (fun p => p.2) processed) in
    if (length processed_dfs =? 0)%nat
    then Raise (ValueError "No valid abundance data in any run")
    else
      aligned <-! _align_taxa processed_dfs ;;
      let aligned :=
        if String.eqb (sample_align self) "intersection"
        then _align_samples_intersection aligned runs
        else _align_samples_union aligned in
      let aligned :=
        if String.eqb (norm self) "relative"
        then _normalise_relative aligned
        else if String.eqb (norm self) "clr"
             then _normalise_clr aligned
             else aligned in
      let aligned := _filter_taxa self aligned in
      let run_label_series := map label_prefix (index aligned) in
      let settings :=
        mkSettings (rank self) (norm self) (sample_align self)
          (min_prevalence self) (min_mean_abundance self)
          (length runs) (nrows aligned) (ncols aligned) in
      Ok (mkHarmonised aligned run_label_series runs all_taxa_mapping
            settings).

End Harmonise.

(** ** Sample runs *)

Definition demo_table_A : DataFrame :=
  mkDF ["s1"; "s2"] ["g__Lactobacillus"; "g__Gardnerella"; "g__Prevotella"]
       [[3; 1; 0]; [4; 0; 0]]%Q.

Definition demo_table_B : DataFrame :=
  mkDF ["s1"; "s2"] ["g__Lactobacillus"; "g__Prevotella"; "g__Sneathia"]
       [[1; 0; 1]; [2; 0; 0]]%Q.

Definition demo_runs : list RunData :=
  [ mkRun "A" (Some demo_table_A) None; mkRun "B" (Some demo_table_B) None ].

Definition demo_harmoniser (min_prev : Q) : Harmoniser :=
  mkHarmoniser "genus" "relative" "intersection" min_prev 0.

(** [np.log] is never called under relative normalisation; the sample
    evaluations pass a dummy. *)
Definition no_log : Q -> Q := fun _ => 0%Q.

Definition result_table (r : result HarmonisedData) : option DataFrame :=
  match r with
  | Ok h => Some (aligned_abundance h)
  | Raise _ => None
  end.

(* ================================================================== *)
(** * The comparison analyzer: beta diversity and ordination *)
(* ================================================================== *)

(** [scipy.spatial.distance.braycurtis], as [pdist] evaluates it:
    [sum |u_i - v_i| / sum |u_i + v_i|], an unguarded float division. *)
Definition braycurtis (u v : list Q) : fval :=
  fdiv (Qsum (zip_with (fun a b => Qabs (a - b)) u v))
       (Qsum (zip_with (fun a b => Qabs (a + b)) u v)).

(** [pdist(X, metric="braycurtis")]: the condensed vector of the distances
    of the pairs [(i, j)], [i < j], row by row. *)
Fixpoint pdist (X : list (list Q)) : list fval :=
  match X with
  | [] => []
  | u :: rest => (map (braycurtis u) rest ++ pdist rest)%list
  end.

(** Position of the pair [(i, j)], [i < j], in the condensed vector of [n]
    observations. *)
Definition condensed_index (n i j : nat) : nat :=
  n * i - (i * (i + 1)) / 2 + (j - i - 1).

(** [squareform]: the square matrix of a condensed vector; the diagonal is
    zero and the two triangles mirror each other. *)
Definition squareform_entry (n : nat) (condensed : list fval) (i j : nat)
  : fval :=
  if (i =? j)%nat then Fin 0
  else default NaN
         (condensed !! condensed_index n (Nat.min i j) (Nat.max i j)).

Definition squareform (n : nat) (condensed : list fval)
  : list (list fval) :=
  map (fun i => map (squareform_entry n condensed i) (seq 0 n)) (seq 0 n).

(** The distance table: [dist_df], labelled by the samples on both axes. *)
Record DistFrame : Type := mkDist {
  dist_index : list string;
  dist_values : list (list fval)
}.

(** The first half of [_compute_beta_diversity]. *)
Definition beta_distance (df : DataFrame) : DistFrame :=
  mkDist (index df) (squareform (length (values df)) (pdist (values df))).

(** [D[i, j]] of a distance table. *)
Definition dist_at (d : DistFrame) (i j : nat) : option fval :=
  row ← dist_values d !! i; row !! j.

(** The finite part of a distance matrix, when all of it is finite. *)
Definition finite_row (row : list fval) : option (list Q) :=
  mapM (fun x => match x with Fin q => Some q | _ => None end) row.
Definition finite_matrix (m : list (list fval)) : option (list (list Q)) :=
  mapM finite_row m.

(** The distance table as a finite table, for the steps that read it as
    numbers. *)
Definition finite_dist_frame (d : DistFrame) : option DataFrame :=
  D ← finite_matrix (dist_values d);
  Some (mkDF (dist_index d) (dist_index d) D).

(** ** Sorting by value *)

Definition key_le (x y : Q * nat) : Prop := Is_true (Qle_bool x.1 y.1).

#[global] Instance key_le_dec : RelDecision key_le.
Proof. intros x y. unfold key_le. apply _. Defined.

(** The (value, position) pairs of an array in ascending order of value. *)
Definition sort_keyed (a : list Q) : list (Q * nat) :=
  merge_sort key_le (zip a (seq 0 (length a))).

(** [np.argsort(a)] *)
Definition argsort (a : list Q) : list nat := (sort_keyed a).*2.

(** [a[idx]]: fancy indexing of a vector by a list of positions. *)
Definition take_at {A} (d : A) (a : list A) (idx : list nat) : list A :=
  map (fun i => default d (a !! i)) idx.

(** ** Dense matrices *)

Definition dot (u v : list Q) : Q := Qsum (zip_with Qmult u v).

(** [A @ B], where [B] has [m] columns. *)
Definition matmul (m : nat) (A B : list (list Q)) : list (list Q) :=
  map (fun row => map (dot row) (col_vectors m B)) A.

(** [A @ v] *)
Definition mat_vec (A : list (list Q)) (v : list Q) : list Q :=
  map (fun row => dot row v) A.

Definition mat_scale (c : Q) (A : list (list Q)) : list (list Q) :=
  map (map (Qmult c)) A.

(** [np.eye(n) - np.ones((n, n)) / n] *)
Definition centering (n : nat) : list (list Q) :=
  map (fun i =>
         map (fun j => ((if (i =? j)%nat then 1 else 0) - 1 / Qof_nat n)%Q)
             (seq 0 n))
      (seq 0 n).

(** [B = -0.5 * centering @ D2 @ centering] with [D2 = D ** 2]; Python
    groups it as [((-0.5 * centering) @ D2) @ centering]. *)
Definition double_centre (D : list (list Q)) : list (list Q) :=
  let n := length D in
  let D2 := map (map (fun x => x * x)%Q) D in
  matmul n (matmul n (mat_scale (- (1 # 2)) (centering n)) D2)
         (centering n).

Definition Qmax0 (x : Q) : Q := if Qle_bool x 0 then 0%Q else x.

(** The exact spectrum.  [v] is an eigenvector of [B] for the eigenvalue
    [lam]; a list of eigenvalues is complete when it holds one eigenvalue
    per row of [B] and misses no eigenvalue that has a rational
    eigenvector.  [np.linalg.eigh] computes in doubles and meets this only
    up to rounding, so no statement about [_pcoa] rests on it unless it
    says so. *)
Definition is_eigenpair (B : list (list Q)) (lam : Q) (v : list Q) : Prop :=
  length v = length B
  /\ Exists (fun x => ~ (x == 0)%Q) v
  /\ Forall2 (fun bx x => (bx == lam * x)%Q) (mat_vec B v) v.

Definition eigh_complete (B : list (list Q)) (eigvals : list Q) : Prop :=
  length eigvals = length B
  /\ forall (lam : Q) (v : list Q),
       is_eigenpair B lam v -> Exists (fun e => (e == lam)%Q) eigvals.

Record PCoA : Type := mkPCoA {
  pcoa_index : list string;
  pcoa_coords : list (list Q);
  variance_explained : list Q
}.

Section Pcoa.

(** [np.linalg.eigh]: the eigenvalues in ascending order and, as the
    columns of the second component, the eigenvectors of a symmetric
    matrix, as the doubles it returns (every double is a rational). *)
Variable eigh : list (list Q) -> list Q * list (list Q).
(** [np.sqrt] *)
Variable sqrt : Q -> Q.

(** The eigenvalues in the order [np.argsort(eigvals)[::-1]]. *)
Definition sorted_eigvals (eigvals : list Q) : list Q :=
  take_at 0%Q eigvals (reverse (argsort eigvals)).

(** [var_explained] *)
Definition var_explained (eigvals : list Q) (n_components : nat)
  : list Q :=
  let eigvals := sorted_eigvals eigvals in
  let total_var := Qsum (map Qmax0 eigvals) in
  if Qlt_bool 0 total_var
  then map (fun e => e / total_var)%Q (take n_components eigvals)
  else replicate n_components 0%Q.

(** The message of the [ValueError] of the [DataFrame] constructor for
    values of shape [passed] under axes of lengths [implied]. *)
Definition shape_message (passed implied : nat * nat) : string :=
  "Shape of passed values is (" ++ pretty passed.1 ++ ", "
    ++ pretty passed.2 ++ "), indices imply (" ++ pretty implied.1 ++ ", "
    ++ pretty implied.2 ++ ")".

(** [ComparisonAnalyzer._pcoa] on the values [D] of [dist_df], a finite
    matrix with one row and one column per sample.  With fewer samples
    than components, [coords] has one column per sample and the
    constructor of [pcoa_df], which is given [n_components] column
    labels, raises. *)
Definition _pcoa (labels : list string) (D : list (list Q))
    (n_components : nat) : result PCoA :=
  let n := length D in
  let B := double_centre D in
  let '(eigvals, eigvecs) := eigh B in
  let idx := reverse (argsort eigvals) in
  let eigvals' := take_at 0%Q eigvals idx in
  let eigvecs' := map (fun row => take_at 0%Q row idx) eigvecs in
  let scale := map (fun e => sqrt (Qmax0 e)) (take n_components eigvals') in
  let coords :=
    map (fun row => zip_with Qmult (take n_components row) scale)
        eigvecs' in
  let var_explained := var_explained eigvals n_components in
  if (n <? n_components)%nat
  then Raise (ValueError (shape_message (n, n) (n, n_components)))
  else Ok (mkPCoA labels coords var_explained).

(** [ComparisonAnalyzer._compute_beta_diversity].  A distance matrix that
    holds a NaN or an infinity makes [np.linalg.eigh] raise inside
    [_pcoa], so that nothing is returned. *)
Definition _compute_beta_diversity (df : DataFrame)
  : result (DistFrame * PCoA) :=
  let dist_df := beta_distance df in
  match finite_matrix (dist_values dist_df) with
  | None => Raise (LinAlgError "Eigenvalues did not converge")
  | Some D =>
      pcoa_coords <-! _pcoa (dist_index dist_df) D 2 ;;
      Ok (dist_df, pcoa_coords)
  end.

End Pcoa.

(* ================================================================== *)
(** * Grouped permutation test *)
(* ================================================================== *)

(** [Series.unique()]: the distinct values, in the order of their first
    appearance. *)
Fixpoint py_unique (l : list string) : list string :=
  match l with
  | [] => []
  | x :: l' => x :: filter (fun y => y <> x) (py_unique l')
  end.

(** Sample metadata: a table of strings indexed by sample id. *)
Record Metadata : Type := mkMetadata {
  meta_index : list string;
  meta_columns : list string;
  meta_values : list (list string)
}.

(** [metadata.loc[sample, column]] *)
Definition meta_cell (metadata : Metadata) (sample column : string)
  : string :=
  match label_pos sample (meta_index metadata),
        label_pos column (meta_columns metadata) with
  | Some i, Some j =>
      default "" (row ← meta_values metadata !! i; row !! j)
  | _, _ => ""
  end.

(** [dist_df.loc[samples, samples].values] for a finite distance table. *)
Definition dist_submatrix (dist_df : DataFrame) (samples : list string)
  : list (list Q) :=
  map (fun r =>
         map (fun c =>
                match label_pos r (index dist_df),
                      label_pos c (columns dist_df) with
                | Some i, Some j =>
                    default 0%Q (row ← values dist_df !! i; row !! j)
                | _, _ => 0%Q
                end) samples) samples.

(** The result dictionary of [_compute_permanova]; [None] is NaN. *)
Inductive PermanovaResult : Type :=
| PermanovaError (error : string)
| PermanovaStats (f_statistic p_value : option Q)
                 (n_permutations n_groups : nat) (groups : list string).

Definition matrix_sum (m : list (list Q)) : Q := Qsum (map Qsum m).

(** The closure [pseudo_f], with the captured [unique_groups] as its first
    argument.  The within-group term sums the entries of [D], the total
    term those of [D2 = D ** 2], as the source does. *)
Definition pseudo_f (unique_groups : list string) (D : list (list Q))
    (groups : list string) : option Q :=
  let n := length groups in
  let D2 := map (map (fun x => x * x)%Q) D in
  let ss_total := (matrix_sum D2 / (2 * Qof_nat n))%Q in
  let ss_within :=
    fold_left
      (fun acc g =>
         let mask := map (fun x => bool_decide (x = g)) groups in
         let n_g := length (filter (fun b => b = true) mask) in
         if (1 <? n_g)%nat then
           let D_g := map (select_by_mask mask) (select_by_mask mask D) in
           (acc + matrix_sum D_g / (2 * Qof_nat n_g))%Q
         else acc)
      unique_groups 0%Q in
  let ss_between := (ss_total - ss_within)%Q in
  let df_between := (Z.of_nat (length unique_groups) - 1)%Z in
  let df_within := (Z.of_nat n - Z.of_nat (length unique_groups))%Z in
  if (df_within <=? 0)%Z || Qeq_bool ss_within 0 then None
  else Some ((ss_between / inject_Z df_between)
             / (ss_within / inject_Z df_within))%Q.

Section Permanova.

(** The random source: [sample_frac1 k groups] is the order of the labels
    in the [k]-th draw [groups.sample(frac=1, replace=False)]. *)
Variable sample_frac1 : nat -> list string -> list string.

(** [dist_df.index.intersection(metadata.index)]: the distinct labels of
    [dist_df.index] that [metadata.index] holds, in their order. *)
Definition common_samples (dist_df : DataFrame) (metadata : Metadata)
  : list string :=
  filter (fun s => s ∈ meta_index metadata) (py_unique (index dist_df)).

Definition permanova_groups (dist_df : DataFrame) (metadata : Metadata)
    (group_col : string) : list string :=
  map (fun s => meta_cell metadata s group_col)
      (common_samples dist_df metadata).

(** The statistic of the observed labelling. *)
Definition observed_f (dist_df : DataFrame) (metadata : Metadata)
    (group_col : string) : option Q :=
  let samples := common_samples dist_df metadata in
  let groups := permanova_groups dist_df metadata group_col in
  pseudo_f (py_unique groups) (dist_submatrix dist_df samples) groups.

(** [perm_f_values]: the statistics of the permutations that are not
    NaN, in the order of the draws. *)
Definition perm_f_values (dist_df : DataFrame) (metadata : Metadata)
    (group_col : string) (n_permutations : nat) : list Q :=
  let samples := common_samples dist_df metadata in
  let groups := permanova_groups dist_df metadata group_col in
  let D := dist_submatrix dist_df samples in
  omap (fun k => pseudo_f (py_unique groups) D (sample_frac1 k groups))
       (seq 0 n_permutations).

(** [np.sum(np.array(perm_f_values) >= observed_f)] *)
Definition count_ge (observed : Q) (perm : list Q) : nat :=
  length (filter (fun f => Is_true (Qle_bool observed f)) perm).

(** [ComparisonAnalyzer._compute_permanova] *)
Definition _compute_permanova (dist_df : DataFrame) (metadata : Metadata)
    (group_col : string) (n_permutations : nat) : PermanovaResult :=
  let samples := common_samples dist_df metadata in
  if (length samples <? 3)%nat
  then PermanovaError "Not enough samples with metadata"
  else
    let groups := permanova_groups dist_df metadata group_col in
    let unique_groups := py_unique groups in
    if (length unique_groups <? 2)%nat
    then PermanovaError "Need at least 2 groups"
    else
      let observed := observed_f dist_df metadata group_col in
      let perm := perm_f_values dist_df metadata group_col n_permutations in
      let p_value :=
        match perm, observed with
        | _ :: _, Some f =>
            Some ((Qof_nat (count_ge f perm) + 1)
                  / (Qof_nat (length perm) + 1))%Q
        | _, _ => None
        end in
      PermanovaStats observed p_value n_permutations
        (length unique_groups) unique_groups.

End Permanova.

(* ================================================================== *)
(** * Differential abundance: the false discovery rate block *)
(* ================================================================== *)

(** [np.minimum.accumulate(fdr[::-1])[::-1]]: the running minimum taken
    from the last position towards the first. *)
Definition Qmin_bool (a b : Q) : Q := if Qle_bool a b then a else b.

Fixpoint suffix_min (l : list Q) : list Q :=
  match l with
  | [] => []
  | x :: rest =>
      match suffix_min rest with
      | [] => [x]
      | m :: ms => Qmin_bool x m :: m :: ms
      end
  end.

(** One assignment [out[i] = v] of a fancy-indexed store. *)
Definition scatter_step (out : list Q) (iv : nat * Q) : list Q :=
  <[iv.1 := iv.2]> out.

(** [out = np.zeros(n); out[idx] = vals] *)
Definition scatter (n : nat) (idx : list nat) (vals : list Q) : list Q :=
  fold_left scatter_step (zip idx vals) (replicate n 0%Q).

(** The Benjamini-Hochberg block of [_compute_differential], over exact
    rationals: the code's [(p * n) / rank] is rounded twice, so a corrected
    value may differ from the one here in its last place. *)
Definition fdr_correction (p_values : list Q) : list Q :=
  let n := length p_values in
  let sorted_idx := argsort p_values in
  let sorted_p := take_at 0%Q p_values sorted_idx in
  let fdr :=
    imap (fun k p => (p * Qof_nat n / (Qof_nat k + 1))%Q) sorted_p in
  let fdr := suffix_min fdr in
  scatter n sorted_idx fdr.

(* ================================================================== *)
(** * Alpha diversity *)
(* ================================================================== *)

Module Alpha.

Local Open Scope R_scope.

(** A float quotient over the reals: finite, infinite or NaN. *)
Inductive rval : Type :=
| RFin (r : R)
| RPInf
| RNInf
| RNaN.

Definition rdiv (a b : R) : rval :=
  if Req_dec_T b 0 then
    if Req_dec_T a 0 then RNaN
    else if Rlt_dec a 0 then RNInf else RPInf
  else RFin (a / b).

Definition Rsum (l : list R) : R := fold_right Rplus 0 l.

#[global] Instance Rlt_decision (x y : R) : Decision (x < y) :=
  Rlt_dec x y.

(** [row[row > 0]] *)
Definition positive_part (row : list R) : list R :=
  filter (fun x => 0 < x) row.

(** The closure [shannon]. *)
Definition shannon (row : list R) : R :=
  let row := positive_part row in
  match row with
  | [] => 0
  | _ =>
      let p := map (fun x => x / Rsum row) row in
      - Rsum (map (fun pi => pi * ln pi) p)
  end.

(** The closure [simpson]. *)
Definition simpson (row : list R) : R :=
  let row := positive_part row in
  match row with
  | [] => 0
  | _ =>
      let p := map (fun x => x / Rsum row) row in
      1 - Rsum (map (fun pi => pi * pi) p)
  end.

(** [(df > 0).sum(axis=1)] for one row. *)
Definition observed_taxa (row : list R) : nat :=
  length (positive_part row).

(** [alpha["shannon"] / np.log(alpha["observed_taxa"].replace(0, 1))],
    with the real logarithm and exact sums. *)
Definition pielou_evenness (row : list R) : rval :=
  let observed := observed_taxa row in
  let observed := if (observed =? 0)%nat then 1%nat else observed in
  rdiv (shannon row) (ln (INR observed)).

(** One line of the alpha diversity table. *)
Record AlphaRow : Type := mkAlpha {
  a_sample : string;
  a_run : string;
  a_shannon : R;
  a_simpson : R;
  a_observed_taxa : nat;
  a_pielou_evenness : rval
}.

Definition alpha_of_row (sample run : string) (row : list R) : AlphaRow :=
  mkAlpha sample run (shannon row) (simpson row) (observed_taxa row)
          (pielou_evenness row).

(** [ComparisonAnalyzer._compute_alpha_diversity]; [analyze] stores the
    table unchanged in [results.alpha_diversity]. *)
Definition _compute_alpha_diversity (df : DataFrame)
    (run_labels : list string) : list AlphaRow :=
  imap (fun i (sr : string * list Q) =>
          alpha_of_row sr.1 (default ""%string (run_labels !! i))
                       (map Q2R sr.2))
       (zip (index df) (values df)).

(** The number of non-zero entries of a row of the matrix. *)
Definition count_nonzero (row : list Q) : nat :=
  length (filter (fun x => Is_true (negb (Qeq_bool x 0))) row).

End Alpha.

(* ================================================================== *)
(** * The comparison analyzer: similarity between runs *)
(* ================================================================== *)

(** The rows of the group [run] of [df.groupby(run_labels)]; labels and
    rows are matched by position, as they share the index of [df]. *)
Definition group_rows (df : DataFrame) (run_labels : list string)
    (run : string) : list (list Q) :=
  (filter (fun lr => lr.1 = run) (zip run_labels (values df))).*2.

(** [df.groupby(run_labels).mean().loc[run]], read for a run that labels
    at least one row. *)
Definition run_profile (df : DataFrame) (run_labels : list string)
    (run : string) : list Q :=
  map (fun col => default 0%Q (Qmean col))
      (col_vectors (ncols df) (group_rows df run_labels run)).

(** [(profile > 0)] *)
Definition presence (profile : list Q) : list bool :=
  map (Qlt_bool 0) profile.

(** [mask.sum()] *)
Definition count_true (mask : list bool) : nat :=
  length (filter (fun b => b = true) mask).

(** The pairs [(run1, run2)] of
    [for i, run1 in enumerate(runs): for run2 in runs[i+1:]]. *)
Fixpoint run_pairs (runs : list string) : list (string * string) :=
  match runs with
  | [] => []
  | run1 :: rest => (map (pair run1) rest ++ run_pairs rest)%list
  end.

(** [intersection / union], appended when [union > 0]. *)
Definition jaccard_value (p1 p2 : list bool) : option Q :=
  let intersection := count_true (zip_with andb p1 p2) in
  let union := count_true (zip_with orb p1 p2) in
  if (0 <? union)%nat then Some (Qof_nat intersection / Qof_nat union)%Q
  else None.

(** [2 * intersection / (p1.sum() + p2.sum())], appended when the
    denominator is positive. *)
Definition sorensen_value (p1 p2 : list bool) : option Q :=
  let intersection := count_true (zip_with andb p1 p2) in
  if (0 <? count_true p1 + count_true p2)%nat
  then Some (2 * Qof_nat intersection
             / Qof_nat (count_true p1 + count_true p2))%Q
  else None.

(** [1 - bc] on a float quotient. *)
Definition one_minus (x : fval) : fval :=
  match x with
  | Fin q => Fin (1 - q)
  | PInf => NInf
  | NInf => PInf
  | NaN => NaN
  end.

(** The Bray-Curtis similarity of two profiles under the guard
    [a1.sum() > 0 and a2.sum() > 0]; [None] when the guard fails. *)
Definition guarded_similarity (a1 a2 : list Q) : option fval :=
  if Qlt_bool 0 (Qsum a1) && Qlt_bool 0 (Qsum a2)
  then Some (one_minus (braycurtis a1 a2))
  else None.

(** [np.mean] of a non-empty list of numbers. *)
Definition np_mean (l : list Q) : Q := (Qsum l / Qof_nat (length l))%Q.

(** [(df > 0).any(axis=0).sum()] *)
Definition taxa_observed (df : DataFrame) : nat :=
  count_true
    (map (fun col => bool_decide (Exists (fun x => Is_true (Qlt_bool 0 x)) col))
         (col_vectors (ncols df) (values df))).

(** The number read from a finite quotient that is not NaN. *)
Definition similarity_number (x : fval) : option Q :=
  match x with
  | Fin q => Some q
  | _ => None
  end.

Section Similarity.

(** [scipy.stats.spearmanr] on two samples: the coefficient, or [None] for
    NaN. *)
Variable spearmanr : list Q -> list Q -> option Q.
(** [np.std] *)
Variable np_std : list Q -> Q.

(** The values the four lists receive for one pair of runs. *)
Definition pair_jaccard (a1 a2 : list Q) : option Q :=
  jaccard_value (presence a1) (presence a2).

Definition pair_sorensen (a1 a2 : list Q) : option Q :=
  sorensen_value (presence a1) (presence a2).

Definition pair_spearman (a1 a2 : list Q) : option Q :=
  let common_taxa := zip_with andb (presence a1) (presence a2) in
  if (3 <=? count_true common_taxa)%nat
  then spearmanr (select_by_mask common_taxa a1)
                 (select_by_mask common_taxa a2)
  else None.

(** [bray_values] receives [1 - bc] unless [bc] is NaN; under the guard
    the quotient is finite (see [guarded_similarity_finite]). *)
Definition pair_bray (a1 a2 : list Q) : option Q :=
  s ← guarded_similarity a1 a2; similarity_number s.

(** [ComparisonAnalyzer._compute_similarity_metrics]; the dictionary is
    the list of its items in insertion order. *)
Definition _compute_similarity_metrics (df : DataFrame)
    (run_labels : list string) : list (string * Q) :=
  let runs := py_unique run_labels in
  if (length runs <? 2)%nat then []
  else
    let profile := run_profile df run_labels in
    let pairs := run_pairs runs in
    let jaccard_values :=
      omap (fun rr => pair_jaccard (profile rr.1) (profile rr.2)) pairs in
    let sorensen_values :=
      omap (fun rr => pair_sorensen (profile rr.1) (profile rr.2)) pairs in
    let spearman_values :=
      omap (fun rr => pair_spearman (profile rr.1) (profile rr.2)) pairs in
    let bray_values :=
      omap (fun rr => pair_bray (profile rr.1) (profile rr.2)) pairs in
    ((if (0 <? length jaccard_values)%nat
      then [("jaccard_mean", np_mean jaccard_values);
            ("jaccard_std", np_std jaccard_values)]
      else [])
     ++ (if (0 <? length sorensen_values)%nat
         then [("sorensen_mean", np_mean sorensen_values)] else [])
     ++ (if (0 <? length spearman_values)%nat
         then [("spearman_mean", np_mean spearman_values);
               ("spearman_std", np_std spearman_values)]
         else [])
     ++ (if (0 <? length bray_values)%nat
         then [("bray_curtis_similarity_mean", np_mean bray_values)]
         else [])
     ++ [("total_taxa", Qof_nat (ncols df));
         ("total_taxa_observed", Qof_nat (taxa_observed df))])%list.

End Similarity.

(** [metrics[key]], [None] where the dictionary lacks the key. *)
Fixpoint metrics_get (key : string) (metrics : list (string * Q))
  : option Q :=
  match metrics with
  | [] => None
  | (k, v) :: rest =>
      if String.eqb k key then Some v else metrics_get key rest
  end.

(** One cell of the matrix of [_compute_pairwise_similarity]. *)
Definition pairwise_cell (df : DataFrame) (run_labels : list string)
    (run1 run2 : string) : fval :=
  if String.eqb run1 run2 then Fin 1
  else default (Fin 0)
         (guarded_similarity (run_profile df run_labels run1)
                             (run_profile df run_labels run2)).

(** [ComparisonAnalyzer._compute_pairwise_similarity]: the run labels of
    both axes and the cells, row by row. *)
Definition _compute_pairwise_similarity (df : DataFrame)
    (run_labels : list string) : list string * list (list fval) :=
  let runs := py_unique run_labels in
  (runs, map (fun run1 => map (pairwise_cell df run_labels run1) runs) runs).

(* ================================================================== *)
(** * The comparison analyzer: per-run summaries *)
(* ================================================================== *)

(** The value of one run in the dictionary of [_compute_run_summaries];
    a mean is [None] where pandas gives NaN. *)
Record RunSummary : Type := mkSummary {
  rs_n_samples : nat;
  rs_n_taxa_observed : nat;
  rs_mean_richness : option Q;
  rs_mean_total_abundance : option Q;
  rs_top_taxa : list (string * Q)
}.

(** [(run_df > 0).any(axis=0).sum()] for the rows of [run_df], a table
    with [n] columns. *)
Definition observed_columns (n : nat) (rows : list (list Q)) : nat :=
  count_true (map (existsb (Qlt_bool 0)) (col_vectors n rows)).

(** [(run_df > 0).sum(axis=1)] *)
Definition row_richness (rows : list (list Q)) : list Q :=
  map (fun row => Qof_nat (count_true (presence row))) rows.

(** [Series.nlargest(n)] (with [keep="first"]): the [n] largest entries
    in descending order, entries of equal value in their order of
    appearance. *)
Fixpoint insert_desc (x : string * Q) (l : list (string * Q))
  : list (string * Q) :=
  match l with
  | [] => [x]
  | y :: rest =>
      if Qle_bool y.2 x.2 then x :: y :: rest
      else y :: insert_desc x rest
  end.

Definition sort_desc (s : list (string * Q)) : list (string * Q) :=
  foldr insert_desc [] s.

Definition nlargest (n : nat) (s : list (string * Q))
  : list (string * Q) :=
  take n (sort_desc s).

(** The summary of one run; [run_df.mean()] is the profile of the run. *)
Definition run_summary (df : DataFrame) (run_labels : list string)
    (run : string) : RunSummary :=
  let run_df := group_rows df run_labels run in
  mkSummary (length run_df)
            (observed_columns (ncols df) run_df)
            (Qmean (row_richness run_df))
            (Qmean (map Qsum run_df))
            (nlargest 5 (zip (columns df)
                             (run_profile df run_labels run))).

(** [ComparisonAnalyzer._compute_run_summaries]; the dictionary is the
    list of its items in insertion order. *)
Definition _compute_run_summaries (df : DataFrame)
    (run_labels : list string) : list (string * RunSummary) :=
  map (fun run => (run, run_summary df run_labels run))
      (py_unique run_labels).

(* ================================================================== *)
(** * Predicates used in the statements *)
(* ================================================================== *)

(** A label that can stand for a taxon: not empty, not the placeholder. *)
Definition usable_name (s : string) : Prop := s <> "" /\ s <> "__".

(** The string holds no colon. *)
Definition colon_free (s : string) : bool :=
  forallb (fun c => negb (is_colon c)) (list_ascii_of_string s).

(** The column-merging loop shared by [_aggregate_to_rank] and
    [_parse_rank_from_names], for the renaming [key] of the columns. *)
Definition aggregate_columns (key : string -> string)
    (items : list (string * list Q)) : list (string * list Q) :=
  fold_left (fun agg (item : string * list Q) =>
               agg_add (key item.1) item.2 agg) items [].

(** The total of row [i], read through a list of column vectors. *)
Definition col_total (i : nat) (cols : list (list Q)) : Q :=
  Qsum (map (fun col => default 0%Q (col !! i)) cols).

(** One cell of a re-indexed row, as [reindex_columns] fills it. *)
Definition reindexed_cell (cols : list string) (row : list Q)
    (taxon : string) : Q :=
  match label_pos taxon cols with
  | Some j => default 0%Q (row !! j)
  | None => 0%Q
  end.

(** Two float quotients are the same value: both NaN, the same infinity,
    or equal numbers. *)
Definition fval_eq (x y : fval) : Prop :=
  match x, y with
  | Fin a, Fin b => (a == b)%Q
  | PInf, PInf | NInf, NInf | NaN, NaN => True
  | _, _ => False
  end.

(** Descending order of the values of (label, value) pairs. *)
Definition value_ge (a b : string * Q) : Prop := (b.2 <= a.2)%Q.

(** All entries of a table are at least zero. *)
Definition nonneg_rows (rows : list (list Q)) : Prop :=
  Forall (Forall (fun x => (0 <= x)%Q)) rows.

(* ================================================================== *)
(** * Sample inputs for the analyzer *)
(* ================================================================== *)

(** Two runs in which sample [s1] has no reads at all. *)
Definition empty_sample_runs : list RunData :=
  [ mkRun "A" (Some (mkDF ["s1"; "s2"] ["g__X"; "g__Y"]
                          [[0; 0]; [1; 2]]%Q)) None;
    mkRun "B" (Some (mkDF ["s1"; "s2"] ["g__X"; "g__Y"]
                          [[0; 0]; [3; 1]]%Q)) None ].

(** A distance table over four samples and the metadata that puts them
    in two groups. *)
Definition demo_dist : DataFrame :=
  mkDF ["a"; "b"; "c"; "d"] ["a"; "b"; "c"; "d"]
       [[0; 1 # 3; 1; 1]; [1 # 3; 0; 1; 1];
        [1; 1; 0; 1 # 2]; [1; 1; 1 # 2; 0]]%Q.

Definition demo_metadata : Metadata :=
  mkMetadata ["a"; "b"; "c"; "d"] ["site"]
             [["gut"]; ["gut"]; ["skin"]; ["skin"]].

(** Two samples at distance 1, and a stand-in for [np.sqrt] (exact on 0
    and never read by the variance-explained vector). *)
Definition two_point_distances : list (list Q) := [[0; 1]; [1; 0]]%Q.

Definition flat_sqrt (x : Q) : Q := x.

(** Three samples over two taxa: [a] and [c] share nothing, [b] holds
    both taxa.  Their Bray-Curtis distances break the triangle inequality
    (1/3 + 1/3 < 1), so the double-centred matrix has a negative
    eigenvalue.  [crossing_eigh] is its spectrum in ascending order with
    an eigenvector per column (not scaled to unit length, which the
    variance-explained vector does not read). *)
Definition crossing_table : DataFrame :=
  mkDF ["a"; "b"; "c"] ["X"; "Y"] [[1; 0]; [1; 1]; [0; 1]]%Q.

Definition crossing_distances : list (list Q) :=
  [[0; 1 # 3; 1]; [1 # 3; 0; 1 # 3]; [1; 1 # 3; 0]]%Q.

Definition crossing_eigh (B : list (list Q)) : list Q * list (list Q) :=
  ([- (5 # 54); 0; 1 # 2]%Q, [[1; 1; 1]; [-2; 1; 0]; [1; 1; -1]]%Q).

(** A table with taxa as rows, and a small normalised matrix. *)
Definition tall_table : DataFrame :=
  mkDF ["A"; "B"] ["s1"] [[1]; [2]]%Q.

Definition tall_run : RunData := mkRun "r" (Some tall_table) None.

Definition filter_demo_table : DataFrame :=
  mkDF ["s1"; "s2"; "s3"; "s4"] ["X"; "Y"; "Z"]
       [[1 # 2; 1 # 2; 0]; [1; 0; 0]; [9 # 10; 0; 1 # 10]; [1; 0; 0]]%Q.

(** Two runs of which the first has two columns whose names clean to the
    same name. *)
Definition colliding_table : DataFrame :=
  mkDF ["s1"] ["X"; "X_"] [[1; 2]]%Q.

Definition colliding_runs : list RunData :=
  [ mkRun "A" (Some colliding_table) None;
    mkRun "B" (Some demo_table_B) None ].

(** Four aligned rows of two runs that share only sample [s1]. *)
Definition partly_shared_table : DataFrame :=
  mkDF ["A:s1"; "A:s2"; "B:s1"; "B:s3"] ["X"; "Y"]
       [[1; 0]; [2; 1]; [0; 3]; [1; 1]]%Q.

(** Metadata in which every sample is a group of its own. *)
Definition singleton_metadata : Metadata :=
  mkMetadata ["a"; "b"; "c"; "d"] ["site"]
             [["gut"]; ["skin"]; ["oral"]; ["nasal"]].

(** Stand-ins for [spearmanr] (always NaN) and [np.std]. *)
Definition no_spearman : list Q -> list Q -> option Q := fun _ _ => None.

Definition no_std : list Q -> Q := fun _ => 0%Q.

(** A stand-in for the random draws: the [k]-th draw rotates the labels by
    [k] places. *)
Definition rotate_draw (k : nat) (groups : list string) : list string :=
  rotate k groups.

(* ================================================================== *)
(** * Properties of the harmoniser *)
(* ================================================================== *)

(** ** Rational arithmetic helpers *)

Lemma Qeq_bool_true (a b : Q) : Qeq_bool a b = true <-> (a == b)%Q.
Proof. apply Qeq_bool_iff. Qed.

Lemma Qeq_bool_false (a b : Q) : Qeq_bool a b = false <-> ~ (a == b)%Q.
Proof.
  split.
  - intros Hb Heq. apply Qeq_bool_iff in Heq. congruence.
  - intros Hne. destruct (Qeq_bool a b) eqn:E; [|reflexivity].
    apply Qeq_bool_iff in E. contradiction.
Qed.

Lemma Qlt_bool_true (a b : Q) : Qlt_bool a b = true <-> (a < b)%Q.
Proof.
  unfold Qlt_bool. rewrite negb_true_iff. split.
  - intros Hb. apply Qnot_le_lt. intros Hle.
    apply Qle_bool_iff in Hle. congruence.
  - intros Hlt. destruct (Qle_bool b a) eqn:E; [|reflexivity].
    apply Qle_bool_iff in E. lra.
Qed.

Lemma Qlt_bool_false (a b : Q) : Qlt_bool a b = false <-> (b <= a)%Q.
Proof.
  unfold Qlt_bool. rewrite negb_false_iff. apply Qle_bool_iff.
Qed.

Lemma Qsum_scale (c : Q) (l : list Q) :
  (Qsum (map (fun x => x / c) l) == Qsum l / c)%Q.
Proof.
  induction l as [|x l IH]; simpl.
  - unfold Qdiv. ring.
  - rewrite IH. unfold Qdiv. ring.
Qed.

Lemma Qof_nat_nonneg (n : nat) : (0 <= Qof_nat n)%Q.
Proof.
  unfold Qof_nat. change 0%Q with (inject_Z 0).
  rewrite <- Zle_Qle. lia.
Qed.

Lemma Qof_nat_le (a b : nat) : (a <= b)%nat -> (Qof_nat a <= Qof_nat b)%Q.
Proof. intros H. unfold Qof_nat. rewrite <- Zle_Qle. lia. Qed.

(** ** The relative normalisation *)

(** A row whose sum is not zero is divided by it and then sums to one; a
    row whose sum is zero is divided by one and still sums to zero. *)
Lemma normalise_row_sum (row : list Q) :
  (~ (Qsum row == 0)%Q /\ (Qsum (normalise_row row) == 1)%Q)
  \/ ((Qsum row == 0)%Q /\ (Qsum (normalise_row row) == 0)%Q).
Proof.
  unfold normalise_row.
  destruct (Qeq_bool (Qsum row) 0) eqn:E.
  - right. apply Qeq_bool_true in E. split; [exact E|].
    rewrite Qsum_scale, E. reflexivity.
  - left. apply Qeq_bool_false in E. split; [exact E|].
    rewrite Qsum_scale. field. exact E.
Qed.

Lemma normalise_row_zero_sum (row : list Q) :
  (Qsum row == 0)%Q -> Forall2 Qeq (normalise_row row) row.
Proof.
  intros H. unfold normalise_row.
  apply Qeq_bool_true in H. rewrite H. clear H.
  induction row as [|x row IH]; simpl; constructor.
  - unfold Qdiv. field.
  - exact IH.
Qed.

(** Which runs and which thresholds reach the end of [harmonise]. *)
Lemma harmonise_ok_inv log self runs h :
  harmonise log self runs = Ok h ->
  exists aligned,
    aligned_abundance h =
      _filter_taxa self
        (if String.eqb (norm self) "relative"
         then _normalise_relative aligned
         else if String.eqb (norm self) "clr"
              then _normalise_clr log aligned else aligned).
Proof.
  unfold harmonise.
  destruct (length runs <? 2)%nat; [discriminate|].
  destruct (length _ =? 0)%nat; [discriminate|].
  destruct (_align_taxa _) as [aligned|e]; simpl; [|discriminate].
  intros [= <-]. simpl. eexists. reflexivity.
Qed.

Lemma filter_taxa_off self df :
  (min_prevalence self <= 0)%Q -> (min_mean_abundance self <= 0)%Q ->
  _filter_taxa self df = df.
Proof.
  intros Hp Hm. unfold _filter_taxa, abundance_filter, prevalence_filter.
  apply Qlt_bool_false in Hp, Hm. rewrite Hp, Hm. reflexivity.
Qed.

(** C1 (as stated) fails.  With [min_prevalence = 0.6] the two sample
    runs harmonise successfully under relative normalisation, the filter
    then drops every taxon but one, and the first row of the returned
    matrix sums to 3/4: neither within 1e-9 of 1 nor 0. *)
Lemma relative_rows_after_filter_counterexample :
  ~ (forall (log : Q -> Q) (self : Harmoniser) (runs : list RunData)
            (h : HarmonisedData),
        norm self = "relative" ->
        harmonise log self runs = Ok h ->
        Forall (fun row =>
                  (Qabs (Qsum row - 1) <= 1 # 1000000000)%Q
                  \/ (Qsum row == 0)%Q)
               (values (aligned_abundance h))).
Proof.
  intros H.
  pose proof (H no_log (demo_harmoniser (6 # 10)) demo_runs) as H'.
  destruct (harmonise no_log (demo_harmoniser (6 # 10)) demo_runs)
    as [h|e] eqn:E; [|vm_compute in E; discriminate].
  specialize (H' h eq_refl eq_refl).
  vm_compute in E. injection E as <-. simpl in H'.
  apply Forall_cons in H' as [[Hone|Hzero] _].
  - vm_compute in Hone. apply Hone. reflexivity.
  - vm_compute in Hzero. discriminate.
Qed.

(** C1 (amended).  Every successful harmonisation under relative
    normalisation returns the taxon filter applied to a normalised matrix;
    each row of that normalised matrix sums to 1, or to 0 when the row it
    comes from summed to 0 (such a row is left as it is); and when both
    filter thresholds are at most 0 the returned matrix is the normalised
    matrix itself. *)
Theorem harmonise_relative_row_sums
    (log : Q -> Q) (self : Harmoniser) (runs : list RunData)
    (h : HarmonisedData) :
  norm self = "relative" ->
  harmonise log self runs = Ok h ->
  exists aligned : DataFrame,
    aligned_abundance h = _filter_taxa self (_normalise_relative aligned)
    /\ Forall2
         (fun row nrow =>
            (~ (Qsum row == 0)%Q /\ (Qsum nrow == 1)%Q)
            \/ ((Qsum row == 0)%Q /\ (Qsum nrow == 0)%Q
                /\ Forall2 Qeq nrow row))
         (values aligned) (values (_normalise_relative aligned))
    /\ ((min_prevalence self <= 0)%Q -> (min_mean_abundance self <= 0)%Q ->
        aligned_abundance h = _normalise_relative aligned).
Proof.
  intros Hnorm Hok.
  destruct (harmonise_ok_inv _ _ _ _ Hok) as [aligned Hal].
  rewrite Hnorm in Hal. simpl in Hal.
  exists aligned. split; [exact Hal|]. split.
  - simpl. induction (values aligned) as [|row rows IH]; simpl;
      constructor; [|exact IH].
    destruct (normalise_row_sum row) as [[Hnz H1]|[Hz H0]].
    + left. split; assumption.
    + right. repeat split; try assumption.
      apply normalise_row_zero_sum. exact Hz.
  - intros Hp Hm. rewrite Hal. apply filter_taxa_off; assumption.
Qed.

Lemma harmonise_relative_row_sums_witness :
  exists aligned : DataFrame,
    Forall (fun row => (Qsum row == 1)%Q \/ (Qsum row == 0)%Q)
           (values (_normalise_relative aligned))
    /\ result_table (harmonise no_log (demo_harmoniser 0) demo_runs)
       = Some (_normalise_relative aligned).
Proof.
  destruct (harmonise no_log (demo_harmoniser 0) demo_runs) as [h|e] eqn:E;
    [|vm_compute in E; discriminate].
  destruct (harmonise_relative_row_sums no_log (demo_harmoniser 0)
              demo_runs h eq_refl E) as (aligned & _ & Hrows & Hoff).
  exists aligned. split.
  - clear Hoff.
    induction Hrows as [|row nrow rows nrows Hr _ IH]; constructor;
      [|exact IH].
    destruct Hr as [[_ H1]|[_ [H0 _]]]; [left|right]; assumption.
  - simpl. f_equal. apply Hoff; vm_compute; discriminate.
Defined.

(** ** Orientation *)

(** C2 (as stated) fails: a table with one row and two columns has more
    columns than rows, yet it reaches the rank aggregation as it is. *)
Lemma orientation_counterexample :
  ~ (forall (self : Harmoniser) (run : RunData) (table : DataFrame),
        abundance_table run = Some table ->
        df_empty table = false ->
        ((nrows table < ncols table)%nat ->
         process_run self run
         = Some (label_run run (aggregate_run self run (df_T table))))
        /\ ((ncols table <= nrows table)%nat ->
            process_run self run
            = Some (label_run run (aggregate_run self run table)))).
Proof.
  intros H.
  pose (table := mkDF ["s1"] ["A"; "B"] [[1; 2]]%Q).
  destruct (H (demo_harmoniser 0) (mkRun "r" (Some table) None) table
              eq_refl eq_refl) as [Hwide _].
  assert (Hlt : (nrows table < ncols table)%nat) by (vm_compute; lia).
  specialize (Hwide Hlt). vm_compute in Hwide. discriminate.
Qed.

(** C2 (amended).  For every run processed by [harmonise], a table with
    more rows than columns is transposed before the rank aggregation, and
    a table with at least as many columns as rows is aggregated as it
    is. *)
Theorem orientation_by_row_count
    (self : Harmoniser) (run : RunData) (table : DataFrame) :
  abundance_table run = Some table ->
  df_empty table = false ->
  ((ncols table < nrows table)%nat ->
   process_run self run
   = Some (label_run run (aggregate_run self run (df_T table))))
  /\ ((nrows table <= ncols table)%nat ->
      process_run self run
      = Some (label_run run (aggregate_run self run table))).
Proof.
  intros Htab Hne. unfold process_run, ensure_samples_are_rows.
  rewrite Htab, Hne. split; intros Hcmp.
  - apply Nat.ltb_lt in Hcmp. rewrite Hcmp. reflexivity.
  - apply Nat.ltb_ge in Hcmp. rewrite Hcmp. reflexivity.
Qed.

Lemma orientation_by_row_count_witness :
  process_run (demo_harmoniser 0) tall_run
  = Some (label_run tall_run
            (aggregate_run (demo_harmoniser 0) tall_run (df_T tall_table))).
Proof.
  apply (proj1 (orientation_by_row_count (demo_harmoniser 0) tall_run
                  tall_table eq_refl eq_refl)).
  vm_compute. lia.
Defined.

(** ** Too few runs *)

(** C9.  A list of fewer than two runs makes [harmonise] raise its
    configuration error, the [ValueError] "Need at least 2 runs to
    harmonise"; no matrix is returned. *)
Theorem harmonise_needs_two_runs
    (log : Q -> Q) (self : Harmoniser) (runs : list RunData) :
  (length runs < 2)%nat ->
  harmonise log self runs
  = Raise (ValueError "Need at least 2 runs to harmonise")
  /\ result_table (harmonise log self runs) = None.
Proof.
  intros Hlen. unfold harmonise.
  apply Nat.ltb_lt in Hlen. rewrite Hlen. split; reflexivity.
Qed.

Lemma harmonise_needs_two_runs_witness :
  harmonise no_log (demo_harmoniser 0)
            [mkRun "A" (Some demo_table_A) None]
  = Raise (ValueError "Need at least 2 runs to harmonise").
Proof.
  apply (harmonise_needs_two_runs no_log (demo_harmoniser 0)
           [mkRun "A" (Some demo_table_A) None]).
  simpl. lia.
Defined.

(** ** The two taxon filters commute *)

Lemma select_by_mask_nil_r {A} (mask : list bool) :
  select_by_mask mask (@nil A) = [].
Proof. destruct mask as [|[] ?]; reflexivity. Qed.

Section MaskLemmas.

Context {A B : Type}.

Lemma select_by_mask_map (f : A -> B) (mask : list bool) (l : list A) :
  map f (select_by_mask mask l) = select_by_mask mask (map f l).
Proof.
  revert l. induction mask as [|b mask IH]; intros [|x l]; simpl;
    try reflexivity.
  destruct b; simpl; rewrite IH; reflexivity.
Qed.

(** Selecting by [m1] and then by what [m1] leaves of [m2] keeps the
    positions set in both masks, whichever mask goes first. *)
Lemma select_by_mask_comm (m1 m2 : list bool) (l : list A) :
  select_by_mask (select_by_mask m1 m2) (select_by_mask m1 l)
  = select_by_mask (select_by_mask m2 m1) (select_by_mask m2 l).
Proof.
  revert m2 l. induction m1 as [|b1 m1 IH]; intros m2 l.
  - simpl. rewrite (select_by_mask_nil_r m2). reflexivity.
  - destruct m2 as [|b2 m2]; simpl.
    { destruct b1; simpl; destruct l; reflexivity. }
    destruct l as [|x l]; simpl.
    { destruct b1, b2; simpl; rewrite ?select_by_mask_nil_r;
        reflexivity. }
    destruct b1, b2; simpl; rewrite IH; reflexivity.
Qed.

End MaskLemmas.

Lemma col_vectors_length (n : nat) (rows : list (list Q)) :
  length (col_vectors n rows) = n.
Proof.
  revert rows. induction n as [|n IH]; intros rows; simpl;
    [reflexivity | rewrite IH; reflexivity].
Qed.

(** The column vectors of a table restricted to a mask are the masked
    column vectors of the table. *)
Lemma col_vectors_select (mask : list bool) (labels : list string)
    (rows : list (list Q)) :
  length labels = length mask ->
  Forall (fun row => length row = length mask) rows ->
  col_vectors (length (select_by_mask mask labels))
              (map (select_by_mask mask) rows)
  = select_by_mask mask (col_vectors (length mask) rows).
Proof.
  revert labels rows.
  induction mask as [|b mask IH]; intros labels rows Hlab Hrows.
  - destruct labels; [reflexivity | discriminate].
  - destruct labels as [|c labels]; [discriminate|].
    injection Hlab as Hlab.
    assert (Htl : Forall (fun row => length row = length mask)
                         (map (@tl Q) rows)).
    { clear -Hrows. induction Hrows as [|row rows Hr _ IHr]; simpl;
        constructor; [|exact IHr].
      destruct row; simpl in *; [discriminate | lia]. }
    assert (Hmap : map (@tl Q) (map (select_by_mask (true :: mask)) rows)
                   = map (select_by_mask mask) (map (@tl Q) rows)).
    { clear -Hrows. induction Hrows as [|row rows Hr _ IHr]; simpl;
        [reflexivity|].
      f_equal; [|exact IHr].
      destruct row; [discriminate | reflexivity]. }
    assert (Hhd : map cell_hd (map (select_by_mask (true :: mask)) rows)
                  = map cell_hd rows).
    { clear -Hrows. induction Hrows as [|row rows Hr _ IHr]; simpl;
        [reflexivity|].
      f_equal; [|exact IHr].
      destruct row; [discriminate | reflexivity]. }
    assert (Hdrop : map (select_by_mask (false :: mask)) rows
                    = map (select_by_mask mask) (map (@tl Q) rows)).
    { clear -Hrows. induction Hrows as [|row rows Hr _ IHr]; simpl;
        [reflexivity|].
      f_equal; [|exact IHr].
      destruct row; [discriminate | reflexivity]. }
    destruct b.
    + change (select_by_mask (true :: mask) (c :: labels))
        with (c :: select_by_mask mask labels).
      change (length (true :: mask)) with (S (length mask)).
      cbn [length col_vectors].
      rewrite Hhd, Hmap, (IH labels _ Hlab Htl). reflexivity.
    + change (select_by_mask (false :: mask) (c :: labels))
        with (select_by_mask mask labels).
      change (length (false :: mask)) with (S (length mask)).
      cbn [col_vectors].
      rewrite Hdrop. apply IH; assumption.
Qed.

Lemma column_mask_length stat threshold df :
  length (column_mask stat threshold df) = ncols df.
Proof.
  unfold column_mask. rewrite length_map. apply col_vectors_length.
Qed.

(** A column statistic sees the same column before and after other columns
    are dropped. *)
Lemma column_mask_select stat threshold (mask : list bool) df :
  well_formed df ->
  length mask = ncols df ->
  column_mask stat threshold (select_columns mask df)
  = select_by_mask mask (column_mask stat threshold df).
Proof.
  intros [_ Hrows] Hlen. unfold column_mask, select_columns, ncols. simpl.
  rewrite <- select_by_mask_map. f_equal.
  unfold ncols in *. rewrite <- Hlen.
  apply col_vectors_select.
  - symmetry. exact Hlen.
  - rewrite Hlen. exact Hrows.
Qed.

Lemma select_columns_comm (m1 m2 : list bool) (df : DataFrame) :
  select_columns (select_by_mask m1 m2) (select_columns m1 df)
  = select_columns (select_by_mask m2 m1) (select_columns m2 df).
Proof.
  unfold select_columns. simpl. f_equal.
  - apply select_by_mask_comm.
  - rewrite !map_map. apply map_ext. intros row.
    apply select_by_mask_comm.
Qed.

(** C8.  On every rectangular matrix and for every pair of thresholds, the
    prevalence filter followed by the mean-abundance filter yields the
    same table as the mean-abundance filter followed by the prevalence
    filter; the first order is the one [_filter_taxa] uses. *)
Theorem filters_commute
    (df : DataFrame) (min_prevalence min_mean_abundance : Q) :
  well_formed df ->
  (0 <= min_prevalence <= 1)%Q ->
  (0 <= min_mean_abundance)%Q ->
  abundance_filter min_mean_abundance (prevalence_filter min_prevalence df)
  = prevalence_filter min_prevalence
      (abundance_filter min_mean_abundance df).
Proof.
  intros Hwf _ _. unfold abundance_filter, prevalence_filter.
  destruct (Qlt_bool 0 min_prevalence), (Qlt_bool 0 min_mean_abundance);
    try reflexivity.
  rewrite !column_mask_select
    by (try exact Hwf; apply column_mask_length).
  apply select_columns_comm.
Qed.

Lemma filters_commute_witness :
  abundance_filter (1 # 20) (prevalence_filter (1 # 2) filter_demo_table)
  = prevalence_filter (1 # 2) (abundance_filter (1 # 20) filter_demo_table).
Proof.
  apply (filters_commute filter_demo_table (1 # 2) (1 # 20)).
  - split; [reflexivity|]. repeat constructor.
  - split; vm_compute; discriminate.
  - vm_compute; discriminate.
Defined.

Lemma filter_taxa_is_prevalence_then_abundance self df :
  _filter_taxa self df
  = abundance_filter (min_mean_abundance self)
      (prevalence_filter (min_prevalence self) df).
Proof. reflexivity. Qed.

(* ================================================================== *)
(** * Properties of the taxon-name cleaning *)
(* ================================================================== *)

Lemma lstrip_with_id (p : ascii -> bool) (s : string) :
  from_option p false (first_char s) = false -> lstrip_with p s = s.
Proof. destruct s as [|c s]; simpl; [reflexivity|]. intros ->. reflexivity. Qed.

Lemma rstrip_with_id (p : ascii -> bool) (s : string) :
  from_option p false (last_char s) = false -> rstrip_with p s = s.
Proof.
  induction s as [|c s IH]; simpl; [reflexivity|].
  destruct s as [|c' s'].
  - simpl. intros ->. reflexivity.
  - intros H. rewrite (IH H). reflexivity.
Qed.

(** What [rstrip] leaves does not end in a stripped character. *)
Lemma rstrip_with_last (p : ascii -> bool) (s : string) (c : ascii) :
  last_char (rstrip_with p s) = Some c -> p c = false.
Proof.
  induction s as [|a s IH]; simpl; [discriminate|].
  destruct (rstrip_with p s) as [|b r] eqn:E.
  - destruct (p a) eqn:Ea; simpl; [discriminate|].
    intros [= <-]. exact Ea.
  - intros H. apply IH. exact H.
Qed.

(** The last character of a collapsed string is a blank or the last
    character of the string it comes from. *)
Lemma collapse_from_last (b : bool) (s : string) (c : ascii) :
  last_char (collapse_from b s) = Some c ->
  c = " "%char \/ last_char s = Some c.
Proof.
  revert b. induction s as [|a s IH]; intros b; simpl; [discriminate|].
  destruct (py_isspace a).
  - destruct b.
    + intros H. destruct (IH true H) as [Hc|Hc]; [left; exact Hc|].
      right. destruct s; [discriminate | exact Hc].
    + destruct (collapse_from true s) as [|x r] eqn:E.
      * simpl. intros [= <-]. left. reflexivity.
      * intros H. change (last_char (String x r) = Some c) in H.
        rewrite <- E in H.
        destruct (IH true H) as [Hc|Hc]; [left; exact Hc|].
        right. destruct s; [discriminate | exact Hc].
  - destruct (collapse_from false s) as [|x r] eqn:E.
    + simpl. intros [= <-]. right.
      destruct s as [|a' s']; [reflexivity|].
      simpl in E. destruct (py_isspace a'); discriminate.
    + intros H. change (last_char (String x r) = Some c) in H.
      rewrite <- E in H.
      destruct (IH false H) as [Hc|Hc]; [left; exact Hc|].
      right. destruct s; [discriminate | exact Hc].
Qed.

(** Collapsing whitespace runs is idempotent. *)
Lemma collapse_from_idem (b : bool) (s : string) :
  collapse_from b (collapse_from b s) = collapse_from b s.
Proof.
  revert b. induction s as [|a s IH]; intros b; simpl; [reflexivity|].
  destruct (py_isspace a) eqn:Ea.
  - destruct b; [apply IH|].
    simpl. rewrite IH. reflexivity.
  - simpl. rewrite Ea, IH. reflexivity.
Qed.

Lemma strip_rank_prefixes_id (s : string) :
  existsb (startswith s) rank_prefix_values = false ->
  strip_rank_prefixes s = s.
Proof.
  unfold strip_rank_prefixes, rank_prefix_values. simpl.
  intros H. repeat (apply orb_false_elim in H as [? H]).
  repeat match goal with
         | Hp : startswith s _ = false |- _ => rewrite Hp; clear Hp
         end.
  reflexivity.
Qed.

(** C7 (as stated) fails: cleaning ["g__d__X"] gives ["d__X"], because the
    prefix loop has already passed [d__] when [g__] is removed, and
    cleaning ["d__X"] gives ["X"]. *)
Lemma clean_taxon_name_not_idempotent :
  ~ (forall s : string,
        clean_taxon_name (clean_taxon_name s) = clean_taxon_name s).
Proof.
  intros H. specialize (H "g__d__X"). vm_compute in H. discriminate.
Qed.

(** C7 (amended).  Cleaning is idempotent on every name whose cleaned form
    neither starts with a recognised rank prefix nor starts or ends with
    white space: cleaning that cleaned form again returns it unchanged. *)
Theorem clean_taxon_name_idempotent_on_settled (s : string) :
  let c := clean_taxon_name s in
  existsb (startswith c) rank_prefix_values = false ->
  from_option py_isspace false (first_char c) = false ->
  from_option py_isspace false (last_char c) = false ->
  clean_taxon_name c = c.
Proof.
  intros c. subst c.
  set (t := collapse_ws
              (rstrip_with is_underscore
                 (strip_rank_prefixes (strip s)))).
  assert (Hc : clean_taxon_name s
               = if is_empty t || (String.eqb t "" || String.eqb t "__")
                 then "Unclassified" else t) by reflexivity.
  rewrite Hc. clear Hc.
  destruct (is_empty t || (String.eqb t "" || String.eqb t "__")) eqn:Et.
  - intros _ _ _. reflexivity.
  - intros Hpre Hfirst Hlast. unfold clean_taxon_name.
    assert (Hstrip : strip t = t).
    { unfold strip. rewrite (lstrip_with_id _ _ Hfirst).
      apply rstrip_with_id. exact Hlast. }
    rewrite Hstrip, (strip_rank_prefixes_id _ Hpre).
    assert (Hus : rstrip_with is_underscore t = t).
    { apply rstrip_with_id.
      destruct (last_char t) as [c|] eqn:Ec; [|reflexivity].
      simpl. unfold t, collapse_ws in Ec.
      apply collapse_from_last in Ec as [->|Ec]; [reflexivity|].
      apply rstrip_with_last in Ec. exact Ec. }
    rewrite Hus.
    assert (Hcol : collapse_ws t = t).
    { unfold t, collapse_ws. apply collapse_from_idem. }
    rewrite Hcol, Et. reflexivity.
Qed.

Lemma clean_taxon_name_idempotent_on_settled_witness :
  clean_taxon_name (clean_taxon_name "  g__Lactobacillus   iners__ ")
  = clean_taxon_name "  g__Lactobacillus   iners__ ".
Proof.
  apply (clean_taxon_name_idempotent_on_settled
           "  g__Lactobacillus   iners__ "); reflexivity.
Defined.

(* ================================================================== *)
(** * Properties of the beta diversity matrix *)
(* ================================================================== *)

Lemma squareform_entry_sym n condensed i j :
  squareform_entry n condensed i j = squareform_entry n condensed j i.
Proof.
  unfold squareform_entry.
  rewrite (Nat.eqb_sym i j), (Nat.min_comm i j), (Nat.max_comm i j).
  reflexivity.
Qed.

Lemma dist_at_beta (df : DataFrame) (i j : nat) :
  let n := length (values df) in
  dist_at (beta_distance df) i j
  = if bool_decide (i < n)%nat && bool_decide (j < n)%nat
    then Some (squareform_entry n (pdist (values df)) i j)
    else None.
Proof.
  intros n. unfold dist_at, beta_distance, squareform. simpl. fold n.
  rewrite list_lookup_fmap.
  destruct (decide (i < n)%nat) as [Hi|Hi].
  - rewrite (lookup_seq_lt _ _ _ Hi). simpl.
    rewrite list_lookup_fmap.
    rewrite (bool_decide_eq_true_2 _ Hi). simpl.
    destruct (decide (j < n)%nat) as [Hj|Hj].
    + rewrite (lookup_seq_lt _ _ _ Hj), (bool_decide_eq_true_2 _ Hj).
      reflexivity.
    + rewrite (lookup_seq_ge 0 n j) by lia.
      rewrite (bool_decide_eq_false_2 _ Hj). reflexivity.
  - rewrite (lookup_seq_ge 0 n i) by lia.
    rewrite (bool_decide_eq_false_2 _ Hi). reflexivity.
Qed.

(** The matrix is symmetric: [squareform] mirrors the two triangles. *)
Lemma beta_distance_symmetric (df : DataFrame) (i j : nat) :
  dist_at (beta_distance df) i j = dist_at (beta_distance df) j i.
Proof.
  rewrite !dist_at_beta. rewrite squareform_entry_sym.
  rewrite andb_comm. reflexivity.
Qed.

(** The diagonal is zero. *)
Lemma beta_distance_diagonal (df : DataFrame) (i : nat) :
  (i < length (values df))%nat ->
  dist_at (beta_distance df) i i = Some (Fin 0).
Proof.
  intros Hi. rewrite dist_at_beta.
  rewrite (bool_decide_eq_true_2 _ Hi). simpl.
  unfold squareform_entry. rewrite Nat.eqb_refl. reflexivity.
Qed.

Lemma Qsum_abs_nonneg (f : Q -> Q -> Q) (u v : list Q) :
  (0 <= Qsum (zip_with (fun a b => Qabs (f a b)) u v))%Q.
Proof.
  revert v. induction u as [|a u IH]; intros [|b v]; simpl; try lra.
  pose proof (Qabs_nonneg (f a b)). pose proof (IH v). lra.
Qed.

(** A Bray-Curtis value is a non-negative number as soon as its
    denominator [sum |u_i + v_i|] is not zero. *)
Lemma braycurtis_nonneg (u v : list Q) :
  ~ (Qsum (zip_with (fun a b => Qabs (a + b)) u v) == 0)%Q ->
  fval_nonneg_number (braycurtis u v).
Proof.
  intros Hden. unfold braycurtis, fdiv.
  apply Qeq_bool_false in Hden. rewrite Hden. cbn [fval_nonneg_number].
  apply Qeq_bool_false in Hden.
  pose proof (Qsum_abs_nonneg Qminus u v) as Hn.
  pose proof (Qsum_abs_nonneg Qplus u v) as Hd.
  set (den := Qsum (zip_with (fun a b => Qabs (a + b)) u v)) in *.
  assert (Hpos : (0 < den)%Q).
  { destruct (Qlt_le_dec 0 den) as [H|H]; [exact H|].
    exfalso. apply Hden. lra. }
  apply Qle_shift_div_l; [exact Hpos|].
  rewrite Qmult_0_l. exact Hn.
Qed.

(** Two all-zero rows have the distance 0/0. *)
Lemma braycurtis_zero_rows (u v : list Q) :
  Forall (fun x => x = 0%Q) u -> Forall (fun x => x = 0%Q) v ->
  braycurtis u v = NaN.
Proof.
  intros Hu Hv.
  assert (Hs : forall f : Q -> Q -> Q, (f 0 0 == 0)%Q ->
               (Qsum (zip_with (fun a b => Qabs (f a b)) u v) == 0)%Q).
  { intros f Hf. revert v Hv.
    induction Hu as [|a u -> _ IH]; intros v Hv; [reflexivity|].
    destruct Hv as [|b v -> Hv]; [reflexivity|].
    simpl. rewrite (IH v Hv), Hf. reflexivity. }
  unfold braycurtis, fdiv.
  rewrite (proj2 (Qeq_bool_true _ _) (Hs Qplus ltac:(reflexivity))).
  rewrite (proj2 (Qeq_bool_true _ _) (Hs Qminus ltac:(reflexivity))).
  reflexivity.
Qed.

Lemma pdist_length (X : list (list Q)) :
  length (pdist X) = (length X * (length X - 1) / 2)%nat.
Proof.
  induction X as [|u X IH]; [reflexivity|].
  cbn [pdist length]. rewrite length_app, length_map, IH.
  replace (S (length X) - 1)%nat with (length X) by lia.
  destruct (length X) as [|m]; [reflexivity|].
  replace (S (S m) * S m)%nat with (S m * (S m - 1) + S m * 2)%nat by lia.
  rewrite Nat.div_add by lia. lia.
Qed.

Lemma condensed_index_zero (n j : nat) :
  condensed_index n 0 j = (j - 1)%nat.
Proof. unfold condensed_index. simpl. lia. Qed.

Lemma condensed_index_succ (m i j : nat) :
  (i < j)%nat -> (j < m)%nat ->
  condensed_index (S m) (S i) (S j) = (m + condensed_index m i j)%nat.
Proof.
  intros Hij Hjm. unfold condensed_index.
  replace (S i * (S i + 1))%nat with (i * (i + 1) + (i + 1) * 2)%nat by lia.
  rewrite Nat.div_add by lia.
  assert (Hhalf : (i * (i + 1) / 2 <= m * i)%nat).
  { apply Nat.Div0.div_le_upper_bound. nia. }
  nia.
Qed.

(** The condensed vector holds, at the place [squareform] reads for the
    pair [i < j], the distance between row [i] and row [j]. *)
Lemma pdist_lookup (X : list (list Q)) (i j : nat) (u v : list Q) :
  (i < j)%nat -> X !! i = Some u -> X !! j = Some v ->
  pdist X !! condensed_index (length X) i j = Some (braycurtis u v).
Proof.
  revert i j. induction X as [|w X IH]; intros i j Hij Hi Hj;
    [discriminate|].
  cbn [pdist length].
  destruct j as [|j]; [lia|]. simpl in Hj.
  destruct i as [|i].
  - injection Hi as ->. rewrite condensed_index_zero.
    replace (S j - 1)%nat with j by lia.
    rewrite lookup_app_l
      by (rewrite length_map; apply lookup_lt_Some in Hj; exact Hj).
    rewrite list_lookup_fmap, Hj. reflexivity.
  - simpl in Hi.
    rewrite condensed_index_succ
      by (try lia; apply lookup_lt_Some in Hj; exact Hj).
    rewrite lookup_app_r by (rewrite length_map; lia).
    rewrite length_map.
    replace (length X + condensed_index (length X) i j - length X)%nat
      with (condensed_index (length X) i j) by lia.
    apply IH; [lia|assumption..].
Qed.

(** Every off-diagonal entry of the matrix is the Bray-Curtis value of the
    two rows it stands for, the earlier row first. *)
Lemma beta_distance_entry (df : DataFrame) (i j : nat) (u v : list Q) :
  (i < j)%nat -> values df !! i = Some u -> values df !! j = Some v ->
  dist_at (beta_distance df) i j = Some (braycurtis u v)
  /\ dist_at (beta_distance df) j i = Some (braycurtis u v).
Proof.
  intros Hij Hi Hj.
  assert (Hentry : dist_at (beta_distance df) i j
                   = Some (braycurtis u v)).
  { rewrite dist_at_beta.
    rewrite !bool_decide_eq_true_2
      by (eapply lookup_lt_Some; eassumption).
    simpl. unfold squareform_entry.
    replace (i =? j)%nat with false by (symmetry; apply Nat.eqb_neq; lia).
    rewrite Nat.min_l, Nat.max_r by lia.
    rewrite (pdist_lookup _ i j u v Hij Hi Hj). reflexivity. }
  split; [exact Hentry|].
  rewrite beta_distance_symmetric. exact Hentry.
Qed.

(** Wherever two samples have no abundance at all, their entry is NaN. *)
Lemma beta_distance_zero_rows_nan (df : DataFrame) (i j : nat)
    (u v : list Q) :
  (i < j)%nat -> values df !! i = Some u -> values df !! j = Some v ->
  Forall (fun x => x = 0%Q) u -> Forall (fun x => x = 0%Q) v ->
  dist_at (beta_distance df) i j = Some NaN.
Proof.
  intros Hij Hi Hj Hu Hv.
  rewrite (proj1 (beta_distance_entry df i j u v Hij Hi Hj)).
  rewrite (braycurtis_zero_rows u v Hu Hv). reflexivity.
Qed.

(** C6, evaluated where it fails.  The two sample runs, each with a sample
    without reads, harmonise successfully under relative normalisation
    (zero rows are left as zero rows); in the beta diversity matrix of the
    result the entry of the two empty samples is NaN, which is not a
    non-negative number. *)
Theorem beta_distance_nan_for_empty_samples :
  exists h : HarmonisedData,
    harmonise no_log (demo_harmoniser 0) empty_sample_runs = Ok h
    /\ index (aligned_abundance h) = ["A:s1"; "A:s2"; "B:s1"; "B:s2"]
    /\ dist_at (beta_distance (aligned_abundance h)) 0 2 = Some NaN
    /\ ~ fval_nonneg_number NaN.
Proof.
  destruct (harmonise no_log (demo_harmoniser 0) empty_sample_runs)
    as [h|e] eqn:E; [|vm_compute in E; discriminate].
  exists h. split; [reflexivity|].
  vm_compute in E. injection E as <-.
  split; [reflexivity|]. split; [vm_compute; reflexivity|].
  intros H. exact H.
Qed.

Lemma pdist_elements (X : list (list Q)) (d : fval) :
  d ∈ pdist X -> exists u v, u ∈ X /\ v ∈ X /\ d = braycurtis u v.
Proof.
  induction X as [|u X IH]; simpl; intros Hd.
  - inversion Hd.
  - apply elem_of_app in Hd as [Hd|Hd].
    + apply list_elem_of_fmap in Hd as (v & -> & Hv).
      exists u, v. repeat split; [left | right; exact Hv].
    + destruct (IH Hd) as (a & b & Ha & Hb & ->).
      exists a, b. repeat split; right; assumption.
Qed.

(** A Bray-Curtis value is never negative: it is a non-negative number,
    plus infinity, or NaN. *)
Lemma braycurtis_cases (u v : list Q) :
  fval_nonneg_number (braycurtis u v)
  \/ braycurtis u v = PInf \/ braycurtis u v = NaN.
Proof.
  destruct (Qeq_bool (Qsum (zip_with (fun a b => Qabs (a + b)) u v)) 0)
    eqn:E.
  - right. unfold braycurtis, fdiv. rewrite E.
    pose proof (Qsum_abs_nonneg Qminus u v) as Hn.
    set (num := Qsum (zip_with (fun a b => Qabs (a - b)) u v)) in *.
    destruct (Qeq_bool num 0) eqn:En; [right; reflexivity|].
    left. apply Qeq_bool_false in En.
    destruct (Qle_bool num 0) eqn:El; [|reflexivity].
    apply Qle_bool_iff in El. exfalso. apply En. lra.
  - left. apply braycurtis_nonneg. apply Qeq_bool_false. exact E.
Qed.

(* ================================================================== *)
(** * Properties of the grouped permutation test *)
(* ================================================================== *)

Lemma count_ge_le_length (observed : Q) (perm : list Q) :
  (count_ge observed perm <= length perm)%nat.
Proof. unfold count_ge. apply length_filter. Qed.

(** The p-value formula yields a value in (0, 1]. *)
Lemma p_value_formula_range (count total : nat) :
  (count <= total)%nat ->
  (0 < (Qof_nat count + 1) / (Qof_nat total + 1)
   /\ (Qof_nat count + 1) / (Qof_nat total + 1) <= 1)%Q.
Proof.
  intros Hle.
  pose proof (Qof_nat_nonneg count) as Hc.
  pose proof (Qof_nat_nonneg total) as Ht.
  pose proof (Qof_nat_le _ _ Hle) as Hct.
  split.
  - apply Qlt_shift_div_l; lra.
  - apply Qle_shift_div_r; lra.
Qed.

(** C3.  Whenever [_compute_permanova] reports a defined observed pseudo-F
    and at least one permutation gave a defined statistic, the reported
    p-value is [(#{permuted F >= observed F} + 1) / (number of valid
    permutations + 1)], the permutations with an undefined statistic being
    left out of both counts; that value lies in (0, 1]. *)
Theorem permanova_p_value
    (sample_frac1 : nat -> list string -> list string)
    (dist_df : DataFrame) (metadata : Metadata) (group_col : string)
    (n_permutations : nat)
    (f : Q) (p : option Q) (n n_groups : nat) (groups : list string) :
  _compute_permanova sample_frac1 dist_df metadata group_col n_permutations
  = PermanovaStats (Some f) p n n_groups groups ->
  perm_f_values sample_frac1 dist_df metadata group_col n_permutations
  <> [] ->
  let perm :=
    perm_f_values sample_frac1 dist_df metadata group_col n_permutations in
  let q := ((Qof_nat (count_ge f perm) + 1)
            / (Qof_nat (length perm) + 1))%Q in
  p = Some q /\ (0 < q)%Q /\ (q <= 1)%Q.
Proof.
  intros Hres Hvalid perm q. unfold _compute_permanova in Hres.
  destruct (length (common_samples dist_df metadata) <? 3)%nat;
    [discriminate|].
  destruct (length (py_unique _) <? 2)%nat; [discriminate|].
  injection Hres as Hobs Hp _ _ _.
  rewrite Hobs in Hp. fold perm in Hp, Hvalid.
  destruct perm as [|x perm'] eqn:Eperm; [contradiction|].
  split; [symmetry; exact Hp|].
  apply p_value_formula_range, count_ge_le_length.
Qed.

Lemma permanova_p_value_witness :
  _compute_permanova rotate_draw demo_dist demo_metadata "site" 3
  = PermanovaStats (Some (4634247168 # 1433272320))
      (Some ((Qof_nat 2 + 1) / (Qof_nat 3 + 1))%Q) 3 2 ["gut"; "skin"]
  /\ (0 < (Qof_nat 2 + 1) / (Qof_nat 3 + 1) <= 1)%Q.
Proof.
  assert (Hres : _compute_permanova rotate_draw demo_dist demo_metadata
                   "site" 3
                 = PermanovaStats (Some (4634247168 # 1433272320))
                     (Some (3 # 4)) 3 2 ["gut"; "skin"])
    by (vm_compute; reflexivity).
  assert (Hvalid : perm_f_values rotate_draw demo_dist demo_metadata
                     "site" 3 <> [])
    by (vm_compute; discriminate).
  destruct (permanova_p_value rotate_draw demo_dist demo_metadata "site" 3
              _ _ _ _ _ Hres Hvalid) as (Hp & Hlo & Hhi).
  assert (Hcount : count_ge (4634247168 # 1433272320)
                     (perm_f_values rotate_draw demo_dist demo_metadata
                        "site" 3) = 2%nat)
    by (vm_compute; reflexivity).
  assert (Hlen : length (perm_f_values rotate_draw demo_dist demo_metadata
                           "site" 3) = 3%nat)
    by (vm_compute; reflexivity).
  rewrite Hcount, Hlen in Hlo, Hhi.
  split; [|split; assumption].
  vm_compute. reflexivity.
Defined.

(* ================================================================== *)
(** * Properties of sorting by value *)
(* ================================================================== *)

#[global] Instance key_le_total : Total key_le.
Proof.
  intros x y. unfold key_le.
  destruct (Qle_bool x.1 y.1) eqn:E1; [left; exact I|].
  right. apply Is_true_true. apply Qle_bool_iff.
  destruct (Qlt_le_dec x.1 y.1) as [H|H]; [|exact H].
  assert (Hle : (x.1 <= y.1)%Q) by lra.
  apply Qle_bool_iff in Hle. congruence.
Qed.

#[global] Instance key_le_trans : Transitive key_le.
Proof.
  intros x y z. unfold key_le. rewrite !Is_true_true, !Qle_bool_iff.
  intros; lra.
Qed.

Lemma sort_keyed_perm (a : list Q) :
  sort_keyed a ≡ₚ zip a (seq 0 (length a)).
Proof. apply merge_sort_Permutation. Qed.

Lemma sort_keyed_sorted (a : list Q) : StronglySorted key_le (sort_keyed a).
Proof. apply StronglySorted_merge_sort; apply _. Qed.

(** Every pair of the sorted list is a value with its own position. *)
Lemma sort_keyed_elem (a : list Q) (v : Q) (i : nat) :
  (v, i) ∈ sort_keyed a <-> a !! i = Some v.
Proof.
  rewrite sort_keyed_perm. rewrite list_elem_of_lookup. split.
  - intros [k Hk]. apply lookup_zip_with_Some in Hk
      as (x & y & [= -> ->] & Hx & Hy).
    apply lookup_seq in Hy as [-> _]. exact Hx.
  - intros Hi. exists i. apply lookup_zip_with_Some.
    exists v, i. repeat split; [exact Hi|].
    apply lookup_seq. split; [reflexivity|].
    apply lookup_lt_Some in Hi. exact Hi.
Qed.

Lemma argsort_perm (a : list Q) : argsort a ≡ₚ seq 0 (length a).
Proof.
  unfold argsort. rewrite sort_keyed_perm.
  rewrite snd_zip; [reflexivity|]. rewrite length_seq. reflexivity.
Qed.

Lemma argsort_length (a : list Q) : length (argsort a) = length a.
Proof. rewrite argsort_perm. apply length_seq. Qed.

Lemma argsort_NoDup (a : list Q) : NoDup (argsort a).
Proof. rewrite argsort_perm. apply NoDup_seq. Qed.

(** [a[np.argsort(a)]] is the list of the sorted values. *)
Lemma take_at_argsort (a : list Q) :
  take_at 0%Q a (argsort a) = (sort_keyed a).*1.
Proof.
  unfold take_at, argsort.
  rewrite <- list_fmap_compose.
  apply list_fmap_ext. intros k [v i] Hk. simpl.
  apply list_elem_of_lookup_2, sort_keyed_elem in Hk. rewrite Hk.
  reflexivity.
Qed.

Lemma sorted_values_perm (a : list Q) : (sort_keyed a).*1 ≡ₚ a.
Proof.
  rewrite sort_keyed_perm. rewrite fst_zip; [reflexivity|].
  rewrite length_seq. reflexivity.
Qed.

Lemma sorted_values_sorted (a : list Q) :
  StronglySorted Qle ((sort_keyed a).*1).
Proof.
  apply (StronglySorted_fmap fst key_le Qle); [|apply sort_keyed_sorted].
  intros x y. unfold key_le. rewrite Is_true_true, Qle_bool_iff. tauto.
Qed.

Lemma StronglySorted_lookup_lt {A} (R : relation A) (l : list A)
    (i j : nat) (x y : A) :
  StronglySorted R l -> l !! i = Some x -> l !! j = Some y ->
  (i < j)%nat -> R x y.
Proof.
  intros Hs. revert i j.
  induction Hs as [|a l Hs IH Hall]; intros i j Hi Hj Hlt.
  - discriminate.
  - destruct j as [|j]; [lia|]. simpl in Hj.
    destruct i as [|i].
    + injection Hi as <-.
      rewrite Forall_forall in Hall. apply Hall.
      eapply list_elem_of_lookup_2. exact Hj.
    + simpl in Hi. apply (IH i j); [assumption..|lia].
Qed.

(* ================================================================== *)
(** * Properties of the false discovery rate block *)
(* ================================================================== *)

Lemma Qmin_bool_le_l (a b : Q) : (Qmin_bool a b <= a)%Q.
Proof.
  unfold Qmin_bool. destruct (Qle_bool a b) eqn:E; [lra|].
  destruct (Qlt_le_dec a b) as [H|H]; [|exact H].
  assert (Hle : (a <= b)%Q) by lra.
  apply Qle_bool_iff in Hle. congruence.
Qed.

Lemma Qmin_bool_le_r (a b : Q) : (Qmin_bool a b <= b)%Q.
Proof.
  unfold Qmin_bool. destruct (Qle_bool a b) eqn:E; [|lra].
  apply Qle_bool_iff. exact E.
Qed.

Lemma suffix_min_length (l : list Q) : length (suffix_min l) = length l.
Proof.
  induction l as [|x l IH]; simpl; [reflexivity|].
  destruct (suffix_min l) as [|m ms]; simpl in *; lia.
Qed.

(** The running minimum taken from the right is ascending from the left. *)
Lemma suffix_min_sorted (l : list Q) : StronglySorted Qle (suffix_min l).
Proof.
  induction l as [|x l IH]; simpl; [constructor|].
  destruct (suffix_min l) as [|m ms]; [repeat constructor|].
  constructor; [exact IH|].
  apply StronglySorted_cons in IH as [Hall _].
  constructor; [apply Qmin_bool_le_r|].
  eapply Forall_impl; [exact Hall|].
  intros y Hy. pose proof (Qmin_bool_le_r x m). simpl. lra.
Qed.

Lemma scatter_fold_length (ivs : list (nat * Q)) (out : list Q) :
  length (fold_left scatter_step ivs out) = length out.
Proof.
  revert out. induction ivs as [|iv ivs IH]; intros out; simpl;
    [reflexivity|].
  rewrite IH. apply length_insert.
Qed.

(** Positions that are not written keep their value. *)
Lemma scatter_fold_other (idx : list nat) (vals out : list Q) (i : nat) :
  i ∉ idx ->
  fold_left scatter_step (zip idx vals) out !! i = out !! i.
Proof.
  revert vals out. induction idx as [|i0 idx IH]; intros vals out Hni;
    [reflexivity|].
  destruct vals as [|v0 vals]; [reflexivity|]. simpl.
  apply not_elem_of_cons in Hni as [Hne Hni].
  rewrite (IH _ _ Hni). unfold scatter_step. simpl.
  apply list_lookup_insert_ne. congruence.
Qed.

(** With distinct positions, the [k]-th write is what is read back. *)
Lemma scatter_fold_lookup (idx : list nat) (vals out : list Q)
    (k i : nat) (v : Q) :
  NoDup idx -> idx !! k = Some i -> vals !! k = Some v ->
  (i < length out)%nat ->
  fold_left scatter_step (zip idx vals) out !! i = Some v.
Proof.
  revert vals out k.
  induction idx as [|i0 idx IH]; intros vals out k Hnd Hi Hv Hlen;
    [discriminate|].
  destruct vals as [|v0 vals]; [discriminate|].
  apply NoDup_cons in Hnd as [Hni Hnd]. simpl.
  destruct k as [|k]; simpl in Hi, Hv.
  - injection Hi as ->. injection Hv as ->.
    rewrite (scatter_fold_other _ _ _ _ Hni). unfold scatter_step. simpl.
    apply list_lookup_insert_eq. exact Hlen.
  - apply (IH vals _ k); try assumption.
    unfold scatter_step. rewrite length_insert. exact Hlen.
Qed.

Lemma scatter_lookup (n : nat) (idx : list nat) (vals : list Q)
    (k i : nat) (v : Q) :
  NoDup idx -> idx !! k = Some i -> vals !! k = Some v -> (i < n)%nat ->
  scatter n idx vals !! i = Some v.
Proof.
  intros Hnd Hi Hv Hlt. unfold scatter.
  apply (scatter_fold_lookup idx vals _ k); try assumption.
  rewrite length_replicate. exact Hlt.
Qed.

(** C4.  The corrected values keep the order of the raw p-values: of two
    taxa, the one with the smaller raw p-value has a false discovery rate
    value less than or equal to the other's. *)
Theorem fdr_monotone_in_p (p_values : list Q) (i j : nat) (pi pj : Q) :
  p_values !! i = Some pi ->
  p_values !! j = Some pj ->
  (pi < pj)%Q ->
  exists fi fj : Q,
    fdr_correction p_values !! i = Some fi
    /\ fdr_correction p_values !! j = Some fj
    /\ (fi <= fj)%Q.
Proof.
  intros Hi Hj Hlt.
  set (S := sort_keyed p_values).
  set (n := length p_values).
  set (raw := imap (fun k p => (p * Qof_nat n / (Qof_nat k + 1))%Q)
                   (S.*1)).
  assert (Hfdr : fdr_correction p_values
                 = scatter n (argsort p_values) (suffix_min raw)).
  { unfold fdr_correction. rewrite take_at_argsort. reflexivity. }
  (* the places of the two taxa in the sorted order *)
  assert (Hplace : forall t pt, p_values !! t = Some pt ->
            exists k, S !! k = Some (pt, t)).
  { intros t pt Ht. apply list_elem_of_lookup, sort_keyed_elem. exact Ht. }
  destruct (Hplace i pi Hi) as [ki Hki].
  destruct (Hplace j pj Hj) as [kj Hkj].
  assert (Hkk : (ki < kj)%nat).
  { destruct (Nat.lt_trichotomy ki kj) as [H|[H|H]]; [exact H| |].
    - subst kj. rewrite Hki in Hkj. injection Hkj as Hp _.
      rewrite Hp in Hlt. apply Qlt_irrefl in Hlt. contradiction.
    - exfalso.
      pose proof (StronglySorted_lookup_lt key_le S kj ki _ _
                    (sort_keyed_sorted p_values) Hkj Hki H) as Hle.
      unfold key_le in Hle. simpl in Hle.
      apply Is_true_true, Qle_bool_iff in Hle. lra. }
  (* the corrected values at these places *)
  assert (Hlen : length (suffix_min raw) = length S).
  { rewrite suffix_min_length. unfold raw.
    rewrite length_imap, length_fmap. reflexivity. }
  assert (Hval : forall k x, S !! k = Some x ->
            exists f, suffix_min raw !! k = Some f).
  { intros k x Hk. apply lookup_lt_is_Some. rewrite Hlen.
    apply lookup_lt_Some in Hk. exact Hk. }
  destruct (Hval ki _ Hki) as [fi Hfi].
  destruct (Hval kj _ Hkj) as [fj Hfj].
  assert (Hidx : forall k v t, S !! k = Some (v, t) ->
            argsort p_values !! k = Some t).
  { intros k v t Hk. unfold argsort. fold S.
    rewrite list_lookup_fmap, Hk. reflexivity. }
  exists fi, fj. rewrite Hfdr. repeat split.
  - apply (scatter_lookup n _ _ ki); [apply argsort_NoDup| | |].
    + eapply Hidx. exact Hki.
    + exact Hfi.
    + apply lookup_lt_Some in Hi. exact Hi.
  - apply (scatter_lookup n _ _ kj); [apply argsort_NoDup| | |].
    + eapply Hidx. exact Hkj.
    + exact Hfj.
    + apply lookup_lt_Some in Hj. exact Hj.
  - apply (StronglySorted_lookup_lt Qle (suffix_min raw) ki kj);
      [apply suffix_min_sorted|assumption..].
Qed.

Lemma fdr_monotone_in_p_witness :
  exists fi fj : Q,
    fdr_correction [4 # 100; 1 # 100; 3 # 100; 5 # 1000]%Q !! 3%nat
    = Some fi
    /\ fdr_correction [4 # 100; 1 # 100; 3 # 100; 5 # 1000]%Q !! 0%nat
       = Some fj
    /\ (fi <= fj)%Q.
Proof.
  apply (fdr_monotone_in_p [4 # 100; 1 # 100; 3 # 100; 5 # 1000]%Q
           3 0 (5 # 1000) (4 # 100)).
  - reflexivity.
  - reflexivity.
  - vm_compute. reflexivity.
Defined.

(* ================================================================== *)
(** * Properties of the alpha diversity table *)
(* ================================================================== *)

Section AlphaProperties.

Import Alpha.
Local Open Scope R_scope.

Lemma positive_part_pos (row : list R) (x : R) :
  x ∈ positive_part row -> 0 < x.
Proof.
  unfold positive_part. intros H.
  apply list_elem_of_filter in H as [H _]. exact H.
Qed.

Lemma rdiv_zero_zero (a b : R) : a = 0 -> b = 0 -> rdiv a b = RNaN.
Proof.
  intros -> ->. unfold rdiv.
  destruct (Req_dec_T 0 0) as [_|Hne]; [reflexivity|].
  exfalso. apply Hne. reflexivity.
Qed.

(** With at most one positive entry the Shannon index is 0. *)
Lemma shannon_poor (row : list R) :
  (observed_taxa row <= 1)%nat -> shannon row = 0.
Proof.
  unfold observed_taxa, shannon. intros Hobs.
  pose proof (positive_part_pos row) as Hpos.
  destruct (positive_part row) as [|x [|y rest]]; simpl in *.
  - reflexivity.
  - assert (Hx : 0 < x) by (apply Hpos; left).
    replace (x / (x + 0)) with 1 by (field; Lra.lra).
    rewrite ln_1. Lra.lra.
  - lia.
Qed.

(** ... and the logarithm in the denominator is [ln 1 = 0]. *)
Lemma pielou_evenness_poor (row : list R) :
  (observed_taxa row <= 1)%nat -> pielou_evenness row = RNaN.
Proof.
  intros Hobs. unfold pielou_evenness.
  apply rdiv_zero_zero; [apply shannon_poor; exact Hobs|].
  destruct (observed_taxa row) as [|[|k]] eqn:E; simpl; try lia;
    apply ln_1.
Qed.

(** The positive entries are among the non-zero entries. *)
Lemma observed_le_nonzero (row : list Q) :
  (observed_taxa (map Q2R row) <= count_nonzero row)%nat.
Proof.
  unfold observed_taxa, positive_part, count_nonzero.
  induction row as [|x row IH]; simpl; [lia|].
  rewrite !filter_cons.
  destruct (decide (0 < Q2R x)) as [Hx|Hx].
  - destruct (decide (Is_true (negb (Qeq_bool x 0)))) as [Hn|Hn].
    + simpl. simpl in IH. lia.
    + exfalso. apply Hn. apply Is_true_true, negb_true_iff.
      apply Qeq_bool_false. intros Heq. apply Qeq_eqR in Heq.
      rewrite Heq in Hx. change (Q2R 0) with (0 * / 1) in Hx. Lra.lra.
  - destruct (decide (Is_true (negb (Qeq_bool x 0)))); simpl;
      simpl in IH; lia.
Qed.

(** C10.  For every sample row of the matrix whose richness is 0 or 1,
    counted as the non-zero entries or, as the table does, as the
    positive entries, the Pielou evenness in the alpha diversity table is
    NaN: the Shannon index of the row is 0 and so is the logarithm that
    divides it. *)
Theorem pielou_nan_when_richness_at_most_one
    (df : DataFrame) (run_labels : list string) (i : nat)
    (row : list Q) (a : AlphaRow) :
  _compute_alpha_diversity df run_labels !! i = Some a ->
  values df !! i = Some row ->
  (count_nonzero row <= 1)%nat \/ (a_observed_taxa a <= 1)%nat ->
  a_pielou_evenness a = RNaN /\ a_shannon a = 0
  /\ ln (INR (if (a_observed_taxa a =? 0)%nat then 1%nat
              else a_observed_taxa a)) = 0.
Proof.
  intros Ha Hrow Hrich. unfold _compute_alpha_diversity in Ha.
  rewrite list_lookup_imap in Ha.
  destruct (zip (index df) (values df) !! i) as [[s r]|] eqn:Ez;
    [|discriminate].
  injection Ha as <-. simpl in *.
  apply lookup_zip_with_Some in Ez as (s' & r' & [= -> ->] & _ & Hr).
  rewrite Hrow in Hr. injection Hr as <-.
  assert (Hobs : (observed_taxa (map Q2R row) <= 1)%nat).
  { destruct Hrich as [Hnz|Hobs]; [|exact Hobs].
    pose proof (observed_le_nonzero row). lia. }
  repeat split.
  - apply pielou_evenness_poor. exact Hobs.
  - apply shannon_poor. exact Hobs.
  - destruct (observed_taxa (map Q2R row)) as [|[|k]]; simpl; try lia;
      apply ln_1.
Qed.

Lemma pielou_nan_when_richness_at_most_one_witness :
  a_pielou_evenness
    (alpha_of_row "A:s2"%string "A"%string (map Q2R [0; 1]%Q))
  = RNaN.
Proof.
  apply (pielou_nan_when_richness_at_most_one
           (mkDF ["A:s1"; "A:s2"]%string ["X"; "Y"]%string
                 [[0; 0]; [0; 1]]%Q)
           ["A"; "A"]%string 1 [0; 1]%Q
           (alpha_of_row "A:s2"%string "A"%string (map Q2R [0; 1]%Q))).
  - reflexivity.
  - reflexivity.
  - left. vm_compute. lia.
Defined.

End AlphaProperties.

(* ================================================================== *)
(** * Properties of the ordination *)
(* ================================================================== *)

(** ** The double-centred matrix annihilates the all-ones vector *)

Lemma Qof_nat_S (n : nat) : (Qof_nat (S n) == Qof_nat n + 1)%Q.
Proof.
  unfold Qof_nat. rewrite Nat2Z.inj_succ. unfold Z.succ.
  rewrite inject_Z_plus. reflexivity.
Qed.

Lemma Qsum_zeros (l : list Q) :
  Forall (fun x => (x == 0)%Q) l -> (Qsum l == 0)%Q.
Proof.
  induction 1 as [|x l Hx _ IH]; simpl; [reflexivity|].
  rewrite Hx, IH. reflexivity.
Qed.

Lemma dot_nil_l (v : list Q) : dot [] v = 0%Q.
Proof. reflexivity. Qed.

Lemma dot_zeros (r v : list Q) :
  Forall (fun x => (x == 0)%Q) v -> (dot r v == 0)%Q.
Proof.
  intros Hv. revert r. induction Hv as [|x v Hx _ IH]; intros [|a r];
    try reflexivity.
  unfold dot in *. simpl. rewrite Hx, IH. ring.
Qed.

Lemma dot_ones (b : list Q) (n : nat) :
  length b = n -> (dot b (replicate n 1%Q) == Qsum b)%Q.
Proof.
  intros <-. induction b as [|x b IH]; [reflexivity|].
  unfold dot in *. simpl. rewrite IH. ring.
Qed.

(** One row of the centring matrix: its sum over the columns [s .. s+n-1]. *)
Lemma centering_row_sum_from (c : Q) (i s n : nat) :
  (Qsum (map (fun j => (if (i =? j)%nat then 1 else 0) - c) (seq s n))
   == (if (s <=? i)%nat && (i <? s + n)%nat then 1 else 0)
      - Qof_nat n * c)%Q.
Proof.
  revert s. induction n as [|n IH]; intros s.
  - simpl. destruct (s <=? i)%nat eqn:E1, (i <? s + 0)%nat eqn:E2;
      simpl; try (unfold Qof_nat; simpl; ring).
    apply Nat.leb_le in E1. apply Nat.ltb_lt in E2. lia.
  - cbn [seq map Qsum fold_right]. fold (Qsum). 
    change (fold_right Qplus 0%Q ?l) with (Qsum l).
    rewrite IH, Qof_nat_S.
    destruct (i =? s)%nat eqn:Eis.
    + apply Nat.eqb_eq in Eis. subst s.
      replace (S i <=? i)%nat with false
        by (symmetry; apply Nat.leb_gt; lia).
      replace (i <=? i)%nat with true by (symmetry; apply Nat.leb_le; lia).
      replace (i <? i + S n)%nat with true
        by (symmetry; apply Nat.ltb_lt; lia).
      simpl. ring.
    + apply Nat.eqb_neq in Eis.
      destruct (s <=? i)%nat eqn:E1.
      * apply Nat.leb_le in E1.
        replace (S s <=? i)%nat with true
          by (symmetry; apply Nat.leb_le; lia).
        replace (i <? S s + n)%nat with (i <? s + S n)%nat
          by (f_equal; lia).
        simpl. ring.
      * apply Nat.leb_gt in E1.
        replace (S s <=? i)%nat with false
          by (symmetry; apply Nat.leb_gt; lia).
        simpl. ring.
Qed.

Lemma centering_rows_sum_zero (n : nat) :
  Forall (fun x => (x == 0)%Q) (map Qsum (centering n)).
Proof.
  unfold centering. rewrite Forall_fmap, Forall_fmap.
  apply Forall_forall. intros i Hi. simpl.
  apply elem_of_seq in Hi as [_ Hi]. simpl in Hi.
  rewrite centering_row_sum_from.
  replace (0 <=? i)%nat with true by reflexivity.
  replace (i <? 0 + n)%nat with true by (symmetry; apply Nat.ltb_lt; lia).
  simpl.
  assert (Hn : ~ (Qof_nat n == 0)%Q).
  { unfold Qof_nat. intros H. unfold Qeq in H. simpl in H. lia. }
  field. exact Hn.
Qed.

Lemma centering_row_lengths (n : nat) :
  Forall (fun row => length row = n) (centering n).
Proof.
  unfold centering. rewrite Forall_fmap. apply Forall_forall.
  intros i _. simpl. rewrite length_map, length_seq. reflexivity.
Qed.

Lemma col_vectors_nil (m : nat) : col_vectors m [] = replicate m [].
Proof. induction m as [|m IH]; simpl; [|rewrite IH]; reflexivity. Qed.

Lemma col_vectors_cons (m : nat) (row : list Q) (C : list (list Q)) :
  length row = m ->
  col_vectors m (row :: C) = zip_with cons row (col_vectors m C).
Proof.
  revert row C. induction m as [|m IH]; intros row C Hlen.
  - destruct row; [reflexivity | discriminate].
  - destruct row as [|a row]; [discriminate|].
    injection Hlen as Hlen. simpl. rewrite (IH row _ Hlen). reflexivity.
Qed.

Lemma dot_cons_columns (x : Q) (r row : list Q) (cols : list (list Q)) :
  length row = length cols ->
  (Qsum (map (dot (x :: r)) (zip_with cons row cols))
   == x * Qsum row + Qsum (map (dot r) cols))%Q.
Proof.
  revert cols. induction row as [|a row IH]; intros [|col cols] Hlen;
    try discriminate.
  - simpl. ring.
  - injection Hlen as Hlen. simpl. rewrite (IH cols Hlen).
    unfold dot. simpl. ring.
Qed.

(** Summing the entries of [r @ C] is [r] applied to the row sums of [C]. *)
Lemma dot_columns_sum (m : nat) (C : list (list Q)) (r : list Q) :
  Forall (fun row => length row = m) C ->
  (Qsum (map (dot r) (col_vectors m C)) == dot r (map Qsum C))%Q.
Proof.
  intros HC. revert r. induction HC as [|row C Hrow _ IH]; intros r.
  - rewrite col_vectors_nil. simpl.
    replace (dot r []) with 0%Q by (destruct r; reflexivity).
    apply Qsum_zeros. rewrite Forall_fmap. apply Forall_forall.
    intros c Hc. apply elem_of_replicate in Hc as [-> _]. simpl.
    destruct r; reflexivity.
  - destruct r as [|x r].
    + simpl. apply Qsum_zeros. rewrite Forall_fmap. apply Forall_forall.
      intros c _. reflexivity.
    + rewrite (col_vectors_cons m row C Hrow).
      rewrite dot_cons_columns
        by (rewrite col_vectors_length; exact Hrow).
      rewrite IH. unfold dot. simpl. reflexivity.
Qed.

(** Every row of the double-centred matrix sums to zero. *)
Lemma double_centre_rows_sum_zero (D : list (list Q)) :
  Forall (fun row => (Qsum row == 0)%Q) (double_centre D).
Proof.
  unfold double_centre, matmul at 1.
  rewrite Forall_fmap. apply Forall_forall. intros r _. simpl.
  rewrite (dot_columns_sum _ _ r (centering_row_lengths _)).
  apply dot_zeros, centering_rows_sum_zero.
Qed.

Lemma double_centre_length (D : list (list Q)) :
  length (double_centre D) = length D.
Proof.
  unfold double_centre, matmul, mat_scale, centering.
  rewrite !length_map, length_seq. reflexivity.
Qed.

Lemma double_centre_row_lengths (D : list (list Q)) :
  Forall (fun row => length row = length D) (double_centre D).
Proof.
  unfold double_centre, matmul at 1. rewrite Forall_fmap.
  apply Forall_forall. intros r _. simpl.
  rewrite length_map, col_vectors_length. reflexivity.
Qed.

(** The all-ones vector is an eigenvector of the double-centred matrix for
    the eigenvalue 0. *)
Lemma double_centre_zero_eigenpair (D : list (list Q)) :
  (0 < length D)%nat ->
  is_eigenpair (double_centre D) 0 (replicate (length D) 1%Q).
Proof.
  intros Hn. unfold is_eigenpair. repeat split.
  - rewrite length_replicate, double_centre_length. reflexivity.
  - destruct (length D) as [|n]; [lia|]. simpl. left. discriminate.
  - unfold mat_vec. apply Forall2_fmap_l.
    apply Forall2_same_length_lookup. split.
    + rewrite length_replicate. apply double_centre_length.
    + intros i b x Hb Hx. apply lookup_replicate in Hx as [-> _].
      apply list_elem_of_lookup_2 in Hb.
      pose proof (double_centre_rows_sum_zero D) as Hs.
      pose proof (double_centre_row_lengths D) as Hl.
      rewrite Forall_forall in Hs, Hl. unfold compose.
      rewrite (dot_ones b _ (Hl b Hb)), (Hs b Hb). ring.
Qed.

(** ** Sorted eigenvalues *)

Lemma Qmax0_nonneg (x : Q) : (0 <= Qmax0 x)%Q.
Proof.
  unfold Qmax0. destruct (Qle_bool x 0) eqn:E; [lra|].
  destruct (Qlt_le_dec 0 x) as [H|H]; [lra|].
  apply Qle_bool_iff in H. congruence.
Qed.

Lemma Qmax0_ge (x : Q) : (x <= Qmax0 x)%Q.
Proof.
  unfold Qmax0. destruct (Qle_bool x 0) eqn:E; [|lra].
  apply Qle_bool_iff in E. exact E.
Qed.

Lemma Qmax0_nonpos (x : Q) : (x <= 0)%Q -> Qmax0 x = 0%Q.
Proof.
  intros H. unfold Qmax0. apply Qle_bool_iff in H. rewrite H. reflexivity.
Qed.

Lemma Qsum_max0_nonneg (l : list Q) : (0 <= Qsum (map Qmax0 l))%Q.
Proof.
  induction l as [|x l IH]; simpl; [lra|].
  pose proof (Qmax0_nonneg x). lra.
Qed.

Lemma Qsum_max0_ge (l : list Q) (e : Q) :
  e ∈ l -> (e <= Qsum (map Qmax0 l))%Q.
Proof.
  induction l as [|x l IH]; intros He; [inversion He|].
  simpl. pose proof (Qsum_max0_nonneg l). pose proof (Qmax0_nonneg x).
  apply elem_of_cons in He as [->|He].
  - pose proof (Qmax0_ge x). lra.
  - specialize (IH He). lra.
Qed.

Lemma Qsum_max0_nonpos (l : list Q) :
  Forall (fun x => (x <= 0)%Q) l -> (Qsum (map Qmax0 l) == 0)%Q.
Proof.
  induction 1 as [|x l Hx _ IH]; simpl; [reflexivity|].
  rewrite (Qmax0_nonpos x Hx), IH. reflexivity.
Qed.

Lemma take_at_reverse {A} (d : A) (a : list A) (idx : list nat) :
  take_at d a (reverse idx) = reverse (take_at d a idx).
Proof. unfold take_at. apply fmap_reverse. Qed.

Lemma StronglySorted_reverse_flip {A} (R : relation A) (l : list A) :
  StronglySorted R l -> StronglySorted (flip R) (reverse l).
Proof.
  induction 1 as [|x l Hs IH Hall]; [constructor|].
  rewrite reverse_cons. apply StronglySorted_app. repeat split.
  - intros y z Hy Hz. apply list_elem_of_singleton in Hz as ->.
    rewrite elem_of_reverse in Hy. rewrite Forall_forall in Hall.
    apply Hall. exact Hy.
  - exact IH.
  - repeat constructor.
Qed.

Lemma sorted_eigvals_perm (eigvals : list Q) :
  sorted_eigvals eigvals ≡ₚ eigvals.
Proof.
  unfold sorted_eigvals.
  rewrite take_at_reverse, take_at_argsort, reverse_Permutation.
  apply sorted_values_perm.
Qed.

Lemma sorted_eigvals_descending (eigvals : list Q) :
  StronglySorted (flip Qle) (sorted_eigvals eigvals).
Proof.
  unfold sorted_eigvals. rewrite take_at_reverse, take_at_argsort.
  apply StronglySorted_reverse_flip, sorted_values_sorted.
Qed.

(** In a descending list that contains a zero and whose positive part has
    a positive sum, the two leading entries are not negative. *)
Lemma leading_two_nonneg (d : list Q) (e : Q) :
  StronglySorted (flip Qle) d ->
  Exists (fun x => (x == 0)%Q) d ->
  (0 < Qsum (map Qmax0 d))%Q ->
  e ∈ take 2 d -> (0 <= e)%Q.
Proof.
  intros Hs Hz Htot He.
  destruct d as [|e0 rest]; [inversion Hz|].
  apply StronglySorted_cons in Hs as [Hall0 Hs].
  rewrite Forall_forall in Hall0. unfold flip in Hall0.
  assert (H0 : (0 <= e0)%Q).
  { apply Exists_cons in Hz as [Hz|Hz]; [lra|].
    apply Exists_exists in Hz as (z & Hzin & Hz0).
    specialize (Hall0 z Hzin). lra. }
  simpl in He. apply elem_of_cons in He as [->|He]; [exact H0|].
  destruct rest as [|e1 rest']; [inversion He|].
  simpl in He. apply list_elem_of_singleton in He as ->.
  destruct (Qlt_le_dec e1 0) as [Hneg|Hpos]; [|exact Hpos].
  exfalso.
  apply StronglySorted_cons in Hs as [Hall1 _].
  rewrite Forall_forall in Hall1. unfold flip in Hall1.
  assert (Hrest : Forall (fun x => (x <= 0)%Q) (e1 :: rest')).
  { constructor; [lra|]. apply Forall_forall. intros y Hy.
    specialize (Hall1 y Hy). lra. }
  assert (He0 : (e0 == 0)%Q).
  { apply Exists_cons in Hz as [Hz|Hz]; [exact Hz|].
    apply Exists_exists in Hz as (z & Hzin & Hz0).
    apply elem_of_cons in Hzin as [->|Hzin]; [lra|].
    specialize (Hall1 z Hzin). lra. }
  change (map Qmax0 (e0 :: e1 :: rest'))
    with (Qmax0 e0 :: map Qmax0 (e1 :: rest')) in Htot.
  change (Qsum (?x :: ?l)) with (x + Qsum l)%Q in Htot.
  rewrite (Qsum_max0_nonpos _ Hrest) in Htot.
  rewrite (Qmax0_nonpos e0) in Htot; lra.
Qed.

Lemma var_explained_bounds (eigvals : list Q) :
  (eigvals = [] \/ Exists (fun x => (x == 0)%Q) eigvals) ->
  let ve := var_explained eigvals 2 in
  Forall (fun v => (0 <= v)%Q /\ (v <= 1)%Q) ve
  /\ forall (k : nat) (top later : Q),
       ve !! 0%nat = Some top -> ve !! k = Some later -> (later <= top)%Q.
Proof.
  intros Hz ve. subst ve. unfold var_explained.
  set (d := sorted_eigvals eigvals).
  set (total := Qsum (map Qmax0 d)).
  destruct (Qlt_bool 0 total) eqn:Etot.
  - apply Qlt_bool_true in Etot.
    assert (Hzd : Exists (fun x => (x == 0)%Q) d).
    { destruct Hz as [->|Hz].
      - exfalso. vm_compute in Etot. discriminate.
      - unfold d. rewrite sorted_eigvals_perm. exact Hz. }
    pose proof (sorted_eigvals_descending eigvals) as Hs. fold d in Hs.
    split.
    + rewrite Forall_fmap. apply Forall_forall. intros e He. simpl.
      pose proof (leading_two_nonneg d e Hs Hzd Etot He) as H0.
      assert (Hin : e ∈ d).
      { apply list_elem_of_lookup in He as [i Hi].
        apply lookup_take_Some in Hi as [Hi _].
        eapply list_elem_of_lookup_2. exact Hi. }
      pose proof (Qsum_max0_ge d e Hin) as Hle. fold total in Hle.
      split.
      * apply Qle_shift_div_l; [exact Etot|]. lra.
      * apply Qle_shift_div_r; [exact Etot|]. lra.
    + intros k top later Htop Hlater.
      rewrite list_lookup_fmap in Htop, Hlater.
      destruct (take 2 d !! 0%nat) as [e0|] eqn:E0; [|discriminate].
      destruct (take 2 d !! k) as [ek|] eqn:Ek; [|discriminate].
      injection Htop as <-. injection Hlater as <-.
      assert (Hord : (ek <= e0)%Q).
      { destruct k as [|k].
        - rewrite E0 in Ek. injection Ek as ->. lra.
        - apply lookup_take_Some in E0 as [E0 _].
          apply lookup_take_Some in Ek as [Ek _].
          apply (StronglySorted_lookup_lt (flip Qle) d 0 (S k) e0 ek Hs
                   E0 Ek).
          lia. }
      apply Qle_shift_div_l; [exact Etot|].
      unfold Qdiv. rewrite <- Qmult_assoc, (Qmult_comm (/ total)).
      rewrite Qmult_inv_r by lra. lra.
  - simpl. split.
    + repeat constructor; vm_compute; discriminate.
    + intros k top later [= <-] Hlater.
      destruct k as [|[|k]]; simpl in Hlater; try discriminate;
        injection Hlater as <-; lra.
Qed.

(** Whatever [np.linalg.eigh] returns and however many components are
    asked for, no variance-explained value exceeds 1 and the values come
    in descending order: each is an eigenvalue over the sum of the
    eigenvalues clamped at 0. *)
Lemma var_explained_upper_and_order (eigvals : list Q) (n_components : nat) :
  Forall (fun v => (v <= 1)%Q) (var_explained eigvals n_components)
  /\ StronglySorted (flip Qle) (var_explained eigvals n_components).
Proof.
  unfold var_explained.
  set (d := sorted_eigvals eigvals).
  set (total := Qsum (map Qmax0 d)).
  destruct (Qlt_bool 0 total) eqn:Etot.
  - apply Qlt_bool_true in Etot.
    pose proof (sorted_eigvals_descending eigvals) as Hs. fold d in Hs.
    split.
    + rewrite Forall_fmap. apply Forall_forall. intros e He. simpl.
      assert (Hin : e ∈ d).
      { apply list_elem_of_lookup in He as [i Hi].
        apply lookup_take_Some in Hi as [Hi _].
        eapply list_elem_of_lookup_2. exact Hi. }
      pose proof (Qsum_max0_ge d e Hin) as Hle. fold total in Hle.
      apply Qle_shift_div_r; [exact Etot|]. lra.
    + rewrite <- (take_drop n_components d) in Hs.
      apply StronglySorted_app_1_l in Hs.
      apply (StronglySorted_fmap _ (flip Qle) (flip Qle)); [|exact Hs].
      intros x y Hxy. unfold flip in *.
      apply Qle_shift_div_l; [exact Etot|].
      unfold Qdiv. rewrite <- Qmult_assoc, (Qmult_comm (/ total)).
      rewrite Qmult_inv_r by lra. lra.
  - split.
    + apply Forall_replicate. vm_compute. discriminate.
    + induction n_components as [|k IH]; simpl; constructor; [exact IH|].
      apply Forall_replicate. unfold flip. lra.
Qed.

(** With the exact spectrum of the double-centred matrix, which always
    holds the eigenvalue 0 of the all-ones vector, the two values of the
    default call [n_components = 2] are not negative either. *)
Lemma pcoa_exact_spectrum_two_components
    (eigh : list (list Q) -> list Q * list (list Q)) (sqrt : Q -> Q)
    (labels : list string) (D : list (list Q)) (p : PCoA) :
  eigh_complete (double_centre D) (eigh (double_centre D)).1 ->
  _pcoa eigh sqrt labels D 2 = Ok p ->
  Forall (fun v => (0 <= v)%Q /\ (v <= 1)%Q) (variance_explained p).
Proof.
  intros [Hlen Hcomplete] Hp.
  assert (Hve : variance_explained p
                = var_explained (eigh (double_centre D)).1 2).
  { unfold _pcoa in Hp. destruct (eigh (double_centre D)).
    destruct (length D <? 2)%nat; [discriminate|].
    injection Hp as <-. reflexivity. }
  rewrite Hve. apply var_explained_bounds.
  rewrite double_centre_length in Hlen.
  destruct (length D) as [|n] eqn:En.
  - left. apply nil_length_inv. exact Hlen.
  - right. apply (Hcomplete 0%Q (replicate (length D) 1%Q)).
    apply double_centre_zero_eigenpair. lia.
Qed.

Lemma sorted_eigvals_pair (a b : Q) :
  (a < b)%Q -> sorted_eigvals [a; b] = [b; a].
Proof.
  intros Hab.
  pose proof (sorted_eigvals_perm [a; b]) as Hperm.
  pose proof (sorted_eigvals_descending [a; b]) as Hs.
  symmetry in Hperm. apply Permutation_length_2_inv in Hperm as [E|E];
    [|exact E].
  exfalso. rewrite E in Hs.
  apply StronglySorted_cons in Hs as [Hall _].
  apply Forall_cons in Hall as [Hba _]. unfold flip in Hba. lra.
Qed.

(** On the default call the eigenvalue 0 is the second largest as soon as
    one eigenvalue is positive.  When [np.linalg.eigh] returns it rounded
    to a number just below 0, the second variance-explained value is
    negative: the eigenvalue is divided as it is. *)
Lemma pcoa_rounded_zero_is_reported_negative
    (eigh : list (list Q) -> list Q * list (list Q)) (sqrt : Q -> Q)
    (labels : list string) (eps lam : Q) :
  (0 < eps)%Q -> (0 < lam)%Q ->
  (eigh (double_centre two_point_distances)).1 = [- eps; lam]%Q ->
  exists (p : PCoA) (v : Q),
    _pcoa eigh sqrt labels two_point_distances 2 = Ok p
    /\ variance_explained p !! 1%nat = Some v
    /\ (v < 0)%Q.
Proof.
  intros Heps Hlam Heig. unfold _pcoa.
  destruct (eigh (double_centre two_point_distances)) as [vals vecs].
  simpl in Heig. subst vals. cbn [length two_point_distances Nat.ltb Nat.leb].
  eexists. eexists. split; [reflexivity|].
  cbn [variance_explained]. unfold var_explained.
  rewrite sorted_eigvals_pair by lra.
  assert (Htot : (Qsum (map Qmax0 [lam; - eps]) == lam)%Q).
  { cbn [map Qsum fold_right].
    rewrite (Qmax0_nonpos (- eps)) by lra.
    pose proof (Qmax0_ge lam). pose proof (Qmax0_nonneg lam).
    unfold Qmax0 in *. destruct (Qle_bool lam 0) eqn:E.
    - apply Qle_bool_iff in E. lra.
    - lra. }
  destruct (Qlt_bool 0 (Qsum (map Qmax0 [lam; - eps]))) eqn:E.
  - split; [reflexivity|]. rewrite Htot.
    apply Qlt_shift_div_r; [exact Hlam|]. lra.
  - apply Qlt_bool_false in E. lra.
Qed.

(** C5.  The claim fails where an eigenvalue among the retained ones is
    negative.  For the three samples of [crossing_table] the distance
    matrix is finite, the spectrum of its double-centred matrix is
    1/2, 0 and -5/54 (each with the eigenvector given), and with three
    components the ordination reports the variance-explained values
    1, 0 and -5/27: the third is negative.  The eigenvalues are clamped at 0
    in the coordinates and in the total, not in the numerator. *)
Theorem pcoa_negative_variance_explained :
  exists D : list (list Q),
    finite_matrix (dist_values (beta_distance crossing_table)) = Some D
    /\ Forall2 (Forall2 Qeq) D crossing_distances
    /\ is_eigenpair (double_centre D) (1 # 2) [1; 0; -1]%Q
    /\ is_eigenpair (double_centre D) 0 [1; 1; 1]%Q
    /\ is_eigenpair (double_centre D) (- (5 # 54)) [1; -2; 1]%Q
    /\ exists p : PCoA,
         _pcoa crossing_eigh flat_sqrt ["a"; "b"; "c"] D 3 = Ok p
         /\ Forall2 Qeq (variance_explained p) [1; 0; - (5 # 27)]%Q.
Proof.
  eexists. split; [vm_compute; reflexivity|].
  split; [repeat constructor; vm_compute; reflexivity|].
  match goal with
  | |- is_eigenpair (double_centre ?M) _ _ /\ _ =>
      assert (Hpair : forall lam v,
                length v = 3%nat ->
                Exists (fun x => ~ (x == 0)%Q) v ->
                Forall2 (fun bx x => (bx == lam * x)%Q)
                        (mat_vec (double_centre M) v) v ->
                is_eigenpair (double_centre M) lam v)
  end.
  { intros lam v Hlen Hnz Heq. split; [|split; assumption].
    rewrite Hlen. reflexivity. }
  split; [|split; [|split]].
  - apply Hpair; [reflexivity| |].
    + apply Exists_cons_hd. vm_compute. discriminate.
    + repeat constructor; vm_compute; reflexivity.
  - apply Hpair; [reflexivity| |].
    + apply Exists_cons_hd. vm_compute. discriminate.
    + repeat constructor; vm_compute; reflexivity.
  - apply Hpair; [reflexivity| |].
    + apply Exists_cons_hd. vm_compute. discriminate.
    + repeat constructor; vm_compute; reflexivity.
  - eexists. split; [vm_compute; reflexivity|].
    repeat constructor; vm_compute; reflexivity.
Qed.

(* ================================================================== *)
(** * Evaluations *)
(* ================================================================== *)

(** One sample cannot be ordinated on two components, and a distance
    matrix with a NaN stops [_compute_beta_diversity]. *)
Example pcoa_single_sample
    (eigh : list (list Q) -> list Q * list (list Q)) (sqrt : Q -> Q) :
  _pcoa eigh sqrt ["a"] [[0%Q]] 2
  = Raise (ValueError
             "Shape of passed values is (1, 1), indices imply (1, 2)").
Proof.
  unfold _pcoa. destruct (eigh _). reflexivity.
Qed.

Example beta_diversity_of_empty_samples
    (eigh : list (list Q) -> list Q * list (list Q)) (sqrt : Q -> Q) :
  _compute_beta_diversity eigh sqrt
    (mkDF ["A:s1"; "B:s1"; "B:s2"] ["X"; "Y"] [[0; 0]; [0; 0]; [1; 3]]%Q)
  = Raise (LinAlgError "Eigenvalues did not converge").
Proof. reflexivity. Qed.

Example extract_genus :
  _extract_rank "d__Bacteria;p__Firmicutes;g__Lactobacillus;s__" "genus"
  = "Lactobacillus".
Proof. reflexivity. Qed.

Example extract_species_falls_back :
  _extract_rank "d__Bacteria;p__Firmicutes;g__Lactobacillus;s__" "species"
  = "Lactobacillus".
Proof. reflexivity. Qed.

Example clean_examples :
  clean_taxon_name "  g__Lactobacillus   iners__ " = "Lactobacillus iners"
  /\ clean_taxon_name "d__g__X_" = "X"
  /\ clean_taxon_name "s__" = "Unclassified".
Proof. repeat split; reflexivity. Qed.

(** The sample runs, harmonised without filtering: the union of the taxa in
    sorted order, rows prefixed by their run, every row summing to 1. *)
Example harmonise_demo :
  result_table (harmonise no_log (demo_harmoniser 0) demo_runs)
  = Some (mkDF ["A:s1"; "A:s2"; "B:s1"; "B:s2"]
               ["Gardnerella"; "Lactobacillus"; "Prevotella"; "Sneathia"]
               [[1 # 4; 3 # 4; 0 # 4; 0 # 4]; [0 # 4; 4 # 4; 0 # 4; 0 # 4];
                [0 # 2; 1 # 2; 0 # 2; 1 # 2];
                [0 # 2; 2 # 2; 0 # 2; 0 # 2]]%Q).
Proof. vm_compute. reflexivity. Qed.

(** With [min_prevalence = 0.6] only one taxon survives. *)
Example harmonise_demo_filtered :
  result_table (harmonise no_log (demo_harmoniser (6 # 10)) demo_runs)
  = Some (mkDF ["A:s1"; "A:s2"; "B:s1"; "B:s2"] ["Lactobacillus"]
               [[3 # 4]; [4 # 4]; [1 # 2]; [2 # 2]]%Q).
Proof. vm_compute. reflexivity. Qed.

Example fdr_demo :
  fdr_correction [4 # 100; 1 # 100; 3 # 100; 5 # 1000]%Q
  = [16 # 400; 4 # 200; 12 # 300; 20 # 1000]%Q.
Proof. vm_compute. reflexivity. Qed.

Example beta_distance_demo :
  dist_values
    (beta_distance (mkDF ["a"; "b"; "c"] ["x"; "y"]
                         [[1; 0]; [0; 1]; [1; 1]]%Q))
  = [[Fin 0; Fin (2 # 2); Fin (1 # 3)];
     [Fin (2 # 2); Fin 0; Fin (1 # 3)];
     [Fin (1 # 3); Fin (1 # 3); Fin 0]].
Proof. vm_compute. reflexivity. Qed.

(* ================================================================== *)
(** * Further properties of the lineage parsing and the name cleaning *)
(* ================================================================== *)

Lemma usable_name_test (s : string) :
  negb (is_empty s) && negb (String.eqb s "__") = true -> usable_name s.
Proof.
  intros H. apply andb_true_iff in H as [He Hu]. split.
  - intros ->. discriminate.
  - intros ->. discriminate.
Qed.

Lemma extract_by_prefix_usable (prefix : string) (parts : list string)
    (name : string) :
  extract_by_prefix prefix parts = Some name -> usable_name name.
Proof.
  induction parts as [|part rest IH]; simpl; [discriminate|].
  destruct (startswith (strip part) prefix); [|exact IH].
  destruct (negb (is_empty _) && negb (String.eqb _ "__")) eqn:E;
    [|exact IH].
  intros [= <-]. apply usable_name_test. exact E.
Qed.

Lemma extract_by_position_usable (rank : string) (parts : list string)
    (name : string) :
  extract_by_position rank parts = Some name -> usable_name name.
Proof.
  unfold extract_by_position.
  destruct (rank_index rank) as [idx|]; [|discriminate].
  destruct (parts !! idx) as [part|]; [|discriminate].
  destruct (negb (is_empty _) && negb (String.eqb _ "__")) eqn:E;
    [|discriminate].
  intros [= <-]. apply usable_name_test. exact E.
Qed.

Lemma extract_last_meaningful_usable (rparts : list string)
    (name : string) :
  extract_last_meaningful rparts = Some name ->
  usable_name name /\ name <> "unclassified".
Proof.
  induction rparts as [|part rest IH]; simpl; [discriminate|].
  destruct (negb (is_empty _) && negb _) eqn:E; [|exact IH].
  intros [= <-].
  apply andb_true_iff in E as [He Hu].
  apply negb_true_iff in Hu.
  apply orb_false_elim in Hu as [Hu Hun].
  apply orb_false_elim in Hu as [_ Hu].
  repeat split.
  - intros Heq. rewrite Heq in He. discriminate.
  - intros Heq. rewrite Heq in Hu. discriminate.
  - intros Heq. rewrite Heq in Hun. discriminate.
Qed.

(** X1.  Whatever the lineage string and the rank, [_extract_rank] returns
    a usable label: never the empty string and never the placeholder
    ["__"]. *)
Theorem extract_rank_never_empty (lineage rank : string) :
  _extract_rank lineage rank <> "" /\ _extract_rank lineage rank <> "__".
Proof.
  unfold _extract_rank.
  destruct (extract_by_prefix _ _) as [name|] eqn:E1.
  { exact (extract_by_prefix_usable _ _ _ E1). }
  destruct (extract_by_position _ _) as [part|] eqn:E2.
  { exact (extract_by_position_usable _ _ _ E2). }
  destruct (extract_last_meaningful _) as [part|] eqn:E3.
  { exact (proj1 (extract_last_meaningful_usable _ _ E3)). }
  split; discriminate.
Qed.

Lemma split_on_no_sep (p : ascii -> bool) (s : string) :
  forallb (fun c => negb (p c)) (list_ascii_of_string s) = true ->
  split_on p s = [s].
Proof.
  induction s as [|c s IH]; simpl; [reflexivity|].
  intros H. apply andb_true_iff in H as [Hc Hs].
  apply negb_true_iff in Hc. rewrite Hc, (IH Hs). reflexivity.
Qed.

(** X2.  A cleaned taxon name is never empty, never ends in an underscore,
    and has its white space already collapsed: stripping underscores from
    its right end or collapsing its white space again changes nothing. *)
Theorem clean_taxon_name_shape (s : string) :
  clean_taxon_name s <> ""
  /\ rstrip_with is_underscore (clean_taxon_name s) = clean_taxon_name s
  /\ collapse_ws (clean_taxon_name s) = clean_taxon_name s.
Proof.
  set (t := collapse_ws
              (rstrip_with is_underscore
                 (strip_rank_prefixes (strip s)))).
  assert (Hc : clean_taxon_name s
               = if is_empty t || (String.eqb t "" || String.eqb t "__")
                 then "Unclassified" else t) by reflexivity.
  rewrite Hc. clear Hc.
  destruct (is_empty t || (String.eqb t "" || String.eqb t "__")) eqn:Et.
  - repeat split; try reflexivity. discriminate.
  - apply orb_false_elim in Et as [Hne _]. repeat split.
    + intros Heq. rewrite Heq in Hne. discriminate.
    + apply rstrip_with_id.
      destruct (last_char t) as [c|] eqn:Ec; [|reflexivity].
      simpl. unfold t, collapse_ws in Ec.
      apply collapse_from_last in Ec as [->|Ec]; [reflexivity|].
      apply rstrip_with_last in Ec. exact Ec.
    + unfold t, collapse_ws. apply collapse_from_idem.
Qed.

(* ================================================================== *)
(** * Row labels *)
(* ================================================================== *)

Lemma split_on_nonempty (p : ascii -> bool) (s : string) :
  split_on p s <> [].
Proof.
  destruct s as [|c s]; simpl; [discriminate|].
  destruct (p c); [discriminate|].
  destruct (split_on p s); discriminate.
Qed.

(** Splitting what follows a separator-free prefix and a separator. *)
Lemma split_on_prefix (p : ascii -> bool) (a b : string) (c : ascii) :
  forallb (fun x => negb (p x)) (list_ascii_of_string a) = true ->
  p c = true ->
  split_on p (a ++ String c b) = a :: split_on p b.
Proof.
  intros Ha Hc. induction a as [|x a IH]; simpl.
  - rewrite Hc. reflexivity.
  - simpl in Ha. apply andb_true_iff in Ha as [Hx Ha].
    apply negb_true_iff in Hx. rewrite Hx, (IH Ha). reflexivity.
Qed.

Lemma last_cons_nonempty {A} (x d : A) (l : list A) :
  l <> [] -> List.last (x :: l) d = List.last l d.
Proof. destruct l; [congruence | reflexivity]. Qed.

(** X3.  The row label ["{run_id}:{sample}"] is read back correctly: when
    the run id holds no colon, the run label taken from it is the run id,
    and the bare sample id taken from it is the bare sample id of
    [sample], which is [sample] itself when it holds no colon. *)
Theorem row_label_round_trip (rid sample : string) :
  colon_free rid = true ->
  label_prefix (rid ++ ":" ++ sample) = rid
  /\ label_suffix (rid ++ ":" ++ sample) = label_suffix sample
  /\ (colon_free sample = true ->
      label_suffix (rid ++ ":" ++ sample) = sample).
Proof.
  intros Hrid. unfold label_prefix, label_suffix.
  change (rid ++ ":" ++ sample) with (rid ++ String ":"%char sample).
  rewrite (split_on_prefix is_colon rid sample ":"%char Hrid eq_refl).
  split; [reflexivity|].
  rewrite last_cons_nonempty by apply split_on_nonempty.
  split; [reflexivity|].
  intros Hs. rewrite (split_on_no_sep is_colon sample Hs). reflexivity.
Qed.

Lemma row_label_round_trip_witness :
  label_prefix ("runA" ++ ":" ++ "s1") = "runA".
Proof.
  apply (proj1 (row_label_round_trip "runA" "s1" eq_refl)).
Defined.

(* ================================================================== *)
(** * The rank aggregation keeps the totals of the samples *)
(* ================================================================== *)

(** The sum, over a list of columns, of their entries in row [i]. *)
Lemma agg_add_keys (k : string) (c : list Q)
    (agg : list (string * list Q)) :
  (agg_add k c agg).*1 = if bool_decide (k ∈ agg.*1) then agg.*1
                         else (agg.*1 ++ [k])%list.
Proof.
  induction agg as [|[k' v] agg IH]; [reflexivity|].
  cbn [agg_add]. destruct (String.eqb k' k) eqn:E.
  - apply String.eqb_eq in E. subst k'. rewrite !fmap_cons. cbn [fst].
    rewrite bool_decide_eq_true_2 by left. reflexivity.
  - apply String.eqb_neq in E. rewrite !fmap_cons. cbn [fst]. rewrite IH.
    destruct (decide (k ∈ agg.*1)) as [Hin|Hni].
    + rewrite !bool_decide_eq_true_2; [reflexivity|by right|exact Hin].
    + rewrite !bool_decide_eq_false_2; [reflexivity| |exact Hni].
      intros Hin. apply elem_of_cons in Hin as [Heq|Hin]; congruence.
Qed.

Lemma agg_add_NoDup (k : string) (c : list Q)
    (agg : list (string * list Q)) :
  NoDup agg.*1 -> NoDup (agg_add k c agg).*1.
Proof.
  intros Hnd. rewrite agg_add_keys.
  destruct (decide (k ∈ agg.*1)) as [Hin|Hni].
  - rewrite bool_decide_eq_true_2 by exact Hin. exact Hnd.
  - rewrite bool_decide_eq_false_2 by exact Hni.
    apply NoDup_app. repeat split; [exact Hnd| |apply NoDup_singleton].
    intros x Hx Hx'. apply list_elem_of_singleton in Hx'. subst x.
    contradiction.
Qed.

Lemma agg_add_heights (m : nat) (k : string) (c : list Q)
    (agg : list (string * list Q)) :
  length c = m -> Forall (fun col => length col = m) agg.*2 ->
  Forall (fun col => length col = m) (agg_add k c agg).*2.
Proof.
  intros Hc. induction agg as [|[k' v] agg IH]; simpl; intros Hagg.
  - repeat constructor. exact Hc.
  - apply Forall_cons in Hagg as [Hv Hagg].
    destruct (String.eqb k' k); simpl; constructor; auto.
    unfold vec_add. rewrite length_zip_with. simpl in Hv. lia.
Qed.

Lemma vec_add_at (u v : list Q) (i : nat) :
  length u = length v ->
  (default 0 (vec_add u v !! i)
   == default 0 (u !! i) + default 0 (v !! i))%Q.
Proof.
  revert v i. induction u as [|a u IH]; intros [|b v] i Hlen;
    try discriminate; simpl.
  - destruct i; simpl; ring.
  - destruct i as [|i]; simpl; [reflexivity|].
    apply IH. injection Hlen as Hlen. exact Hlen.
Qed.

Lemma col_total_nil (i : nat) : col_total i [] = 0%Q.
Proof. reflexivity. Qed.

Lemma col_total_cons (i : nat) (col : list Q) (cols : list (list Q)) :
  col_total i (col :: cols) = (default 0 (col !! i) + col_total i cols)%Q.
Proof. reflexivity. Qed.

Lemma agg_add_row_sum (m : nat) (k : string) (c : list Q)
    (agg : list (string * list Q)) (i : nat) :
  length c = m -> Forall (fun col => length col = m) agg.*2 ->
  (col_total i (agg_add k c agg).*2
   == col_total i agg.*2 + default 0 (c !! i))%Q.
Proof.
  intros Hc. induction agg as [|[k' v] agg IH]; intros Hagg.
  - cbn [agg_add]. rewrite fmap_cons, col_total_cons. cbn [snd].
    rewrite !fmap_nil, col_total_nil. ring.
  - rewrite fmap_cons in Hagg. apply Forall_cons in Hagg as [Hv Hagg].
    cbn [snd] in Hv. cbn [agg_add].
    destruct (String.eqb k' k); rewrite !fmap_cons, !col_total_cons;
      cbn [snd].
    + rewrite vec_add_at by congruence. ring.
    + rewrite (IH Hagg). ring.
Qed.

Lemma aggregate_fold_invariant (m : nat) (key : string -> string)
    (items agg0 : list (string * list Q)) (i : nat) :
  Forall (fun col => length col = m) items.*2 ->
  Forall (fun col => length col = m) agg0.*2 ->
  NoDup agg0.*1 ->
  let agg := fold_left (fun agg (item : string * list Q) =>
                          agg_add (key item.1) item.2 agg) items agg0 in
  NoDup agg.*1
  /\ (col_total i agg.*2
      == col_total i agg0.*2 + col_total i items.*2)%Q.
Proof.
  revert agg0. induction items as [|[c col] items IH];
    intros agg0 Hitems Hagg Hnd.
  - cbn [fold_left]. rewrite fmap_nil, col_total_nil.
    split; [exact Hnd | ring].
  - rewrite fmap_cons in Hitems.
    apply Forall_cons in Hitems as [Hcol Hitems]. cbn [snd] in Hcol.
    destruct (IH (agg_add (key c) col agg0) Hitems
                (agg_add_heights m _ _ _ Hcol Hagg)
                (agg_add_NoDup _ _ _ Hnd)) as [Hnd' Hsum].
    cbn [fold_left fst snd]. split; [exact Hnd'|].
    rewrite Hsum, (agg_add_row_sum m _ _ _ i Hcol Hagg).
    rewrite fmap_cons, col_total_cons. cbn [snd]. ring.
Qed.

Lemma col_vectors_heights (n : nat) (rows : list (list Q)) :
  Forall (fun col => length col = length rows) (col_vectors n rows).
Proof.
  revert rows. induction n as [|n IH]; intros rows; simpl; constructor.
  - apply length_map.
  - specialize (IH (map (@tl Q) rows)). rewrite length_map in IH.
    exact IH.
Qed.

(** Reading row [i] through the column vectors gives the row back. *)
Lemma col_vectors_row_sum (n : nat) (rows : list (list Q)) (i : nat)
    (row : list Q) :
  rows !! i = Some row -> length row = n ->
  (col_total i (col_vectors n rows)
   == Qsum row)%Q.
Proof.
  revert rows row. induction n as [|n IH]; intros rows row Hi Hlen.
  - destruct row; [reflexivity | discriminate].
  - destruct row as [|x row]; [discriminate|].
    injection Hlen as Hlen. cbn [col_vectors].
    rewrite col_total_cons, list_lookup_fmap, Hi.
    rewrite (IH (map (@tl Q) rows) row); [reflexivity| |exact Hlen].
    rewrite list_lookup_fmap, Hi. reflexivity.
Qed.

Lemma rows_of_columns_lookup (m : nat) (cols : list (list Q)) (i : nat) :
  (i < m)%nat ->
  rows_of_columns m cols !! i
  = Some (map (fun col => default 0%Q (col !! i)) cols).
Proof.
  intros Hi. unfold rows_of_columns.
  rewrite list_lookup_fmap, (lookup_seq_lt _ _ _ Hi). reflexivity.
Qed.

Lemma parse_rank_from_names_table (df : DataFrame) (rank : string) :
  (_parse_rank_from_names df rank).1
  = df_of_aggregated df
      (aggregate_columns (fun c => _extract_rank c rank) (df_items df)).
Proof.
  unfold _parse_rank_from_names, aggregate_columns.
  assert (H : forall items (acc : list TaxaMapping
                                   * list (string * list Q)),
    (fold_left
       (fun acc (item : string * list Q) =>
          let taxon_at_rank := _extract_rank item.1 rank in
          ((acc.1 ++ [mkMapping item.1 None rank taxon_at_rank])%list,
           agg_add taxon_at_rank item.2 acc.2)) items acc).2
    = fold_left (fun agg (item : string * list Q) =>
                   agg_add (_extract_rank item.1 rank) item.2 agg)
        items acc.2).
  { induction items as [|item items IH]; intros acc; [reflexivity|].
    simpl. rewrite IH. reflexivity. }
  specialize (H (df_items df) ([], [])).
  destruct (fold_left _ (df_items df) ([], [])) as [mapping aggregated].
  simpl in *. rewrite H. reflexivity.
Qed.

Lemma aggregate_to_rank_table (df : DataFrame) (tax : Taxonomy)
    (rank : string) :
  exists key : string -> string,
    (_aggregate_to_rank df tax rank).1
    = df_of_aggregated df (aggregate_columns key (df_items df)).
Proof.
  unfold _aggregate_to_rank.
  destruct (if _ && _ then _ else _) as [asv_to_taxon mapping].
  exists (fun c => default c (asv_to_taxon !! c)). reflexivity.
Qed.

Lemma aggregated_table_totals (key : string -> string) (df : DataFrame) :
  well_formed df ->
  let agg := df_of_aggregated df (aggregate_columns key (df_items df)) in
  NoDup (columns agg)
  /\ index agg = index df
  /\ forall (i : nat) (row : list Q),
       values df !! i = Some row ->
       exists row', values agg !! i = Some row'
                    /\ (Qsum row' == Qsum row)%Q.
Proof.
  intros [Hrows Hcells] agg.
  assert (Hitems : (df_items df).*2 = col_vectors (ncols df) (values df)).
  { unfold df_items. apply snd_zip.
    rewrite col_vectors_length. unfold ncols. lia. }
  assert (Hheights : Forall (fun col => length col = nrows df)
                            (df_items df).*2).
  { rewrite Hitems, <- Hrows. apply col_vectors_heights. }
  split; [|split; [reflexivity|]].
  - subst agg. simpl.
    apply (aggregate_fold_invariant (nrows df) key (df_items df) [] 0
             Hheights); constructor.
  - intros i row Hi. subst agg. simpl.
    assert (Hlt : (i < nrows df)%nat).
    { rewrite <- Hrows. eapply lookup_lt_Some. exact Hi. }
    rewrite (rows_of_columns_lookup _ _ _ Hlt). eexists. split;
      [reflexivity|].
    destruct (aggregate_fold_invariant (nrows df) key (df_items df) [] i
                Hheights) as [_ Hsum]; [constructor..|].
    fold (col_total i (aggregate_columns key (df_items df)).*2).
    unfold aggregate_columns. rewrite Hsum, Hitems, fmap_nil, col_total_nil.
    rewrite Qplus_0_l. apply col_vectors_row_sum; [exact Hi|].
    rewrite Forall_forall in Hcells. apply Hcells.
    eapply list_elem_of_lookup_2. exact Hi.
Qed.

(** X4.  On a rectangular table whose column labels are distinct, the
    rank aggregation of the loop of [harmonise], with or without a
    taxonomy table, yields distinct column names, keeps the sample labels,
    and keeps the total of every sample: the columns merged under one name
    are added, nothing is lost. *)
Theorem aggregation_keeps_sample_totals
    (self : Harmoniser) (run : RunData) (df : DataFrame) :
  well_formed df ->
  NoDup (columns df) ->
  let agg := (aggregate_run self run df).1 in
  NoDup (columns agg)
  /\ index agg = index df
  /\ forall (i : nat) (row : list Q),
       values df !! i = Some row ->
       exists row', values agg !! i = Some row'
                    /\ (Qsum row' == Qsum row)%Q.
Proof.
  intros Hwf _ agg. subst agg. unfold aggregate_run.
  destruct (taxonomy run) as [tax|].
  - destruct (negb (tax_empty tax)).
    + destruct (aggregate_to_rank_table df tax (rank self)) as [key ->].
      apply aggregated_table_totals. exact Hwf.
    + rewrite parse_rank_from_names_table.
      apply aggregated_table_totals. exact Hwf.
  - rewrite parse_rank_from_names_table.
    apply aggregated_table_totals. exact Hwf.
Qed.

(* ================================================================== *)
(** * What every successful harmonisation returns *)
(* ================================================================== *)

Lemma select_by_mask_sublist {A} (mask : list bool) (l : list A) :
  select_by_mask mask l `sublist_of` l.
Proof.
  revert l. induction mask as [|b mask IH]; intros [|x l]; simpl;
    try apply sublist_nil_l.
  destruct b; [apply sublist_skip | apply sublist_cons]; apply IH.
Qed.

Lemma select_by_mask_same_length {A B} (mask : list bool) (l : list A)
    (k : list B) :
  length l = length k ->
  length (select_by_mask mask l) = length (select_by_mask mask k).
Proof.
  revert l k. induction mask as [|b mask IH]; intros [|x l] [|y k] Hlen;
    try discriminate; try reflexivity.
  injection Hlen as Hlen. destruct b; simpl; auto.
Qed.

Lemma select_rows_well_formed (mask : list bool) (df : DataFrame) :
  well_formed df -> well_formed (select_rows mask df).
Proof.
  intros [Hrows Hcells]. split; simpl.
  - unfold nrows. simpl. apply select_by_mask_same_length. exact Hrows.
  - rewrite Forall_forall in Hcells. apply Forall_forall.
    intros row Hrow. apply Hcells.
    eapply elem_of_sublist; [exact Hrow|]. apply select_by_mask_sublist.
Qed.

Lemma select_columns_well_formed (mask : list bool) (df : DataFrame) :
  well_formed df -> well_formed (select_columns mask df).
Proof.
  intros [Hrows Hcells]. split; simpl.
  - rewrite length_map. exact Hrows.
  - rewrite Forall_fmap. eapply Forall_impl; [exact Hcells|].
    intros row Hrow. simpl. unfold ncols. simpl.
    apply select_by_mask_same_length. exact Hrow.
Qed.

Lemma normalise_relative_well_formed (df : DataFrame) :
  well_formed df -> well_formed (_normalise_relative df).
Proof.
  intros [Hrows Hcells]. split; simpl.
  - rewrite length_map. exact Hrows.
  - rewrite Forall_fmap. eapply Forall_impl; [exact Hcells|].
    intros row Hrow. simpl. unfold normalise_row.
    rewrite length_map. exact Hrow.
Qed.

Lemma normalise_clr_well_formed (log : Q -> Q) (df : DataFrame) :
  well_formed df -> well_formed (_normalise_clr log df).
Proof.
  intros [Hrows Hcells]. split; simpl.
  - rewrite length_map. exact Hrows.
  - rewrite Forall_fmap. eapply Forall_impl; [exact Hcells|].
    intros row Hrow. simpl. unfold clr_row.
    rewrite !length_map. exact Hrow.
Qed.

(** The taxon filter keeps the sample labels and the rows, and selects a
    sub-list of the columns. *)
Lemma filter_taxa_frame (self : Harmoniser) (df : DataFrame) :
  index (_filter_taxa self df) = index df
  /\ columns (_filter_taxa self df) `sublist_of` columns df
  /\ (well_formed df -> well_formed (_filter_taxa self df)).
Proof.
  unfold _filter_taxa, abundance_filter, prevalence_filter.
  destruct (Qlt_bool 0 (min_prevalence self)),
           (Qlt_bool 0 (min_mean_abundance self)); simpl;
    (split; [reflexivity|]);
    (split;
     [|intros Hwf; repeat apply select_columns_well_formed; exact Hwf]).
  - etransitivity; apply select_by_mask_sublist.
  - apply select_by_mask_sublist.
  - apply select_by_mask_sublist.
  - reflexivity.
Qed.

Lemma Forall_concat_rows {A} (P : A -> Prop) (ls : list (list A)) :
  Forall (Forall P) ls -> Forall P (concat ls).
Proof.
  induction 1 as [|l ls Hl _ IH]; simpl; [constructor|].
  apply Forall_app. split; assumption.
Qed.

Lemma concat_length_eq {A B} (ls : list (list A)) (ks : list (list B)) :
  Forall2 (fun l k => length l = length k) ls ks ->
  length (concat ls) = length (concat ks).
Proof.
  induction 1 as [|l k ls ks Hlk _ IH]; simpl; [reflexivity|].
  rewrite !length_app, Hlk, IH. reflexivity.
Qed.

Lemma mapM_result_ok {A B} (f : A -> result B) (l : list A)
    (ys : list B) :
  mapM_result f l = Ok ys -> Forall2 (fun x y => f x = Ok y) l ys.
Proof.
  revert ys. induction l as [|x l IH]; simpl; intros ys.
  - intros [= <-]. constructor.
  - destruct (f x) as [y|e] eqn:Ex; simpl; [|discriminate].
    destruct (mapM_result f l) as [ys'|e]; simpl; [|discriminate].
    intros [= <-]. constructor; [exact Ex | apply IH; reflexivity].
Qed.

Lemma reindex_columns_ok (target : list string) (df adf : DataFrame) :
  reindex_columns target df = Ok adf ->
  NoDup (columns df)
  /\ index adf = index df
  /\ columns adf = target
  /\ length (values adf) = length (values df)
  /\ Forall (fun row => length row = length target) (values adf).
Proof.
  unfold reindex_columns.
  destruct (decide (NoDup (columns df))) as [Hnd|Hnd].
  - rewrite bool_decide_eq_true_2 by exact Hnd. intros [= <-]. simpl.
    repeat split; try reflexivity; [exact Hnd|apply length_map|].
    rewrite Forall_fmap. apply Forall_forall. intros row _. simpl.
    apply length_map.
  - rewrite bool_decide_eq_false_2 by exact Hnd. discriminate.
Qed.

Lemma sorted_labels_NoDup (s : gset string) : NoDup (sorted_labels s).
Proof.
  unfold sorted_labels. rewrite merge_sort_Permutation.
  apply NoDup_elements.
Qed.

Lemma sorted_labels_sorted (s : gset string) :
  StronglySorted String.le (sorted_labels s).
Proof. apply StronglySorted_merge_sort; apply _. Qed.

Lemma elem_of_sorted_labels (s : gset string) (x : string) :
  x ∈ sorted_labels s <-> x ∈ s.
Proof.
  unfold sorted_labels. rewrite merge_sort_Permutation.
  apply elem_of_elements.
Qed.

Lemma all_taxa_fold (dfs : list DataFrame) (acc : gset string)
    (x : string) :
  x ∈ fold_left (fun acc df => acc ∪ list_to_set (columns df)) dfs acc
  <-> x ∈ acc \/ exists df, df ∈ dfs /\ x ∈ columns df.
Proof.
  revert acc. induction dfs as [|df dfs IH]; intros acc; simpl.
  - split; [intros H; left; exact H|].
    intros [H|(df & Hdf & _)]; [exact H | inversion Hdf].
  - rewrite IH. rewrite elem_of_union, elem_of_list_to_set. split.
    + intros [[H|H]|(df' & Hdf & Hx)].
      * left. exact H.
      * right. exists df. split; [left | exact H].
      * right. exists df'. split; [right; exact Hdf | exact Hx].
    + intros [H|(df' & Hdf & Hx)].
      * left. left. exact H.
      * apply elem_of_cons in Hdf as [->|Hdf].
        -- left. right. exact Hx.
        -- right. exists df'. split; assumption.
Qed.

Lemma pd_concat_ok (target : list string) (dfs : list DataFrame)
    (out : DataFrame) :
  pd_concat target dfs = Ok out ->
  out = mkDF (concat (map index dfs)) target (concat (map values dfs)).
Proof.
  destruct dfs; [discriminate|]. intros [= <-]. reflexivity.
Qed.

(** What a successful taxon alignment returns. *)
Lemma align_taxa_ok (dfs : list DataFrame) (aligned : DataFrame) :
  _align_taxa dfs = Ok aligned ->
  NoDup (columns aligned)
  /\ StronglySorted String.le (columns aligned)
  /\ (forall x, x ∈ columns aligned
                <-> exists df, df ∈ dfs /\ x ∈ columns df)
  /\ index aligned = concat (map index dfs)
  /\ Forall (fun df => NoDup (columns df)) dfs
  /\ Forall (fun row => length row = ncols aligned) (values aligned)
  /\ (Forall (fun df => length (values df) = nrows df) dfs ->
      length (values aligned) = nrows aligned).
Proof.
  unfold _align_taxa.
  set (all_taxa := fold_left _ dfs ∅).
  destruct (mapM_result _ dfs) as [adfs|e] eqn:E; simpl; [|discriminate].
  intros Hc. apply pd_concat_ok in Hc as ->. simpl.
  apply mapM_result_ok in E.
  split; [apply sorted_labels_NoDup|].
  split; [apply sorted_labels_sorted|].
  split.
  { intros x. rewrite elem_of_sorted_labels. unfold all_taxa.
    rewrite all_taxa_fold. split; [|intros H; right; exact H].
    intros [H|H]; [|exact H]. apply not_elem_of_empty in H.
    contradiction. }
  clearbody all_taxa.
  split.
  { f_equal. induction E as [|df adf dfs adfs Hr _ IH]; [reflexivity|].
    simpl. apply reindex_columns_ok in Hr as (_ & -> & _). f_equal.
    exact IH. }
  split.
  { induction E as [|df adf dfs adfs Hr _ IH]; constructor; [|exact IH].
    apply reindex_columns_ok in Hr as [Hnd _]. exact Hnd. }
  split.
  { unfold ncols. simpl. apply Forall_concat_rows.
    induction E as [|df adf dfs adfs Hr _ IH]; simpl; constructor;
      [|exact IH].
    apply reindex_columns_ok in Hr as (_ & _ & _ & _ & Hlen). exact Hlen. }
  intros Hdfs. unfold nrows. simpl. apply concat_length_eq.
  induction E as [|df adf dfs adfs Hr _ IH]; simpl; [constructor|].
  apply Forall_cons in Hdfs as [Hdf Hdfs].
  apply reindex_columns_ok in Hr as (_ & Hidx & _ & Hlen & _).
  constructor; [|apply IH; exact Hdfs].
  rewrite Hidx, Hlen, Hdf. reflexivity.
Qed.

(** What the loop body hands on for a run it does not skip. *)
Lemma process_run_some (self : Harmoniser) (run : RunData)
    (df : DataFrame) (mapping : list TaxaMapping) (labels : list string) :
  process_run self run = Some (df, mapping, labels) ->
  length (values df) = nrows df
  /\ index df <> []
  /\ Forall (fun lbl => exists s, lbl = run_id run ++ ":" ++ s) (index df).
Proof.
  unfold process_run.
  destruct (abundance_table run) as [table|]; [|discriminate].
  destruct (df_empty table) eqn:Hempty; [|]; [discriminate|].
  intros [= <- _ _]. unfold label_run, nrows. simpl.
  set (oriented := ensure_samples_are_rows table).
  assert (Hidx : index (aggregate_run self run oriented).1
                 = index oriented).
  { unfold aggregate_run.
    destruct (taxonomy run) as [tax|]; [destruct (negb (tax_empty tax))|].
    - destruct (aggregate_to_rank_table oriented tax (rank self))
        as [key ->]. reflexivity.
    - rewrite parse_rank_from_names_table. reflexivity.
    - rewrite parse_rank_from_names_table. reflexivity. }
  assert (Hval : length (values (aggregate_run self run oriented).1)
                 = nrows oriented).
  { unfold aggregate_run.
    destruct (taxonomy run) as [tax|]; [destruct (negb (tax_empty tax))|].
    - destruct (aggregate_to_rank_table oriented tax (rank self))
        as [key ->]. simpl. unfold rows_of_columns.
      rewrite length_map, length_seq. reflexivity.
    - rewrite parse_rank_from_names_table. simpl. unfold rows_of_columns.
      rewrite length_map, length_seq. reflexivity.
    - rewrite parse_rank_from_names_table. simpl. unfold rows_of_columns.
      rewrite length_map, length_seq. reflexivity. }
  rewrite length_map, Hidx, Hval. split; [reflexivity|]. split.
  - unfold df_empty in Hempty. apply orb_false_elim in Hempty as [Hr Hc].
    apply Nat.eqb_neq in Hr, Hc.
    intros Hnil. apply fmap_nil_inv in Hnil.
    unfold oriented, ensure_samples_are_rows in Hnil.
    destruct (ncols table <? nrows table)%nat; simpl in Hnil;
      unfold nrows, ncols in *; rewrite Hnil in *; simpl in *; lia.
  - rewrite Forall_fmap. apply Forall_forall. intros s _. simpl.
    exists s. reflexivity.
Qed.

(** The intersection alignment keeps a sub-selection of the rows, leaves
    the columns alone and never empties a table that has rows. *)
Lemma align_samples_intersection_frame (df : DataFrame)
    (runs : list RunData) :
  let out := _align_samples_intersection df runs in
  columns out = columns df
  /\ index out `sublist_of` index df
  /\ values out `sublist_of` values df
  /\ (well_formed df -> well_formed out)
  /\ (length (values df) = nrows df -> length (values out) = nrows out)
  /\ (index df <> [] -> index out <> []).
Proof.
  cbv zeta. unfold _align_samples_intersection.
  set (sample_ids := map label_suffix (index df)).
  set (n_runs := length (remove_dups (map label_prefix (index df)))).
  set (common := filter _ (remove_dups sample_ids)).
  destruct (length common =? 0)%nat eqn:Hc; simpl.
  { split; [reflexivity|]. split; [reflexivity|].
    split; [reflexivity|]. auto. }
  set (mask := map (fun sid => bool_decide (sid ∈ common)) sample_ids).
  split; [reflexivity|].
  split; [apply select_by_mask_sublist|].
  split; [apply select_by_mask_sublist|].
  split; [apply select_rows_well_formed|].
  split.
  { intros Hlen. unfold nrows. simpl.
    apply select_by_mask_same_length. exact Hlen. }
  intros _. apply Nat.eqb_neq in Hc.
  destruct common as [|sid common'] eqn:Ecommon; [simpl in Hc; lia|].
  assert (Hsid : sid ∈ sample_ids).
  { assert (Hin : sid ∈ sid :: common') by left.
    rewrite <- Ecommon in Hin. unfold common in Hin.
    apply list_elem_of_filter in Hin as [_ Hin].
    rewrite elem_of_remove_dups in Hin. exact Hin. }
  clear -Hsid. unfold mask, sample_ids in *. clear mask sample_ids.
  induction (index df) as [|lbl idx IH]; [inversion Hsid|].
  simpl. destruct (bool_decide _) eqn:Eb; [discriminate|].
  simpl in Hsid. apply elem_of_cons in Hsid as [Heq|Hin].
  - apply bool_decide_eq_false in Eb. exfalso. apply Eb. rewrite <- Heq.
    left.
  - apply IH. exact Hin.
Qed.

(** The stages of a successful call, from the aligned table on. *)
Lemma harmonise_stages (log : Q -> Q) (self : Harmoniser)
    (runs : list RunData) (h : HarmonisedData) :
  harmonise log self runs = Ok h ->
  exists (aligned sampled normalised : DataFrame),
    let processed := omap (process_run self) runs in
    processed <> []
    /\ _align_taxa (map (fun p => p.1.1) processed) = Ok aligned
    /\ sampled = (if String.eqb (sample_align self) "intersection"
                  then _align_samples_intersection aligned runs
                  else _align_samples_union aligned)
    /\ index normalised = index sampled
    /\ columns normalised = columns sampled
    /\ (well_formed sampled -> well_formed normalised)
    /\ aligned_abundance h = _filter_taxa self normalised
    /\ run_labels h = map label_prefix (index (aligned_abundance h))
    /\ s_n_samples_final (settings h) = nrows (aligned_abundance h)
    /\ s_n_taxa_final (settings h) = ncols (aligned_abundance h)
    /\ s_n_runs (settings h) = length runs.
Proof.
  unfold harmonise.
  destruct (length runs <? 2)%nat; [discriminate|].
  destruct (length _ =? 0)%nat eqn:Hproc; [discriminate|].
  destruct (_align_taxa _) as [aligned|e] eqn:Hal; simpl; [|discriminate].
  intros [= <-]. simpl.
  exists aligned. eexists. eexists.
  split.
  { intros Hnil. rewrite Hnil in Hproc. discriminate. }
  split; [reflexivity|]. split; [reflexivity|].
  split; [|split; [|split; [|split; [reflexivity|repeat split]]]].
  - destruct (String.eqb (norm self) "relative");
      [|destruct (String.eqb (norm self) "clr")]; reflexivity.
  - destruct (String.eqb (norm self) "relative");
      [|destruct (String.eqb (norm self) "clr")]; reflexivity.
  - destruct (String.eqb (norm self) "relative");
      [|destruct (String.eqb (norm self) "clr")]; intros Hwf.
    + apply normalise_relative_well_formed. exact Hwf.
    + apply normalise_clr_well_formed. exact Hwf.
    + exact Hwf.
Qed.

Lemma processed_tables (self : Harmoniser) (runs : list RunData) :
  let dfs := map (fun p => p.1.1) (omap (process_run self) runs) in
  Forall (fun df => length (values df) = nrows df) dfs
  /\ Forall (fun df => index df <> []) dfs
  /\ Forall (fun df => Forall (fun lbl => exists run s,
                                 run ∈ runs /\ lbl = run_id run ++ ":" ++ s)
                              (index df)) dfs.
Proof.
  intros dfs. subst dfs.
  assert (H : Forall (fun p : DataFrame * list TaxaMapping * list string =>
              length (values p.1.1) = nrows p.1.1
              /\ index p.1.1 <> []
              /\ Forall (fun lbl => exists run s,
                           run ∈ runs /\ lbl = run_id run ++ ":" ++ s)
                        (index p.1.1))
            (omap (process_run self) runs)).
  { apply Forall_forall. intros [[df mapping] labels] Hp.
    apply list_elem_of_omap in Hp as (run & Hrun & Hp).
    apply process_run_some in Hp as (Hlen & Hne & Hlbl). simpl.
    split; [exact Hlen|]. split; [exact Hne|].
    eapply Forall_impl; [exact Hlbl|].
    intros lbl [s ->]. exists run, s. split; [exact Hrun | reflexivity]. }
  repeat split; rewrite Forall_fmap; eapply Forall_impl; try exact H;
    intros p (H1 & H2 & H3); assumption.
Qed.

(** X5.  Every successful harmonisation returns a rectangular table with
    at least one row, in which no column label occurs twice; it has one run
    label per row, and the recorded numbers of samples and of taxa are the
    numbers of its rows and columns. *)
Theorem harmonise_output_shape
    (log : Q -> Q) (self : Harmoniser) (runs : list RunData)
    (h : HarmonisedData) :
  harmonise log self runs = Ok h ->
  well_formed (aligned_abundance h)
  /\ NoDup (columns (aligned_abundance h))
  /\ (0 < nrows (aligned_abundance h))%nat
  /\ length (run_labels h) = nrows (aligned_abundance h)
  /\ s_n_samples_final (settings h) = nrows (aligned_abundance h)
  /\ s_n_taxa_final (settings h) = ncols (aligned_abundance h).
Proof.
  intros Hok.
  destruct (harmonise_stages _ _ _ _ Hok)
    as (aligned & sampled & normalised & Hne & Hal & Hs & Hidx & Hcol
        & Hwfn & Hout & Hlab & Hns & Hnt & _).
  destruct (processed_tables self runs) as (Hlen & Hnonempty & _).
  destruct (align_taxa_ok _ _ Hal)
    as (Hnd & _ & _ & Haidx & _ & Hcells & Hrows).
  assert (Hwfa : well_formed aligned).
  { split; [apply Hrows; exact Hlen | exact Hcells]. }
  assert (Hanonempty : index aligned <> []).
  { rewrite Haidx.
    destruct (omap (process_run self) runs) as [|p ps]; [congruence|].
    simpl in *. apply Forall_cons in Hnonempty as [Hp _].
    destruct (index p.1.1); [congruence | discriminate]. }
  assert (Hsampled : well_formed sampled /\ NoDup (columns sampled)
                     /\ index sampled <> []).
  { rewrite Hs. destruct (String.eqb (sample_align self) "intersection").
    - destruct (align_samples_intersection_frame aligned runs)
        as (Hc & _ & _ & Hwf & _ & Hn).
      rewrite Hc. auto.
    - unfold _align_samples_union. auto. }
  destruct Hsampled as (Hwfs & Hnds & Hnes).
  destruct (filter_taxa_frame self normalised) as (Hfi & Hfc & Hfw).
  rewrite Hout. repeat split.
  - apply Hfw, Hwfn, Hwfs.
  - apply Hfw, Hwfn, Hwfs.
  - apply (sublist_NoDup _ (columns normalised)); [|exact Hfc].
    rewrite Hcol. exact Hnds.
  - unfold nrows. rewrite Hfi, Hidx.
    destruct (index sampled); [congruence | simpl; lia].
  - rewrite Hlab, length_map, Hout. reflexivity.
  - rewrite Hns, Hout. reflexivity.
  - rewrite Hnt, Hout. reflexivity.
Qed.

Lemma harmonise_output_shape_witness :
  exists h : HarmonisedData,
    harmonise no_log (demo_harmoniser 0) demo_runs = Ok h
    /\ well_formed (aligned_abundance h)
    /\ NoDup (columns (aligned_abundance h)).
Proof.
  destruct (harmonise no_log (demo_harmoniser 0) demo_runs) as [h|e] eqn:E;
    [|vm_compute in E; discriminate].
  exists h. split; [reflexivity|].
  destruct (harmonise_output_shape _ _ _ _ E) as (Hwf & Hnd & _).
  split; assumption.
Defined.

(** X6.  When no run id holds a colon, every run label of a successful
    harmonisation is the id of one of the runs that were passed in. *)
Theorem harmonise_run_labels_are_run_ids
    (log : Q -> Q) (self : Harmoniser) (runs : list RunData)
    (h : HarmonisedData) :
  Forall (fun run => colon_free (run_id run) = true) runs ->
  harmonise log self runs = Ok h ->
  Forall (fun lbl => exists run, run ∈ runs /\ lbl = run_id run)
         (run_labels h).
Proof.
  intros Hids Hok.
  destruct (harmonise_stages _ _ _ _ Hok)
    as (aligned & sampled & normalised & _ & Hal & Hs & Hidx & _
        & _ & Hout & Hlab & _).
  destruct (processed_tables self runs) as (_ & _ & Hlbl).
  destruct (align_taxa_ok _ _ Hal) as (_ & _ & _ & Haidx & _).
  assert (Haligned : Forall (fun lbl => exists run s,
                      run ∈ runs /\ lbl = run_id run ++ ":" ++ s)
                     (index aligned)).
  { rewrite Haidx. apply Forall_concat_rows.
    rewrite Forall_fmap. exact Hlbl. }
  assert (Hsub : index sampled `sublist_of` index aligned).
  { rewrite Hs. destruct (String.eqb (sample_align self) "intersection").
    - apply align_samples_intersection_frame.
    - reflexivity. }
  destruct (filter_taxa_frame self normalised) as (Hfi & _).
  rewrite Hlab, Hout, Hfi, Hidx, Forall_fmap.
  apply Forall_forall. intros lbl Hin. simpl.
  rewrite Forall_forall in Haligned. rewrite Forall_forall in Hids.
  destruct (Haligned lbl (elem_of_sublist _ _ _ Hin Hsub))
    as (run & s & Hrun & ->).
  exists run. split; [exact Hrun|].
  apply row_label_round_trip. apply Hids. exact Hrun.
Qed.

Lemma harmonise_run_labels_are_run_ids_witness :
  exists h : HarmonisedData,
    harmonise no_log (demo_harmoniser 0) demo_runs = Ok h
    /\ Forall (fun lbl => exists run, run ∈ demo_runs /\ lbl = run_id run)
              (run_labels h).
Proof.
  destruct (harmonise no_log (demo_harmoniser 0) demo_runs) as [h|e] eqn:E;
    [|vm_compute in E; discriminate].
  exists h. split; [reflexivity|].
  apply (harmonise_run_labels_are_run_ids no_log (demo_harmoniser 0)
           demo_runs h); [|exact E].
  repeat constructor.
Defined.

(** X7.  With two or more runs of which none has usable data (the table is
    missing or has no rows or no columns), [harmonise] raises the
    [ValueError] "No valid abundance data in any run". *)
Theorem harmonise_without_usable_data
    (log : Q -> Q) (self : Harmoniser) (runs : list RunData) :
  (2 <= length runs)%nat ->
  Forall (fun run => match abundance_table run with
                     | None => True
                     | Some table => df_empty table = true
                     end) runs ->
  harmonise log self runs
  = Raise (ValueError "No valid abundance data in any run").
Proof.
  intros Hlen Hskip. unfold harmonise.
  replace (length runs <? 2)%nat with false
    by (symmetry; apply Nat.ltb_ge; exact Hlen).
  assert (Hnone : omap (process_run self) runs = []).
  { clear Hlen. induction Hskip as [|run runs Hrun _ IH]; [reflexivity|].
    simpl. unfold process_run at 1.
    destruct (abundance_table run) as [table|]; [rewrite Hrun|]; exact IH. }
  rewrite Hnone. reflexivity.
Qed.

Lemma harmonise_without_usable_data_witness :
  harmonise no_log (demo_harmoniser 0)
            [mkRun "A" None None; mkRun "B" (Some (mkDF [] ["X"] [])) None]
  = Raise (ValueError "No valid abundance data in any run").
Proof.
  apply (harmonise_without_usable_data no_log (demo_harmoniser 0)).
  - simpl. lia.
  - repeat constructor.
Defined.

(* ================================================================== *)
(** * The taxon alignment *)
(* ================================================================== *)

Lemma Qsum_app (l k : list Q) : (Qsum (l ++ k) == Qsum l + Qsum k)%Q.
Proof.
  induction l as [|x l IH]; simpl; [ring|]. rewrite IH. ring.
Qed.

Lemma Qsum_Permutation (l k : list Q) :
  l ≡ₚ k -> (Qsum l == Qsum k)%Q.
Proof.
  induction 1 as [|x l k _ IH|x y l|l k m _ IH1 _ IH2]; simpl.
  - reflexivity.
  - rewrite IH. reflexivity.
  - ring.
  - rewrite IH1. exact IH2.
Qed.

Lemma label_pos_lookup (cols : list string) (j : nat) (x : string) :
  NoDup cols -> cols !! j = Some x -> label_pos x cols = Some j.
Proof.
  intros Hnd Hj. unfold label_pos.
  destruct (list_find (fun l => l = x) cols) as [[i y]|] eqn:E.
  - apply list_find_Some in E as (Hi & -> & _). simpl. f_equal.
    exact (NoDup_lookup _ _ _ _ Hnd Hi Hj).
  - apply list_find_None in E. rewrite Forall_forall in E.
    exfalso. apply (E x); [|reflexivity].
    eapply list_elem_of_lookup_2. exact Hj.
Qed.

Lemma label_pos_absent (cols : list string) (x : string) :
  x ∉ cols -> label_pos x cols = None.
Proof.
  intros Hx. unfold label_pos.
  destruct (list_find (fun l => l = x) cols) as [[i y]|] eqn:E;
    [|reflexivity].
  apply list_find_Some in E as (Hi & -> & _).
  exfalso. apply Hx. eapply list_elem_of_lookup_2. exact Hi.
Qed.

Lemma reindexed_own_columns (cols : list string) (row : list Q) :
  NoDup cols -> length row = length cols ->
  map (reindexed_cell cols row) cols = row.
Proof.
  intros Hnd Hlen. apply list_eq. intros j.
  rewrite list_lookup_fmap.
  destruct (cols !! j) as [x|] eqn:Ej; simpl.
  - unfold reindexed_cell. rewrite (label_pos_lookup _ _ _ Hnd Ej).
    destruct (row !! j) as [v|] eqn:Er; [reflexivity|].
    apply lookup_ge_None in Er. apply lookup_lt_Some in Ej. lia.
  - symmetry. apply lookup_ge_None. apply lookup_ge_None in Ej. lia.
Qed.

Lemma Qsum_filter_split (g : string -> Q) (P : string -> Prop)
    `{forall x, Decision (P x)} (l : list string) :
  (Qsum (map g l)
   == Qsum (map g (filter P l))
      + Qsum (map g (filter (fun x => ~ P x) l)))%Q.
Proof.
  induction l as [|x l IH]; simpl; [ring|].
  rewrite !filter_cons.
  destruct (decide (P x)) as [Hp|Hp].
  - rewrite decide_False by (intros Hn; exact (Hn Hp)).
    simpl. rewrite IH. ring.
  - rewrite decide_True by exact Hp. simpl. rewrite IH. ring.
Qed.

(** Re-indexing a row onto a duplicate-free target that holds all of its
    columns keeps the total of the row. *)
Lemma reindexed_row_total (cols target : list string) (row : list Q) :
  NoDup cols -> NoDup target -> cols ⊆ target ->
  length row = length cols ->
  (Qsum (map (reindexed_cell cols row) target) == Qsum row)%Q.
Proof.
  intros Hnd Hnt Hsub Hlen.
  rewrite (Qsum_filter_split _ (fun x => x ∈ cols)).
  assert (Hperm : filter (fun x => x ∈ cols) target ≡ₚ cols).
  { apply NoDup_Permutation; [apply NoDup_filter; exact Hnt|exact Hnd|].
    intros x. rewrite list_elem_of_filter. split; [tauto|].
    intros Hx. split; [exact Hx | apply Hsub; exact Hx]. }
  rewrite (Qsum_Permutation _ (map (reindexed_cell cols row) cols))
    by (rewrite Hperm; reflexivity).
  rewrite (reindexed_own_columns _ _ Hnd Hlen).
  rewrite (Qsum_zeros (map _ (filter (fun x => x ∉ cols) target))); [ring|].
  rewrite Forall_fmap. apply Forall_forall. intros x Hx. simpl.
  apply list_elem_of_filter in Hx as [Hx _].
  unfold reindexed_cell. rewrite (label_pos_absent _ _ Hx). reflexivity.
Qed.

(** X8.  A successful taxon alignment of rectangular tables has as its
    columns the union of the tables' columns, in ascending order and
    without repetition; its rows are the rows of the tables in the order of
    the tables, each padded with zeros so that its total is unchanged. *)
Theorem align_taxa_union_zero_filled
    (dfs : list DataFrame) (aligned : DataFrame) :
  Forall well_formed dfs ->
  _align_taxa dfs = Ok aligned ->
  StronglySorted String.le (columns aligned)
  /\ NoDup (columns aligned)
  /\ (forall x, x ∈ columns aligned
                <-> exists df, df ∈ dfs /\ x ∈ columns df)
  /\ index aligned = concat (map index dfs)
  /\ Forall2 (fun row row' => (Qsum row' == Qsum row)%Q)
             (concat (map values dfs)) (values aligned).
Proof.
  intros Hwf Hal.
  destruct (align_taxa_ok _ _ Hal) as (Hnd & Hs & Hunion & Hidx & _).
  split; [exact Hs|]. split; [exact Hnd|]. split; [exact Hunion|].
  split; [exact Hidx|].
  assert (Hcols : forall df, df ∈ dfs -> columns df ⊆ columns aligned).
  { intros df Hdf x Hx. apply Hunion. exists df. split; assumption. }
  revert Hnd Hcols. clear Hs Hunion Hidx.
  unfold _align_taxa in Hal.
  set (target := sorted_labels _) in Hal. clearbody target.
  destruct (mapM_result _ dfs) as [adfs|e] eqn:E; simpl in Hal;
    [|discriminate].
  apply pd_concat_ok in Hal as ->. simpl. intros Hnd Hcols.
  apply mapM_result_ok in E.
  induction E as [|df adf dfs adfs Hr _ IH]; simpl; [constructor|].
  apply Forall_cons in Hwf as [[_ Hcells] Hwf].
  apply Forall2_app.
  - unfold reindex_columns in Hr.
    destruct (bool_decide (NoDup (columns df))) eqn:Ed; [|discriminate].
    apply bool_decide_eq_true in Ed. injection Hr as <-. simpl.
    apply Forall2_fmap_r. apply Forall2_same_length_lookup.
    split; [reflexivity|]. intros i row row' Hrow Hrow'.
    rewrite Hrow in Hrow'. injection Hrow' as <-.
    apply (reindexed_row_total (columns df) target row Ed Hnd).
    + apply Hcols. left.
    + rewrite Forall_forall in Hcells. apply Hcells.
      eapply list_elem_of_lookup_2. exact Hrow.
  - apply IH; [exact Hwf|]. intros df' Hdf'. apply Hcols. right.
    exact Hdf'.
Qed.

Lemma align_taxa_union_zero_filled_witness :
  exists aligned : DataFrame,
    _align_taxa [demo_table_A; demo_table_B] = Ok aligned
    /\ NoDup (columns aligned).
Proof.
  destruct (_align_taxa [demo_table_A; demo_table_B]) as [a|e] eqn:E;
    [|vm_compute in E; discriminate].
  exists a. split; [reflexivity|].
  apply (align_taxa_union_zero_filled [demo_table_A; demo_table_B] a);
    [|exact E].
  repeat constructor.
Defined.

Lemma mapM_result_raises {A B} (f : A -> result B) (l : list A) :
  Exists (fun x => exists e, f x = Raise e) l ->
  exists e, mapM_result f l = Raise e.
Proof.
  induction 1 as [x l [e Hx]|x l _ [e IH]]; cbn [mapM_result].
  - rewrite Hx. eexists. reflexivity.
  - destruct (f x) as [y|e']; cbn [rbind]; [|eexists; reflexivity].
    rewrite IH. eexists. reflexivity.
Qed.

(** X9.  If the table of some usable run carries a column label twice
    after the name cleaning, the alignment cannot re-index it and
    [harmonise] raises an error instead of returning a matrix. *)
Theorem harmonise_rejects_colliding_names
    (log : Q -> Q) (self : Harmoniser) (runs : list RunData) :
  (2 <= length runs)%nat ->
  Exists (fun run => exists df mapping labels,
            process_run self run = Some (df, mapping, labels)
            /\ ~ NoDup (columns df)) runs ->
  exists e : PyError, harmonise log self runs = Raise e.
Proof.
  intros Hlen Hdup. unfold harmonise.
  replace (length runs <? 2)%nat with false
    by (symmetry; apply Nat.ltb_ge; exact Hlen).
  destruct (length _ =? 0)%nat; [eexists; reflexivity|].
  assert (Hraise : exists e,
            _align_taxa (map (fun p => p.1.1)
                             (omap (process_run self) runs)) = Raise e).
  { unfold _align_taxa. set (target := sorted_labels _). clearbody target.
    assert (Hm : exists e,
              mapM_result (reindex_columns target)
                (map (fun p => p.1.1) (omap (process_run self) runs))
              = Raise e).
    { apply mapM_result_raises. apply Exists_exists.
      apply Exists_exists in Hdup
        as (run & Hrun & df & mapping & labels & Hp & Hnd).
      exists df. split.
      - apply list_elem_of_fmap. exists (df, mapping, labels).
        split; [reflexivity|]. apply list_elem_of_omap.
        exists run. split; assumption.
      - unfold reindex_columns.
        rewrite bool_decide_eq_false_2 by exact Hnd.
        eexists. reflexivity. }
    destruct Hm as [e ->]. simpl. eexists. reflexivity. }
  destruct Hraise as [e ->]. simpl. eexists. reflexivity.
Qed.

Lemma harmonise_rejects_colliding_names_witness :
  exists e : PyError,
    harmonise no_log (demo_harmoniser 0) colliding_runs = Raise e.
Proof.
  apply (harmonise_rejects_colliding_names no_log (demo_harmoniser 0)
           colliding_runs).
  - simpl. lia.
  - apply Exists_cons_hd.
    eexists _, _, _. split; [vm_compute; reflexivity|].
    intros Hnd. apply NoDup_cons in Hnd as [Hnotin _].
    apply Hnotin. left.
Defined.

(* ================================================================== *)
(** * The sample alignment and the normalisations *)
(* ================================================================== *)

(** X10.  The intersection alignment returns a sub-selection of the rows
    with all the columns, in their order, and never returns a table without
    rows when it was given rows: if no bare sample id occurs often enough
    it keeps every row. *)
Theorem intersection_alignment_keeps_rows
    (df : DataFrame) (runs : list RunData) :
  index df <> [] ->
  columns (_align_samples_intersection df runs) = columns df
  /\ index (_align_samples_intersection df runs) `sublist_of` index df
  /\ values (_align_samples_intersection df runs) `sublist_of` values df
  /\ index (_align_samples_intersection df runs) <> [].
Proof.
  intros Hne.
  destruct (align_samples_intersection_frame df runs)
    as (Hc & Hi & Hv & _ & _ & Hn).
  repeat split; auto.
Qed.

Lemma intersection_alignment_keeps_rows_witness :
  index (_align_samples_intersection partly_shared_table []) <> [].
Proof.
  apply (intersection_alignment_keeps_rows partly_shared_table []).
  discriminate.
Defined.

Lemma Qsum_nonneg (row : list Q) :
  Forall (fun x => (0 <= x)%Q) row -> (0 <= Qsum row)%Q.
Proof.
  induction 1 as [|x row Hx _ IH]; simpl; lra.
Qed.

Lemma Qsum_ge_entry (row : list Q) (x : Q) :
  Forall (fun y => (0 <= y)%Q) row -> x ∈ row -> (x <= Qsum row)%Q.
Proof.
  induction 1 as [|y row Hy Hrow IH]; intros Hx; [inversion Hx|].
  simpl. pose proof (Qsum_nonneg row Hrow).
  apply elem_of_cons in Hx as [->|Hx]; [lra|].
  specialize (IH Hx). lra.
Qed.

(** X11.  On a table without negative entries, the relative normalisation
    returns proportions: every entry of the result lies between 0 and
    1. *)
Theorem normalise_relative_proportions (df : DataFrame) :
  nonneg_rows (values df) ->
  Forall (Forall (fun x => (0 <= x)%Q /\ (x <= 1)%Q))
         (values (_normalise_relative df)).
Proof.
  intros Hnn. simpl. rewrite Forall_fmap.
  eapply Forall_impl; [exact Hnn|]. intros row Hrow. simpl.
  unfold normalise_row. rewrite Forall_fmap.
  pose proof (Qsum_nonneg row Hrow) as Hsum.
  apply Forall_forall. intros x Hx. simpl.
  pose proof (Qsum_ge_entry row x Hrow Hx) as Hle.
  rewrite Forall_forall in Hrow. specialize (Hrow x Hx).
  destruct (Qeq_bool (Qsum row) 0) eqn:E.
  - apply Qeq_bool_true in E.
    assert (Hx1 : (x / 1 == x)%Q) by (unfold Qdiv; field).
    rewrite Hx1. split; lra.
  - apply Qeq_bool_false in E.
    assert (Hpos : (0 < Qsum row)%Q).
    { destruct (Qlt_le_dec 0 (Qsum row)) as [H|H]; [exact H|].
      exfalso. apply E. lra. }
    split.
    + apply Qle_shift_div_l; [exact Hpos|]. lra.
    + apply Qle_shift_div_r; [exact Hpos|]. lra.
Qed.

Lemma normalise_relative_proportions_witness :
  Forall (Forall (fun x => (0 <= x)%Q /\ (x <= 1)%Q))
         (values (_normalise_relative demo_table_A)).
Proof.
  apply (normalise_relative_proportions demo_table_A).
  repeat constructor; vm_compute; discriminate.
Defined.

Lemma Qsum_shift (c : Q) (l : list Q) :
  (Qsum (map (fun x => x - c) l) == Qsum l - Qof_nat (length l) * c)%Q.
Proof.
  induction l as [|x l IH].
  - simpl. unfold Qof_nat. simpl. ring.
  - cbn [map Qsum fold_right length]. 
    change (fold_right Qplus 0%Q ?k) with (Qsum k).
    rewrite IH, Qof_nat_S. ring.
Qed.

(** X12.  Whatever the logarithm, every row of the centred log-ratio
    normalisation sums to zero. *)
Theorem normalise_clr_rows_sum_to_zero (log : Q -> Q) (df : DataFrame) :
  Forall (fun row => (Qsum row == 0)%Q) (values (_normalise_clr log df)).
Proof.
  simpl. rewrite Forall_fmap. apply Forall_forall. intros row _. simpl.
  unfold clr_row.
  set (log_row := map (fun x => log (x + (1 # 2))%Q) row).
  rewrite Qsum_shift.
  destruct log_row as [|y rest] eqn:E.
  - simpl. unfold Qof_nat. simpl. ring.
  - assert (Hn : ~ (Qof_nat (length (y :: rest)) == 0)%Q).
    { unfold Qof_nat, Qeq. simpl. lia. }
    field. exact Hn.
Qed.

Lemma divide_by_one (l : list Q) (s : Q) :
  (s == 1)%Q -> Forall2 Qeq (map (fun x => x / s)%Q l) l.
Proof.
  intros Hs. induction l as [|x l IH]; simpl; constructor; [|exact IH].
  rewrite Hs. unfold Qdiv. field.
Qed.

(** The relative normalisation is idempotent, entry by entry. *)
Lemma normalise_row_idempotent (row : list Q) :
  Forall2 Qeq (normalise_row (normalise_row row)) (normalise_row row).
Proof.
  destruct (normalise_row_sum row) as [[_ H1]|[_ H0]].
  - unfold normalise_row at 1.
    assert (E : Qeq_bool (Qsum (normalise_row row)) 0 = false).
    { apply Qeq_bool_false. rewrite H1. discriminate. }
    rewrite E. apply divide_by_one. exact H1.
  - unfold normalise_row at 1.
    rewrite (proj2 (Qeq_bool_true _ _) H0).
    apply divide_by_one. reflexivity.
Qed.

(** X13.  Normalising an already normalised table changes no entry. *)
Theorem normalise_relative_idempotent (df : DataFrame) :
  Forall2 (Forall2 Qeq)
          (values (_normalise_relative (_normalise_relative df)))
          (values (_normalise_relative df)).
Proof.
  simpl. apply Forall2_fmap_l. apply Forall2_same_length_lookup.
  split; [reflexivity|]. intros i row row' Hrow Hrow'.
  rewrite Hrow in Hrow'. injection Hrow' as <-.
  apply list_lookup_fmap_Some in Hrow as (raw & -> & _).
  apply normalise_row_idempotent.
Qed.

(* ================================================================== *)
(** * The taxon filter *)
(* ================================================================== *)

Lemma select_by_own_mask {A} (test : A -> bool) (l : list A) :
  Forall (fun x => test x = true) (select_by_mask (map test l) l).
Proof.
  induction l as [|x l IH]; simpl; [constructor|].
  destruct (test x) eqn:E; [constructor; assumption | exact IH].
Qed.

Lemma select_by_mask_all_true {A} (mask : list bool) (l : list A) :
  Forall (fun b => b = true) mask -> length mask = length l ->
  select_by_mask mask l = l.
Proof.
  intros Hall. revert l. induction Hall as [|b mask -> _ IH];
    intros [|x l] Hlen; try discriminate; [reflexivity|].
  simpl. f_equal. apply IH. injection Hlen as Hlen. exact Hlen.
Qed.

Lemma select_columns_all_true (mask : list bool) (df : DataFrame) :
  well_formed df -> Forall (fun b => b = true) mask ->
  length mask = ncols df -> select_columns mask df = df.
Proof.
  intros [_ Hcells] Hall Hlen. destruct df as [idx cols rows].
  unfold select_columns, ncols in *. simpl in *. f_equal.
  - apply select_by_mask_all_true; assumption.
  - induction Hcells as [|row rows Hrow _ IH]; simpl; [reflexivity|].
    f_equal; [|exact IH]. apply select_by_mask_all_true; [exact Hall|].
    congruence.
Qed.

(** The column vectors that survive a threshold test all pass it. *)
Lemma column_mask_survivors (stat : list Q -> option Q) (threshold : Q)
    (df : DataFrame) :
  well_formed df ->
  let out := select_columns (column_mask stat threshold df) df in
  Forall (fun col => keep_ge threshold (stat col) = true)
         (col_vectors (ncols out) (values out)).
Proof.
  intros [_ Hcells] out. subst out. unfold select_columns, ncols. simpl.
  rewrite (col_vectors_select _ (columns df) (values df)).
  - unfold column_mask. rewrite length_map, col_vectors_length.
    apply (select_by_own_mask (fun col => keep_ge threshold (stat col))).
  - rewrite column_mask_length. reflexivity.
  - rewrite column_mask_length. exact Hcells.
Qed.

(** Dropping further columns keeps a test that all columns pass. *)
Lemma column_test_after_select (test : list Q -> bool) (mask : list bool)
    (df : DataFrame) :
  well_formed df -> length mask = ncols df ->
  Forall (fun col => test col = true)
         (col_vectors (ncols df) (values df)) ->
  Forall (fun col => test col = true)
         (col_vectors (ncols (select_columns mask df))
                      (values (select_columns mask df))).
Proof.
  intros [_ Hcells] Hlen Hall. unfold select_columns, ncols in *. simpl.
  rewrite (col_vectors_select mask (columns df) (values df));
    [|congruence|rewrite Hlen; exact Hcells].
  rewrite Hlen. rewrite Forall_forall in Hall. apply Forall_forall.
  intros col Hcol. apply Hall.
  eapply elem_of_sublist; [exact Hcol|]. apply select_by_mask_sublist.
Qed.

Lemma filter_taxa_survivors (self : Harmoniser) (df : DataFrame) :
  well_formed df ->
  let out := _filter_taxa self df in
  (Qlt_bool 0 (min_prevalence self) = true ->
   Forall (fun col => keep_ge (min_prevalence self) (prevalence col) = true)
          (col_vectors (ncols out) (values out)))
  /\ (Qlt_bool 0 (min_mean_abundance self) = true ->
      Forall (fun col => keep_ge (min_mean_abundance self) (Qmean col)
                         = true)
             (col_vectors (ncols out) (values out))).
Proof.
  intros Hwf out. subst out.
  unfold _filter_taxa, abundance_filter, prevalence_filter.
  destruct (Qlt_bool 0 (min_prevalence self)) eqn:Ep;
    destruct (Qlt_bool 0 (min_mean_abundance self)) eqn:Em;
    (split; intros Hon; try discriminate Hon).
  - set (df1 := select_columns _ df).
    assert (Hwf1 : well_formed df1)
      by (apply select_columns_well_formed; exact Hwf).
    pose proof (column_mask_survivors prevalence (min_prevalence self) df
                  Hwf) as Hp. fold df1 in Hp.
    exact (column_test_after_select
             (fun col => keep_ge (min_prevalence self) (prevalence col))
             (column_mask Qmean (min_mean_abundance self) df1) df1
             Hwf1 (column_mask_length _ _ _) Hp).
  - apply (column_mask_survivors Qmean).
    apply select_columns_well_formed. exact Hwf.
  - apply (column_mask_survivors prevalence). exact Hwf.
  - apply (column_mask_survivors Qmean). exact Hwf.
Qed.

(** X14.  In the table the taxon filter returns for a rectangular table,
    every remaining taxon meets each threshold that is switched on: its
    prevalence is at least [min_prevalence] when that is positive, and its
    mean is at least [min_mean_abundance] when that is positive. *)
Theorem filter_taxa_survivors_meet_thresholds
    (self : Harmoniser) (df : DataFrame) :
  well_formed df ->
  let out := _filter_taxa self df in
  Forall (fun col =>
            ((0 < min_prevalence self)%Q ->
             exists v, prevalence col = Some v
                       /\ (min_prevalence self <= v)%Q)
            /\ ((0 < min_mean_abundance self)%Q ->
                exists v, Qmean col = Some v
                          /\ (min_mean_abundance self <= v)%Q))
         (col_vectors (ncols out) (values out)).
Proof.
  intros Hwf out.
  assert (Hkeep : forall t (stat : list Q -> option Q) col,
            keep_ge t (stat col) = true ->
            exists v, stat col = Some v /\ (t <= v)%Q).
  { intros t stat col Hk. unfold keep_ge in Hk.
    destruct (stat col) as [v|]; [|discriminate].
    exists v. split; [reflexivity|]. apply Qle_bool_iff. exact Hk. }
  destruct (filter_taxa_survivors self df Hwf) as [Hp Hm]. fold out in Hp, Hm.
  apply Forall_forall. intros col Hcol. split; intros Hpos.
  - apply Qlt_bool_true in Hpos. specialize (Hp Hpos).
    rewrite Forall_forall in Hp. apply (Hkeep _ prevalence), Hp, Hcol.
  - apply Qlt_bool_true in Hpos. specialize (Hm Hpos).
    rewrite Forall_forall in Hm. apply (Hkeep _ Qmean), Hm, Hcol.
Qed.

Lemma filter_taxa_survivors_meet_thresholds_witness :
  Forall (fun col =>
            ((0 < 1 # 2)%Q ->
             exists v, prevalence col = Some v /\ (1 # 2 <= v)%Q)
            /\ ((0 < 0)%Q ->
                exists v, Qmean col = Some v /\ (0 <= v)%Q))
         (col_vectors
            (ncols (_filter_taxa (demo_harmoniser (1 # 2))
                                 filter_demo_table))
            (values (_filter_taxa (demo_harmoniser (1 # 2))
                                  filter_demo_table))).
Proof.
  apply (filter_taxa_survivors_meet_thresholds (demo_harmoniser (1 # 2))
           filter_demo_table).
  split; [reflexivity|]. repeat constructor.
Defined.

Lemma filter_block_idempotent (stat : list Q -> option Q) (threshold : Q)
    (df : DataFrame) :
  well_formed df ->
  Forall (fun col => keep_ge threshold (stat col) = true)
         (col_vectors (ncols df) (values df)) ->
  select_columns (column_mask stat threshold df) df = df.
Proof.
  intros Hwf Hall. apply select_columns_all_true;
    [exact Hwf| |apply column_mask_length].
  unfold column_mask. rewrite Forall_fmap. exact Hall.
Qed.

(** X15.  On a rectangular table the taxon filter is idempotent: filtering
    a filtered table again removes nothing. *)
Theorem filter_taxa_idempotent (self : Harmoniser) (df : DataFrame) :
  well_formed df ->
  _filter_taxa self (_filter_taxa self df) = _filter_taxa self df.
Proof.
  intros Hwf.
  pose proof (filter_taxa_survivors self df Hwf) as [Hp Hm].
  destruct (filter_taxa_frame self df) as (_ & _ & Hwf').
  specialize (Hwf' Hwf).
  set (out := _filter_taxa self df) in *.
  unfold _filter_taxa at 1, abundance_filter, prevalence_filter.
  destruct (Qlt_bool 0 (min_prevalence self)) eqn:Ep.
  - rewrite (filter_block_idempotent _ _ out Hwf' (Hp eq_refl)).
    destruct (Qlt_bool 0 (min_mean_abundance self)) eqn:Em;
      [|reflexivity].
    apply (filter_block_idempotent _ _ out Hwf' (Hm eq_refl)).
  - destruct (Qlt_bool 0 (min_mean_abundance self)) eqn:Em;
      [|reflexivity].
    apply (filter_block_idempotent _ _ out Hwf' (Hm eq_refl)).
Qed.

Lemma filter_taxa_idempotent_witness :
  _filter_taxa (demo_harmoniser (1 # 2))
               (_filter_taxa (demo_harmoniser (1 # 2)) filter_demo_table)
  = _filter_taxa (demo_harmoniser (1 # 2)) filter_demo_table.
Proof.
  apply (filter_taxa_idempotent (demo_harmoniser (1 # 2))
           filter_demo_table).
  split; [reflexivity|]. repeat constructor.
Defined.

Lemma aggregation_keeps_sample_totals_witness :
  NoDup (columns (aggregate_run (demo_harmoniser 0)
                    (mkRun "A" (Some demo_table_A) None) demo_table_A).1).
Proof.
  apply (aggregation_keeps_sample_totals (demo_harmoniser 0)
           (mkRun "A" (Some demo_table_A) None) demo_table_A).
  - split; [reflexivity|]. repeat constructor.
  - apply (bool_decide_unpack _). vm_compute. exact I.
Defined.

(* ================================================================== *)
(** * Further properties of the beta diversity matrix *)
(* ================================================================== *)

Lemma braycurtis_terms_nonneg (u v : list Q) :
  Forall (fun x => (0 <= x)%Q) u -> Forall (fun x => (0 <= x)%Q) v ->
  length u = length v ->
  (Qsum (zip_with (fun a b => Qabs (a + b)) u v) == Qsum u + Qsum v)%Q
  /\ (Qsum (zip_with (fun a b => Qabs (a - b)) u v)
      <= Qsum (zip_with (fun a b => Qabs (a + b)) u v))%Q.
Proof.
  intros Hu. revert v. induction Hu as [|a u Ha _ IH];
    intros v Hv Hlen; destruct Hv as [|b v Hb Hv]; try discriminate.
  - simpl. split; lra.
  - injection Hlen as Hlen. destruct (IH v Hv Hlen) as [IH1 IH2].
    cbn [zip_with Qsum fold_right].
    change (fold_right Qplus 0%Q ?k) with (Qsum k).
    assert (Hplus : (Qabs (a + b) == a + b)%Q)
      by (apply Qabs_pos; lra).
    assert (Hminus : (Qabs (a - b) <= a + b)%Q).
    { apply Qabs_case; intros; lra. }
    rewrite Hplus, IH1. split; [ring|].
    rewrite IH1 in IH2. lra.
Qed.

(** X16.  In the beta diversity matrix of a rectangular table without
    negative entries, the entry of two samples is NaN when both samples
    have total zero, and otherwise a number between 0 and 1. *)
Theorem beta_distance_entry_range
    (df : DataFrame) (i j : nat) (u v : list Q) :
  well_formed df -> nonneg_rows (values df) ->
  (i < j)%nat -> values df !! i = Some u -> values df !! j = Some v ->
  ((Qsum u + Qsum v == 0)%Q
   /\ dist_at (beta_distance df) i j = Some NaN)
  \/ (~ (Qsum u + Qsum v == 0)%Q
      /\ exists q, dist_at (beta_distance df) i j = Some (Fin q)
                   /\ (0 <= q)%Q /\ (q <= 1)%Q).
Proof.
  intros [_ Hcells] Hnn Hij Hi Hj.
  rewrite (proj1 (beta_distance_entry df i j u v Hij Hi Hj)).
  unfold nonneg_rows in Hnn. rewrite Forall_forall in Hnn, Hcells.
  assert (Hu := Hnn u (list_elem_of_lookup_2 _ _ _ Hi)).
  assert (Hv := Hnn v (list_elem_of_lookup_2 _ _ _ Hj)).
  assert (Hlen : length u = length v).
  { rewrite (Hcells u (list_elem_of_lookup_2 _ _ _ Hi)).
    rewrite (Hcells v (list_elem_of_lookup_2 _ _ _ Hj)). reflexivity. }
  destruct (braycurtis_terms_nonneg u v Hu Hv Hlen) as [Hden Hnum].
  pose proof (Qsum_abs_nonneg Qminus u v) as Hn0.
  unfold braycurtis, fdiv.
  set (num := Qsum (zip_with (fun a b => Qabs (a - b)) u v)) in *.
  set (den := Qsum (zip_with (fun a b => Qabs (a + b)) u v)) in *.
  destruct (Qeq_bool den 0) eqn:Ed.
  - apply Qeq_bool_true in Ed. left. split; [lra|].
    assert (En : Qeq_bool num 0 = true) by (apply Qeq_bool_true; lra).
    rewrite En. reflexivity.
  - apply Qeq_bool_false in Ed. right. split; [lra|].
    pose proof (Qsum_nonneg u Hu). pose proof (Qsum_nonneg v Hv).
    assert (Hpos : (0 < den)%Q).
    { destruct (Qlt_le_dec 0 den) as [H'|H']; [exact H'|].
      exfalso. apply Ed. lra. }
    eexists. split; [reflexivity|]. split.
    + apply Qle_shift_div_l; [exact Hpos|]. lra.
    + apply Qle_shift_div_r; [exact Hpos|]. lra.
Qed.

Lemma beta_distance_entry_range_witness :
  exists q, dist_at (beta_distance demo_table_A) 0 1 = Some (Fin q)
            /\ (0 <= q)%Q /\ (q <= 1)%Q.
Proof.
  destruct (beta_distance_entry_range demo_table_A 0 1 [3; 1; 0]%Q
              [4; 0; 0]%Q) as [[Hz _]|[_ Hq]].
  - split; [reflexivity|]. repeat constructor.
  - repeat constructor; vm_compute; discriminate.
  - lia.
  - reflexivity.
  - reflexivity.
  - vm_compute in Hz. discriminate.
  - exact Hq.
Defined.

Lemma Qsum_abs_self_minus (u : list Q) :
  (Qsum (zip_with (fun a b => Qabs (a - b)) u u) == 0)%Q.
Proof.
  induction u as [|a u IH]; [reflexivity|].
  cbn [zip_with Qsum fold_right].
  change (fold_right Qplus 0%Q ?k) with (Qsum k).
  rewrite IH. assert (H : (a - a == 0)%Q) by ring.
  rewrite H. reflexivity.
Qed.

Lemma Qsum_abs_self_plus (u : list Q) :
  Exists (fun x => ~ (x == 0)%Q) u ->
  ~ (Qsum (zip_with (fun a b => Qabs (a + b)) u u) == 0)%Q.
Proof.
  induction 1 as [a u Ha|a u _ IH];
    cbn [zip_with Qsum fold_right];
    change (fold_right Qplus 0%Q ?k) with (Qsum k);
    pose proof (Qsum_abs_nonneg Qplus u u) as Hrest;
    pose proof (Qabs_nonneg (a + a)) as Hhead.
  - intros Hsum.
    assert (Hzero : (Qabs (a + a) == 0)%Q) by lra.
    apply Ha. revert Hzero. apply Qabs_case; intros; lra.
  - intros Hsum. apply IH. lra.
Qed.

(** X17.  Two samples with the same row, not all zero, are at distance 0
    in the beta diversity matrix. *)
Theorem beta_distance_of_equal_rows
    (df : DataFrame) (i j : nat) (u : list Q) :
  (i < j)%nat -> values df !! i = Some u -> values df !! j = Some u ->
  Exists (fun x => ~ (x == 0)%Q) u ->
  exists q, dist_at (beta_distance df) i j = Some (Fin q) /\ (q == 0)%Q.
Proof.
  intros Hij Hi Hj Hnz.
  rewrite (proj1 (beta_distance_entry df i j u u Hij Hi Hj)).
  unfold braycurtis, fdiv.
  rewrite (proj2 (Qeq_bool_false _ _) (Qsum_abs_self_plus u Hnz)).
  eexists. split; [reflexivity|].
  rewrite Qsum_abs_self_minus. unfold Qdiv. ring.
Qed.

Lemma beta_distance_of_equal_rows_witness :
  exists q,
    dist_at (beta_distance (mkDF ["a"; "b"] ["X"; "Y"]
                                 [[1; 2]; [1; 2]]%Q)) 0 1
    = Some (Fin q) /\ (q == 0)%Q.
Proof.
  apply (beta_distance_of_equal_rows _ 0 1 [1; 2]%Q).
  - lia.
  - reflexivity.
  - reflexivity.
  - apply Exists_cons_hd. vm_compute. discriminate.
Defined.

(* ================================================================== *)
(** * Properties of the similarity between runs *)
(* ================================================================== *)

Lemma py_unique_subset (l : list string) (x : string) :
  x ∈ py_unique l -> x ∈ l.
Proof.
  induction l as [|y l IH]; simpl; [trivial|].
  rewrite !elem_of_cons, list_elem_of_filter. intros [H|[_ H]]; auto.
Qed.

Lemma py_unique_NoDup (l : list string) : NoDup (py_unique l).
Proof.
  induction l as [|y l IH]; simpl; [constructor|].
  apply NoDup_cons. split.
  - rewrite list_elem_of_filter. intros [H _]. apply H. reflexivity.
  - apply NoDup_filter. exact IH.
Qed.

Lemma run_profile_length (df : DataFrame) (run_labels : list string)
    (run : string) :
  length (run_profile df run_labels run) = ncols df.
Proof.
  unfold run_profile. rewrite length_map. apply col_vectors_length.
Qed.

Lemma Qsum_abs_plus_ge (u v : list Q) :
  length u = length v ->
  (Qsum u + Qsum v <= Qsum (zip_with (fun a b => Qabs (a + b)) u v))%Q.
Proof.
  revert v. induction u as [|a u IH]; intros [|b v] Hlen;
    try discriminate.
  injection Hlen as Hlen. specialize (IH v Hlen).
  cbn [zip_with Qsum fold_right].
    change (fold_right Qplus 0%Q ?k) with (Qsum k) in *.
    pose proof (Qle_Qabs (a + b)). lra.
Qed.

Lemma Qsum_abs_swap (f : Q -> Q -> Q) (u v : list Q) :
  (forall a b, (Qabs (f a b) == Qabs (f b a))%Q) ->
  (Qsum (zip_with (fun a b => Qabs (f a b)) u v)
   == Qsum (zip_with (fun a b => Qabs (f a b)) v u))%Q.
Proof.
  intros Hf. revert v. induction u as [|a u IH]; intros [|b v];
    try reflexivity.
  cbn [zip_with Qsum fold_right].
  change (fold_right Qplus 0%Q ?k) with (Qsum k).
  rewrite (IH v), (Hf a b). reflexivity.
Qed.

Lemma fdiv_proper (a a' b b' : Q) :
  (a == a')%Q -> (b == b')%Q -> fval_eq (fdiv a b) (fdiv a' b').
Proof.
  intros Ha Hb. unfold fdiv.
  assert (E1 : Qeq_bool b 0 = Qeq_bool b' 0).
  { destruct (Qeq_bool b' 0) eqn:E.
    - apply Qeq_bool_true. apply Qeq_bool_true in E. lra.
    - apply Qeq_bool_false. apply Qeq_bool_false in E. lra. }
  assert (E2 : Qeq_bool a 0 = Qeq_bool a' 0).
  { destruct (Qeq_bool a' 0) eqn:E.
    - apply Qeq_bool_true. apply Qeq_bool_true in E. lra.
    - apply Qeq_bool_false. apply Qeq_bool_false in E. lra. }
  assert (E3 : Qle_bool a 0 = Qle_bool a' 0).
  { destruct (Qle_bool a' 0) eqn:E.
    - apply Qle_bool_iff. apply Qle_bool_iff in E. lra.
    - apply not_true_iff_false. apply not_true_iff_false in E.
      rewrite Qle_bool_iff in *. lra. }
  rewrite E1, E2, E3.
  destruct (Qeq_bool b' 0) eqn:E.
  - destruct (Qeq_bool a' 0); [exact I|].
    destruct (Qle_bool a' 0); exact I.
  - simpl. apply Qeq_bool_false in E. rewrite Ha, Hb. reflexivity.
Qed.

Lemma braycurtis_sym (u v : list Q) :
  fval_eq (braycurtis u v) (braycurtis v u).
Proof.
  unfold braycurtis. apply fdiv_proper.
  - apply (Qsum_abs_swap Qminus). intros a b.
    assert (H : (a - b == - (b - a))%Q) by ring.
    rewrite H. apply Qabs_opp.
  - apply (Qsum_abs_swap Qplus). intros a b.
    assert (H : (a + b == b + a)%Q) by ring.
    rewrite H. reflexivity.
Qed.

(** Under the guard on the two totals the Bray-Curtis quotient is a
    number: its denominator is positive. *)
Lemma guarded_similarity_finite (a1 a2 : list Q) (s : fval) :
  length a1 = length a2 ->
  guarded_similarity a1 a2 = Some s ->
  exists q, braycurtis a1 a2 = Fin q /\ s = Fin (1 - q).
Proof.
  intros Hlen. unfold guarded_similarity.
  destruct (Qlt_bool 0 (Qsum a1)) eqn:E1; [|discriminate].
  destruct (Qlt_bool 0 (Qsum a2)) eqn:E2; [|discriminate].
  simpl. intros [= <-].
  apply Qlt_bool_true in E1. apply Qlt_bool_true in E2.
  pose proof (Qsum_abs_plus_ge a1 a2 Hlen) as Hden.
  unfold braycurtis, fdiv.
  destruct (Qeq_bool _ 0) eqn:Ed.
  - apply Qeq_bool_true in Ed. lra.
  - eexists. split; reflexivity.
Qed.

Lemma pairwise_cell_finite (df : DataFrame) (run_labels : list string)
    (run1 run2 : string) :
  exists q, pairwise_cell df run_labels run1 run2 = Fin q.
Proof.
  unfold pairwise_cell. destruct (String.eqb run1 run2); [eauto|].
  destruct (guarded_similarity _ _) as [s|] eqn:E; [|simpl; eauto].
  apply guarded_similarity_finite in E as (q & _ & ->); [simpl; eauto|].
  rewrite !run_profile_length. reflexivity.
Qed.

Lemma guarded_similarity_sym (a1 a2 : list Q) :
  option_Forall2 fval_eq (guarded_similarity a1 a2)
                 (guarded_similarity a2 a1).
Proof.
  unfold guarded_similarity. rewrite (andb_comm (Qlt_bool 0 (Qsum a2))).
  destruct (_ && _); constructor.
  pose proof (braycurtis_sym a1 a2) as H.
  destruct (braycurtis a1 a2), (braycurtis a2 a1); simpl in *;
    try contradiction; try exact I.
  rewrite H. reflexivity.
Qed.

Lemma pairwise_cell_sym (df : DataFrame) (run_labels : list string)
    (run1 run2 : string) :
  fval_eq (pairwise_cell df run_labels run1 run2)
          (pairwise_cell df run_labels run2 run1).
Proof.
  unfold pairwise_cell. rewrite (String.eqb_sym run2 run1).
  destruct (String.eqb run1 run2); [simpl; reflexivity|].
  destruct (guarded_similarity_sym (run_profile df run_labels run1)
              (run_profile df run_labels run2)) as [x y Hxy|];
    simpl; [exact Hxy|reflexivity].
Qed.

Lemma pairwise_matrix_lookup (df : DataFrame) (run_labels : list string)
    (i j : nat) (r1 r2 : string) :
  (_compute_pairwise_similarity df run_labels).1 !! i = Some r1 ->
  (_compute_pairwise_similarity df run_labels).1 !! j = Some r2 ->
  ((_compute_pairwise_similarity df run_labels).2 !! i ≫= (.!! j))
  = Some (pairwise_cell df run_labels r1 r2).
Proof.
  unfold _compute_pairwise_similarity. cbn [fst snd]. intros Hi Hj.
  rewrite list_lookup_fmap, Hi. simpl.
  rewrite list_lookup_fmap, Hj. reflexivity.
Qed.

(** X18.  Every cell of the pairwise similarity matrix is a number (never
    NaN or infinite), the matrix is symmetric, and its diagonal is 1;
    this holds for every table, also one with negative entries. *)
Theorem pairwise_similarity_finite_symmetric
    (df : DataFrame) (run_labels : list string) (i j : nat)
    (r1 r2 : string) :
  (_compute_pairwise_similarity df run_labels).1 !! i = Some r1 ->
  (_compute_pairwise_similarity df run_labels).1 !! j = Some r2 ->
  exists q q' : Q,
    ((_compute_pairwise_similarity df run_labels).2 !! i ≫= (.!! j))
    = Some (Fin q)
    /\ ((_compute_pairwise_similarity df run_labels).2 !! j ≫= (.!! i))
       = Some (Fin q')
    /\ (q == q')%Q
    /\ (i = j -> q = 1%Q).
Proof.
  intros Hi Hj.
  rewrite (pairwise_matrix_lookup df run_labels i j r1 r2 Hi Hj).
  rewrite (pairwise_matrix_lookup df run_labels j i r2 r1 Hj Hi).
  destruct (pairwise_cell_finite df run_labels r1 r2) as [q Hq].
  destruct (pairwise_cell_finite df run_labels r2 r1) as [q' Hq'].
  pose proof (pairwise_cell_sym df run_labels r1 r2) as Hsym.
  exists q, q'. rewrite Hq, Hq' in *. repeat split; [exact Hsym|].
  intros ->. rewrite Hi in Hj. injection Hj as ->.
  unfold pairwise_cell in Hq. rewrite String.eqb_refl in Hq.
  congruence.
Qed.

Lemma pairwise_similarity_finite_symmetric_witness :
  exists q q' : Q,
    ((_compute_pairwise_similarity demo_table_A ["A"; "B"]).2 !! 0%nat
       ≫= (.!! 1%nat)) = Some (Fin q)
    /\ ((_compute_pairwise_similarity demo_table_A ["A"; "B"]).2 !! 1%nat
          ≫= (.!! 0%nat)) = Some (Fin q')
    /\ (q == q')%Q
    /\ (0%nat = 1%nat -> q = 1%Q).
Proof.
  apply (pairwise_similarity_finite_symmetric demo_table_A ["A"; "B"]
           0 1 "A" "B"); reflexivity.
Defined.

Lemma col_vectors_nonneg (n : nat) (rows : list (list Q)) :
  nonneg_rows rows -> nonneg_rows (col_vectors n rows).
Proof.
  unfold nonneg_rows. revert rows.
  induction n as [|n IH]; intros rows Hrows; simpl; [constructor|].
  constructor.
  - rewrite Forall_fmap. eapply Forall_impl; [exact Hrows|].
    intros [|x row] Hrow; simpl; [lra|].
    apply Forall_cons in Hrow as [Hx _]. exact Hx.
  - apply IH. rewrite Forall_fmap. eapply Forall_impl; [exact Hrows|].
    intros [|x row] Hrow; simpl; [constructor|].
    apply Forall_cons in Hrow as [_ Hrow]. exact Hrow.
Qed.

Lemma run_profile_nonneg (df : DataFrame) (run_labels : list string)
    (run : string) :
  nonneg_rows (values df) ->
  Forall (fun x => (0 <= x)%Q) (run_profile df run_labels run).
Proof.
  intros Hnn. unfold run_profile. rewrite Forall_fmap.
  assert (Hg : nonneg_rows (group_rows df run_labels run)).
  { unfold nonneg_rows, group_rows. rewrite Forall_fmap.
    apply Forall_forall. intros [l row] Hin. simpl.
    apply list_elem_of_filter in Hin as [_ Hin].
    apply elem_of_zip_r in Hin.
    unfold nonneg_rows in Hnn. rewrite Forall_forall in Hnn.
    apply Hnn. exact Hin. }
  eapply Forall_impl; [exact (col_vectors_nonneg _ _ Hg)|].
  intros col Hcol. simpl. destruct col as [|x col]; [simpl; lra|].
  cbn [Qmean default].
  pose proof (Qsum_nonneg _ Hcol) as Hs.
  apply Qle_shift_div_l; [|lra].
  change 0%Q with (Qof_nat 0). unfold Qof_nat. rewrite <- Zlt_Qlt.
  simpl. lia.
Qed.

(** X19.  For a table without negative entries every cell of the pairwise
    similarity matrix lies between 0 and 1. *)
Theorem pairwise_similarity_range
    (df : DataFrame) (run_labels : list string) (i j : nat)
    (r1 r2 : string) :
  nonneg_rows (values df) ->
  (_compute_pairwise_similarity df run_labels).1 !! i = Some r1 ->
  (_compute_pairwise_similarity df run_labels).1 !! j = Some r2 ->
  exists q : Q,
    ((_compute_pairwise_similarity df run_labels).2 !! i ≫= (.!! j))
    = Some (Fin q)
    /\ (0 <= q)%Q /\ (q <= 1)%Q.
Proof.
  intros Hnn Hi Hj.
  rewrite (pairwise_matrix_lookup df run_labels i j r1 r2 Hi Hj).
  unfold pairwise_cell. destruct (String.eqb r1 r2).
  { exists 1%Q. repeat split; lra. }
  set (a1 := run_profile df run_labels r1).
  set (a2 := run_profile df run_labels r2).
  assert (Hlen : length a1 = length a2)
    by (unfold a1, a2; rewrite !run_profile_length; reflexivity).
  destruct (guarded_similarity a1 a2) as [s|] eqn:E; simpl.
  2:{ exists 0%Q. repeat split; lra. }
  pose proof E as E'.
  apply guarded_similarity_finite in E as (q & Hq & ->); [|exact Hlen].
  exists (1 - q)%Q. split; [reflexivity|].
  destruct (braycurtis_terms_nonneg a1 a2
              (run_profile_nonneg df run_labels r1 Hnn)
              (run_profile_nonneg df run_labels r2 Hnn) Hlen)
    as [Hden Hnum].
  pose proof (Qsum_abs_nonneg Qminus a1 a2) as Hn0.
  unfold braycurtis, fdiv in Hq.
  set (num := Qsum (zip_with (fun a b => Qabs (a - b)) a1 a2)) in *.
  set (den := Qsum (zip_with (fun a b => Qabs (a + b)) a1 a2)) in *.
  destruct (Qeq_bool den 0) eqn:Ed.
  { destruct (Qeq_bool num 0); [discriminate|].
    destruct (Qle_bool num 0); discriminate. }
  injection Hq as <-. apply Qeq_bool_false in Ed.
  pose proof (Qsum_abs_nonneg Qplus a1 a2) as Hd0. fold den in Hd0.
  assert (Hpos : (0 < den)%Q).
  { destruct (Qlt_le_dec 0 den) as [H'|H']; [exact H'|].
    exfalso. apply Ed. lra. }
  assert (H0 : (0 <= num / den)%Q)
    by (apply Qle_shift_div_l; [exact Hpos|lra]).
  assert (H1 : (num / den <= 1)%Q)
    by (apply Qle_shift_div_r; [exact Hpos|lra]).
  split; lra.
Qed.

Lemma pairwise_similarity_range_witness :
  exists q : Q,
    ((_compute_pairwise_similarity demo_table_A ["A"; "B"]).2 !! 0%nat
       ≫= (.!! 1%nat)) = Some (Fin q)
    /\ (0 <= q)%Q /\ (q <= 1)%Q.
Proof.
  apply (pairwise_similarity_range demo_table_A ["A"; "B"] 0 1 "A" "B").
  - repeat constructor; vm_compute; discriminate.
  - reflexivity.
  - reflexivity.
Defined.

Lemma count_true_cons (b : bool) (m : list bool) :
  count_true (b :: m) = ((if b then 1 else 0) + count_true m)%nat.
Proof.
  unfold count_true. rewrite filter_cons.
  destruct b; simpl.
  - destruct (decide (true = true)); [reflexivity|congruence].
  - destruct (decide (false = true)); [discriminate|reflexivity].
Qed.

Lemma count_true_le_length (m : list bool) :
  (count_true m <= length m)%nat.
Proof. unfold count_true. apply length_filter. Qed.

(** Inclusion and exclusion for two masks of the same length. *)
Lemma count_true_and_or (p1 p2 : list bool) :
  length p1 = length p2 ->
  (count_true p1 + count_true p2
   = count_true (zip_with andb p1 p2) + count_true (zip_with orb p1 p2))%nat
  /\ (count_true (zip_with andb p1 p2)
      <= count_true (zip_with orb p1 p2))%nat.
Proof.
  revert p2. induction p1 as [|a p1 IH]; intros [|b p2] Hlen;
    try discriminate.
  - split; reflexivity.
  - injection Hlen as Hlen. destruct (IH p2 Hlen) as [IH1 IH2].
    cbn [zip_with]. rewrite !count_true_cons.
    destruct a, b; simpl; lia.
Qed.

Lemma presence_length (a : list Q) : length (presence a) = length a.
Proof. unfold presence. apply length_map. Qed.

Lemma Qof_nat_plus (a b : nat) :
  (Qof_nat (a + b) == Qof_nat a + Qof_nat b)%Q.
Proof.
  unfold Qof_nat. rewrite Nat2Z.inj_add, inject_Z_plus. reflexivity.
Qed.

Lemma Qof_nat_pos (n : nat) : (0 < n)%nat -> (0 < Qof_nat n)%Q.
Proof.
  intros H. change 0%Q with (inject_Z 0). unfold Qof_nat.
  rewrite <- Zlt_Qlt. lia.
Qed.

(** For one pair of profiles of the same length the Jaccard and the
    Sorensen value are recorded together, and in this order of size. *)
Lemma pair_jaccard_sorensen (a1 a2 : list Q) :
  length a1 = length a2 ->
  option_Forall2 (fun j s => (0 <= j)%Q /\ (j <= s)%Q /\ (s <= 1)%Q)
                 (pair_jaccard a1 a2) (pair_sorensen a1 a2).
Proof.
  intros Hlen. unfold pair_jaccard, pair_sorensen, jaccard_value,
    sorensen_value.
  destruct (count_true_and_or (presence a1) (presence a2)) as [Hsum Hle].
  { rewrite !presence_length. exact Hlen. }
  set (i := count_true (zip_with andb (presence a1) (presence a2))) in *.
  set (u := count_true (zip_with orb (presence a1) (presence a2))) in *.
  rewrite Hsum.
  destruct (0 <? u)%nat eqn:Eu.
  - apply Nat.ltb_lt in Eu.
    assert (Eiu : (0 <? i + u)%nat = true) by (apply Nat.ltb_lt; lia).
    rewrite Eiu. constructor.
    pose proof (Qof_nat_nonneg i) as Hi0.
    pose proof (Qof_nat_pos u Eu) as Hu0.
    pose proof (Qof_nat_le i u Hle) as Hiu.
    rewrite Qof_nat_plus.
    set (I := Qof_nat i) in *. set (U := Qof_nat u) in *.
    assert (Hsq : (I * I <= I * U)%Q).
    { assert (H0 : (0 <= I * (U - I))%Q)
        by (apply Qmult_le_0_compat; lra).
      assert (H1 : (I * (U - I) == I * U - I * I)%Q) by ring.
      lra. }
    assert (HJ : (I / U * (I + U) == I * I / U + I)%Q) by (field; lra).
    repeat split.
    + apply Qle_shift_div_l; [exact Hu0|lra].
    + apply Qle_shift_div_l; [lra|]. rewrite HJ.
      assert (Hq : (I * I / U <= I)%Q)
        by (apply Qle_shift_div_r; [exact Hu0|lra]).
      lra.
    + apply Qle_shift_div_r; lra.
  - apply Nat.ltb_ge in Eu.
    assert (Eiu : (0 <? i + u)%nat = false) by (apply Nat.ltb_ge; lia).
    rewrite Eiu. constructor.
Qed.

Lemma omap_Forall2 {A B C} (R : B -> C -> Prop) (f : A -> option B)
    (g : A -> option C) (l : list A) :
  (forall x, option_Forall2 R (f x) (g x)) ->
  Forall2 R (omap f l) (omap g l).
Proof.
  intros H. induction l as [|x l IH]; simpl; [constructor|].
  destruct (H x); [constructor; assumption|exact IH].
Qed.

Lemma Qsum_Forall2_le (l k : list Q) :
  Forall2 Qle l k -> (Qsum l <= Qsum k)%Q.
Proof.
  induction 1 as [|x y l k Hxy _ IH]; simpl; [lra|].
  change (fold_right Qplus 0%Q ?m) with (Qsum m). unfold Qsum in *. lra.
Qed.

Lemma Qsum_bounds (a b : Q) (l : list Q) :
  Forall (fun x => (a <= x)%Q /\ (x <= b)%Q) l ->
  (a * Qof_nat (length l) <= Qsum l)%Q
  /\ (Qsum l <= b * Qof_nat (length l))%Q.
Proof.
  induction 1 as [|x l [Hx1 Hx2] _ [IH1 IH2]].
  - simpl. change (Qof_nat 0) with 0%Q. split; lra.
  - cbn [length]. rewrite Qof_nat_S. unfold Qsum in *. simpl.
    split; lra.
Qed.

Lemma np_mean_bounds (a b : Q) (l : list Q) :
  l <> [] -> Forall (fun x => (a <= x)%Q /\ (x <= b)%Q) l ->
  (a <= np_mean l)%Q /\ (np_mean l <= b)%Q.
Proof.
  intros Hne Hall. destruct (Qsum_bounds a b l Hall) as [H1 H2].
  assert (Hpos : (0 < Qof_nat (length l))%Q).
  { apply Qof_nat_pos. destruct l; [congruence|simpl; lia]. }
  unfold np_mean. split.
  - apply Qle_shift_div_l; assumption.
  - apply Qle_shift_div_r; assumption.
Qed.

Lemma np_mean_le (l k : list Q) :
  l <> [] -> Forall2 Qle l k -> (np_mean l <= np_mean k)%Q.
Proof.
  intros Hne Hall. pose proof (Qsum_Forall2_le l k Hall) as Hs.
  pose proof (Forall2_length _ _ _ Hall) as Hlen.
  assert (Hpos : (0 < Qof_nat (length l))%Q).
  { apply Qof_nat_pos. destruct l; [congruence|simpl; lia]. }
  unfold np_mean. rewrite <- Hlen.
  apply Qle_shift_div_l; [exact Hpos|].
  assert (H : (Qsum l / Qof_nat (length l) * Qof_nat (length l)
               == Qsum l)%Q) by (field; lra).
  rewrite H. exact Hs.
Qed.

(** X20.  Whenever the similarity metrics report [jaccard_mean] they also
    report [sorensen_mean], and 0 <= jaccard_mean <= sorensen_mean <= 1. *)
Theorem similarity_jaccard_below_sorensen
    (spearmanr : list Q -> list Q -> option Q) (np_std : list Q -> Q)
    (df : DataFrame) (run_labels : list string) (j : Q) :
  metrics_get "jaccard_mean"
    (_compute_similarity_metrics spearmanr np_std df run_labels) = Some j ->
  exists s : Q,
    metrics_get "sorensen_mean"
      (_compute_similarity_metrics spearmanr np_std df run_labels) = Some s
    /\ (0 <= j)%Q /\ (j <= s)%Q /\ (s <= 1)%Q.
Proof.
  unfold _compute_similarity_metrics.
  destruct (length (py_unique run_labels) <? 2)%nat; [discriminate|].
  cbv zeta.
  set (profile := run_profile df run_labels).
  set (pairs := run_pairs (py_unique run_labels)).
  set (jl := omap (fun rr => pair_jaccard (profile rr.1) (profile rr.2))
                  pairs).
  set (sl := omap (fun rr => pair_sorensen (profile rr.1) (profile rr.2))
                  pairs).
  set (rl := omap _ pairs). set (bl := omap _ pairs).
  assert (Hrel : Forall2 (fun j s => (0 <= j)%Q /\ (j <= s)%Q /\ (s <= 1)%Q)
                         jl sl).
  { apply omap_Forall2. intros rr. apply pair_jaccard_sorensen.
    unfold profile. rewrite !run_profile_length. reflexivity. }
  pose proof (Forall2_length _ _ _ Hrel) as Hlen.
  destruct (0 <? length jl)%nat eqn:Ej.
  2:{ destruct (0 <? length sl)%nat, (0 <? length rl)%nat,
        (0 <? length bl)%nat; discriminate. }
  rewrite <- Hlen, Ej.
  apply Nat.ltb_lt in Ej.
  assert (Hne : jl <> []) by (destruct jl; [simpl in Ej; lia|congruence]).
  intros Hj. cbn in Hj. injection Hj as <-.
  exists (np_mean sl). split; [reflexivity|].
  assert (Hj01 : Forall (fun x => (0 <= x)%Q /\ (x <= 1)%Q) jl).
  { clear -Hrel. induction Hrel as [|x y l k Hxy _ IH]; constructor;
      [lra|exact IH]. }
  assert (Hs01 : Forall (fun x => (0 <= x)%Q /\ (x <= 1)%Q) sl).
  { clear -Hrel. induction Hrel as [|x y l k Hxy _ IH]; constructor;
      [lra|exact IH]. }
  assert (Hsne : sl <> []).
  { destruct sl; [|congruence]. simpl in Hlen. lia. }
  repeat split.
  - apply (np_mean_bounds 0 1 jl Hne Hj01).
  - apply np_mean_le; [exact Hne|].
    eapply Forall2_impl; [exact Hrel|].
    intros x y (_ & Hxy & _). exact Hxy.
  - apply (np_mean_bounds 0 1 sl Hsne Hs01).
Qed.

Lemma similarity_jaccard_below_sorensen_witness :
  exists s : Q,
    metrics_get "sorensen_mean"
      (_compute_similarity_metrics no_spearman no_std demo_table_A
         ["A"; "B"]) = Some s
    /\ (0 <= 1 # 2)%Q /\ (1 # 2 <= s)%Q /\ (s <= 1)%Q.
Proof.
  apply (similarity_jaccard_below_sorensen no_spearman no_std demo_table_A
           ["A"; "B"] (1 # 2)).
  reflexivity.
Defined.

Lemma guarded_similarity_range (a1 a2 : list Q) (s : fval) :
  Forall (fun x => (0 <= x)%Q) a1 -> Forall (fun x => (0 <= x)%Q) a2 ->
  length a1 = length a2 ->
  guarded_similarity a1 a2 = Some s ->
  exists q, s = Fin q /\ (0 <= q)%Q /\ (q <= 1)%Q.
Proof.
  intros H1 H2 Hlen E.
  apply guarded_similarity_finite in E as (q & Hq & ->); [|exact Hlen].
  exists (1 - q)%Q. split; [reflexivity|].
  destruct (braycurtis_terms_nonneg a1 a2 H1 H2 Hlen) as [Hden Hnum].
  pose proof (Qsum_abs_nonneg Qminus a1 a2) as Hn0.
  unfold braycurtis, fdiv in Hq.
  set (num := Qsum (zip_with (fun a b => Qabs (a - b)) a1 a2)) in *.
  set (den := Qsum (zip_with (fun a b => Qabs (a + b)) a1 a2)) in *.
  destruct (Qeq_bool den 0) eqn:Ed.
  { destruct (Qeq_bool num 0); [discriminate|].
    destruct (Qle_bool num 0); discriminate. }
  injection Hq as <-. apply Qeq_bool_false in Ed.
  pose proof (Qsum_abs_nonneg Qplus a1 a2) as Hd0. fold den in Hd0.
  assert (Hpos : (0 < den)%Q).
  { destruct (Qlt_le_dec 0 den) as [H'|H']; [exact H'|].
    exfalso. apply Ed. lra. }
  assert (H0 : (0 <= num / den)%Q)
    by (apply Qle_shift_div_l; [exact Hpos|lra]).
  assert (H1' : (num / den <= 1)%Q)
    by (apply Qle_shift_div_r; [exact Hpos|lra]).
  split; lra.
Qed.

Lemma omap_Forall {A B} (P : B -> Prop) (f : A -> option B) (l : list A) :
  (forall x y, f x = Some y -> P y) -> Forall P (omap f l).
Proof.
  intros H. induction l as [|x l IH]; simpl; [constructor|].
  destruct (f x) as [y|] eqn:E; [constructor; eauto|exact IH].
Qed.

(** X21.  For a table without negative entries, a reported
    [bray_curtis_similarity_mean] lies between 0 and 1. *)
Theorem similarity_bray_curtis_mean_range
    (spearmanr : list Q -> list Q -> option Q) (np_std : list Q -> Q)
    (df : DataFrame) (run_labels : list string) (b : Q) :
  nonneg_rows (values df) ->
  metrics_get "bray_curtis_similarity_mean"
    (_compute_similarity_metrics spearmanr np_std df run_labels) = Some b ->
  (0 <= b)%Q /\ (b <= 1)%Q.
Proof.
  intros Hnn. unfold _compute_similarity_metrics.
  destruct (length (py_unique run_labels) <? 2)%nat; [discriminate|].
  cbv zeta.
  set (profile := run_profile df run_labels).
  set (pairs := run_pairs (py_unique run_labels)).
  set (jl := omap (fun rr => pair_jaccard (profile rr.1) (profile rr.2))
                  pairs).
  set (sl := omap (fun rr => pair_sorensen (profile rr.1) (profile rr.2))
                  pairs).
  set (rl := omap (fun rr => pair_spearman spearmanr (profile rr.1)
                               (profile rr.2)) pairs).
  set (bl := omap (fun rr => pair_bray (profile rr.1) (profile rr.2))
                  pairs).
  assert (Hb : Forall (fun x => (0 <= x)%Q /\ (x <= 1)%Q) bl).
  { apply omap_Forall. intros rr y. unfold pair_bray.
    destruct (guarded_similarity _ _) as [s|] eqn:E; [|discriminate].
    simpl. intros Hy.
    apply guarded_similarity_range in E as (q & -> & Hq).
    - simpl in Hy. injection Hy as <-. exact Hq.
    - apply run_profile_nonneg. exact Hnn.
    - apply run_profile_nonneg. exact Hnn.
    - unfold profile. rewrite !run_profile_length. reflexivity. }
  destruct (0 <? length bl)%nat eqn:Eb.
  2:{ destruct (0 <? length jl)%nat, (0 <? length sl)%nat,
        (0 <? length rl)%nat; discriminate. }
  apply Nat.ltb_lt in Eb.
  assert (Hne : bl <> []) by (destruct bl; [simpl in Eb; lia|congruence]).
  intros Hget.
  assert (Hval : b = np_mean bl).
  { destruct (0 <? length jl)%nat, (0 <? length sl)%nat,
      (0 <? length rl)%nat; cbn in Hget; congruence. }
  subst b. apply (np_mean_bounds 0 1 bl Hne Hb).
Qed.

Lemma similarity_bray_curtis_mean_range_witness :
  (0 <= 6 # 8)%Q /\ (6 # 8 <= 1)%Q.
Proof.
  apply (similarity_bray_curtis_mean_range no_spearman no_std demo_table_A
           ["A"; "B"] (6 # 8)).
  - repeat constructor; vm_compute; discriminate.
  - reflexivity.
Defined.

(* ================================================================== *)
(** * Further properties of the false discovery rate block *)
(* ================================================================== *)

Lemma Qmin_bool_cases (a b : Q) : Qmin_bool a b = a \/ Qmin_bool a b = b.
Proof. unfold Qmin_bool. destruct (Qle_bool a b); auto. Qed.

Lemma suffix_min_tail (x : Q) (l : list Q) (k : nat) :
  suffix_min (x :: l) !! S k = suffix_min l !! k.
Proof.
  simpl. destruct (suffix_min l) as [|m ms]; reflexivity.
Qed.

(** The running minimum at place [k] is one of the entries from [k] on. *)
Lemma suffix_min_elem (l : list Q) (k : nat) (f : Q) :
  suffix_min l !! k = Some f ->
  exists j, (k <= j)%nat /\ l !! j = Some f.
Proof.
  revert k f. induction l as [|x l IH]; intros k f Hk; [discriminate|].
  destruct k as [|k].
  - simpl in Hk. destruct (suffix_min l) as [|m ms] eqn:E.
    + injection Hk as <-. exists 0%nat. split; [lia|reflexivity].
    + injection Hk as <-.
      destruct (Qmin_bool_cases x m) as [-> | ->].
      * exists 0%nat. split; [lia|reflexivity].
      * destruct (IH 0%nat m eq_refl) as (j & _ & Hj).
        exists (S j). split; [lia|exact Hj].
  - rewrite suffix_min_tail in Hk.
    destruct (IH k f Hk) as (j & Hkj & Hj).
    exists (S j). split; [lia|exact Hj].
Qed.

(** ... and it is below each of them. *)
Lemma suffix_min_le (l : list Q) (k j : nat) (f x : Q) :
  suffix_min l !! k = Some f -> l !! j = Some x -> (k <= j)%nat ->
  (f <= x)%Q.
Proof.
  revert k j f x. induction l as [|y l IH]; intros k j f x Hk Hj Hkj;
    [discriminate|].
  destruct k as [|k].
  - simpl in Hk. destruct (suffix_min l) as [|m ms] eqn:E.
    + injection Hk as <-. destruct j as [|j].
      * injection Hj as <-. lra.
      * simpl in Hj. apply lookup_lt_Some in Hj.
        pose proof (suffix_min_length l) as Hl. rewrite E in Hl.
        simpl in Hl. lia.
    + injection Hk as <-. destruct j as [|j].
      * injection Hj as <-. apply Qmin_bool_le_l.
      * simpl in Hj.
        pose proof (IH 0%nat j m x eq_refl Hj ltac:(lia)) as Hm.
        pose proof (Qmin_bool_le_r y m). lra.
  - destruct j as [|j]; [lia|]. rewrite suffix_min_tail in Hk.
    simpl in Hj. apply (IH k j); [assumption..|lia].
Qed.

(** Over the exact rationals, the corrected value of a taxon lies between
    its raw p-value and the largest raw p-value, for raw p-values that are
    not negative.  (The lower bound is attained at the largest p-value,
    where the code computes [(p * n) / n] in doubles.) *)
Lemma fdr_exact_bounds
    (p_values : list Q) (i : nat) (p : Q) :
  Forall (fun x => (0 <= x)%Q) p_values ->
  p_values !! i = Some p ->
  exists f : Q,
    fdr_correction p_values !! i = Some f
    /\ (p <= f)%Q
    /\ exists pmax, pmax ∈ p_values /\ (f <= pmax)%Q.
Proof.
  intros Hnn Hi.
  set (S := sort_keyed p_values).
  set (n := length p_values).
  set (raw := imap (fun k p => (p * Qof_nat n / (Qof_nat k + 1))%Q)
                   (S.*1)).
  assert (Hfdr : fdr_correction p_values
                 = scatter n (argsort p_values) (suffix_min raw)).
  { unfold fdr_correction. rewrite take_at_argsort. reflexivity. }
  assert (HlenS : length S = n).
  { unfold S, n. rewrite <- (length_fmap fst).
    apply Permutation_length, sorted_values_perm. }
  assert (Hin : (p, i) ∈ S) by (apply sort_keyed_elem; exact Hi).
  apply list_elem_of_lookup in Hin as [k Hk].
  assert (Hkn : (k < n)%nat).
  { apply lookup_lt_Some in Hk. lia. }
  assert (Hlen : length (suffix_min raw) = n).
  { rewrite suffix_min_length. unfold raw.
    rewrite length_imap, length_fmap. exact HlenS. }
  destruct (lookup_lt_is_Some_2 (suffix_min raw) k) as [f Hf];
    [lia|].
  (* the entries of [raw] *)
  assert (Hraw : forall t y, raw !! t = Some y ->
            exists v, S.*1 !! t = Some v
                      /\ y = (v * Qof_nat n / (Qof_nat t + 1))%Q).
  { intros t y Ht. unfold raw in Ht. rewrite list_lookup_imap in Ht.
    destruct (S.*1 !! t) as [v|]; [|discriminate].
    injection Ht as <-. eauto. }
  assert (Hvnn : forall t v, S.*1 !! t = Some v -> (0 <= v)%Q).
  { intros t v Ht. apply list_elem_of_lookup_2 in Ht. unfold S in Ht.
    rewrite (sorted_values_perm p_values) in Ht.
    rewrite Forall_forall in Hnn. apply Hnn. exact Ht. }
  assert (Hsk : S.*1 !! k = Some p).
  { rewrite list_lookup_fmap, Hk. reflexivity. }
  exists f. split; [|split].
  - rewrite Hfdr. apply (scatter_lookup n _ _ k);
      [apply argsort_NoDup| |exact Hf|].
    + unfold argsort. fold S. rewrite list_lookup_fmap, Hk. reflexivity.
    + apply lookup_lt_Some in Hi. exact Hi.
  - destruct (suffix_min_elem raw k f Hf) as (j & Hkj & Hj).
    destruct (Hraw j f Hj) as (v & Hv & ->).
    assert (Hjn : (j < n)%nat).
    { apply lookup_lt_Some in Hv. rewrite length_fmap in Hv. lia. }
    assert (Hpv : (p <= v)%Q).
    { destruct (decide (k = j)) as [->|Hne].
      - rewrite Hsk in Hv. injection Hv as <-. lra.
      - apply (StronglySorted_lookup_lt Qle (S.*1) k j);
          [apply sorted_values_sorted|assumption..|lia]. }
    pose proof (Hvnn j v Hv) as Hv0.
    pose proof (Qof_nat_nonneg j) as Hj0.
    assert (Hjn' : (Qof_nat j + 1 <= Qof_nat n)%Q).
    { rewrite <- Qof_nat_S. apply Qof_nat_le. lia. }
    apply Qle_shift_div_l; [lra|].
    assert (H1 : (0 <= (v - p) * (Qof_nat j + 1))%Q)
      by (apply Qmult_le_0_compat; lra).
    assert (H2 : (0 <= v * (Qof_nat n - (Qof_nat j + 1)))%Q)
      by (apply Qmult_le_0_compat; lra).
    assert (H3 : (v * Qof_nat n - p * (Qof_nat j + 1)
                  == (v - p) * (Qof_nat j + 1)
                     + v * (Qof_nat n - (Qof_nat j + 1)))%Q) by ring.
    lra.
  - destruct (lookup_lt_is_Some_2 (S.*1) (n - 1)) as [v Hv].
    { rewrite length_fmap. lia. }
    exists v. split.
    { rewrite <- (sorted_values_perm p_values).
      eapply list_elem_of_lookup_2. exact Hv. }
    assert (Hlast : raw !! (n - 1)%nat
                    = Some (v * Qof_nat n / (Qof_nat (n - 1) + 1))%Q).
    { unfold raw. rewrite list_lookup_imap, Hv. reflexivity. }
    pose proof (suffix_min_le raw k (n - 1) f _ Hf Hlast ltac:(lia))
      as Hle.
    assert (Hn : (Qof_nat (n - 1) + 1 == Qof_nat n)%Q).
    { rewrite <- Qof_nat_S. replace (Datatypes.S (n - 1)) with n by lia.
      reflexivity. }
    assert (Hnpos : (0 < Qof_nat n)%Q) by (apply Qof_nat_pos; lia).
    assert (Hq : (v * Qof_nat n / (Qof_nat (n - 1) + 1) == v)%Q).
    { rewrite Hn. field. lra. }
    lra.
Qed.

(** X22.  For raw p-values between 0 and 1 every corrected value lies
    between 0 and 1 as well: the running minimum ends at the largest
    p-value times n over n, so no clamp at 1 is needed. *)
Theorem fdr_within_unit_interval
    (p_values : list Q) (i : nat) (p : Q) :
  Forall (fun x => (0 <= x)%Q /\ (x <= 1)%Q) p_values ->
  p_values !! i = Some p ->
  exists f : Q,
    fdr_correction p_values !! i = Some f /\ (0 <= f)%Q /\ (f <= 1)%Q.
Proof.
  intros Hunit Hi.
  assert (Hnn : Forall (fun x => (0 <= x)%Q) p_values).
  { eapply Forall_impl; [exact Hunit|]. intros x [Hx _]. exact Hx. }
  destruct (fdr_exact_bounds p_values i p Hnn Hi)
    as (f & Hf & Hlow & pmax & Hin & Hup).
  rewrite Forall_forall in Hunit.
  destruct (Hunit p (list_elem_of_lookup_2 _ _ _ Hi)) as [Hp0 _].
  destruct (Hunit pmax Hin) as [_ Hp1].
  exists f. split; [exact Hf|]. split; lra.
Qed.

Lemma fdr_within_unit_interval_witness :
  exists f : Q,
    fdr_correction [4 # 100; 1 # 100; 3 # 100; 5 # 1000]%Q !! 1%nat
    = Some f
    /\ (0 <= f)%Q /\ (f <= 1)%Q.
Proof.
  apply (fdr_within_unit_interval
           [4 # 100; 1 # 100; 3 # 100; 5 # 1000]%Q 1 (1 # 100)).
  - repeat constructor; vm_compute; discriminate.
  - reflexivity.
Defined.

(* ================================================================== *)
(** * Further properties of the grouped permutation test *)
(* ================================================================== *)

Lemma colon_free_prefixed (rid s : string) :
  colon_free (rid ++ ":" ++ s) = false.
Proof.
  unfold colon_free. induction rid as [|c rid IH]; [reflexivity|].
  change (String c rid ++ ":" ++ s) with (String c (rid ++ ":" ++ s)).
  cbn [list_ascii_of_string forallb].
  rewrite IH. apply andb_false_r.
Qed.

(** The row labels of a harmonised table are run-prefixed. *)
Lemma harmonise_index_prefixed (log : Q -> Q) (self : Harmoniser)
    (runs : list RunData) (h : HarmonisedData) :
  harmonise log self runs = Ok h ->
  Forall (fun lbl => exists run s,
            run ∈ runs /\ lbl = run_id run ++ ":" ++ s)
         (index (aligned_abundance h)).
Proof.
  intros Hok.
  destruct (harmonise_stages _ _ _ _ Hok)
    as (aligned & sampled & normalised & _ & Hal & Hs & Hidx & _
        & _ & Hout & _).
  destruct (processed_tables self runs) as (_ & _ & Hlbl).
  destruct (align_taxa_ok _ _ Hal) as (_ & _ & _ & Haidx & _).
  assert (Haligned : Forall (fun lbl => exists run s,
                      run ∈ runs /\ lbl = run_id run ++ ":" ++ s)
                     (index aligned)).
  { rewrite Haidx. apply Forall_concat_rows.
    rewrite Forall_fmap. exact Hlbl. }
  assert (Hsub : index sampled `sublist_of` index aligned).
  { rewrite Hs. destruct (String.eqb (sample_align self) "intersection").
    - apply align_samples_intersection_frame.
    - reflexivity. }
  destruct (filter_taxa_frame self normalised) as (Hfi & _).
  rewrite Hout, Hfi, Hidx.
  apply Forall_forall. intros lbl Hin.
  rewrite Forall_forall in Haligned.
  apply Haligned. exact (elem_of_sublist _ _ _ Hin Hsub).
Qed.

(** X23.  The distance table of a harmonised matrix is indexed by
    run-prefixed labels ("run:sample").  Metadata whose sample ids hold no
    colon therefore shares no sample with it, and the permutation test
    answers "Not enough samples with metadata". *)
Theorem permanova_unprefixed_metadata_error
    (log : Q -> Q) (sample_frac1 : nat -> list string -> list string)
    (self : Harmoniser) (runs : list RunData) (h : HarmonisedData)
    (dist_df : DataFrame) (metadata : Metadata) (group_col : string)
    (n_permutations : nat) :
  harmonise log self runs = Ok h ->
  finite_dist_frame (beta_distance (aligned_abundance h)) = Some dist_df ->
  Forall (fun s => colon_free s = true) (meta_index metadata) ->
  _compute_permanova sample_frac1 dist_df metadata group_col n_permutations
  = PermanovaError "Not enough samples with metadata".
Proof.
  intros Hok Hd Hmeta.
  pose proof (harmonise_index_prefixed _ _ _ _ Hok) as Hidx.
  unfold finite_dist_frame in Hd.
  destruct (finite_matrix _) as [D|]; [|discriminate].
  simpl in Hd. injection Hd as <-.
  unfold _compute_permanova.
  assert (Hcommon : common_samples
                      (mkDF (index (aligned_abundance h))
                            (index (aligned_abundance h)) D) metadata = []).
  { unfold common_samples. cbn [index].
    destruct (filter _ _) as [|x rest] eqn:E; [reflexivity|].
    assert (Hx : x ∈ x :: rest) by left.
    rewrite <- E in Hx. apply list_elem_of_filter in Hx as [Hm Hx].
    apply py_unique_subset in Hx.
    rewrite Forall_forall in Hidx. destruct (Hidx x Hx) as (run & s & _ & ->).
    rewrite Forall_forall in Hmeta. specialize (Hmeta _ Hm).
    rewrite colon_free_prefixed in Hmeta. discriminate. }
  rewrite Hcommon. reflexivity.
Qed.

Lemma permanova_unprefixed_metadata_error_witness :
  exists (h : HarmonisedData) (dist_df : DataFrame),
    harmonise no_log (demo_harmoniser 0) demo_runs = Ok h
    /\ finite_dist_frame (beta_distance (aligned_abundance h))
       = Some dist_df
    /\ _compute_permanova rotate_draw dist_df demo_metadata "site" 9
       = PermanovaError "Not enough samples with metadata".
Proof.
  destruct (harmonise no_log (demo_harmoniser 0) demo_runs) as [h|e] eqn:E;
    [|vm_compute in E; discriminate].
  destruct (finite_dist_frame (beta_distance (aligned_abundance h)))
    as [dist_df|] eqn:Ed.
  2:{ exfalso. revert Ed. vm_compute in E. injection E as <-.
      vm_compute. discriminate. }
  exists h, dist_df. split; [reflexivity|]. split; [exact Ed|].
  apply (permanova_unprefixed_metadata_error no_log rotate_draw
           (demo_harmoniser 0) demo_runs h dist_df demo_metadata "site" 9
           E Ed).
  repeat constructor.
Defined.

Lemma py_unique_NoDup_id (l : list string) :
  NoDup l -> py_unique l = l.
Proof.
  induction 1 as [|x l Hx _ IH]; [reflexivity|].
  simpl. rewrite IH. f_equal.
  clear IH. induction l as [|y l IHl]; [reflexivity|].
  apply not_elem_of_cons in Hx as [Hne Hx].
  rewrite filter_cons. destruct (decide (y <> x)) as [_|Heq].
  - f_equal. apply IHl. exact Hx.
  - exfalso. apply Heq. congruence.
Qed.

(** X24.  When each of the three or more common samples carries a label
    of its own, no degrees of freedom are left within the groups: the
    result holds NaN for both the statistic and the p-value. *)
Theorem permanova_one_sample_per_group
    (sample_frac1 : nat -> list string -> list string)
    (dist_df : DataFrame) (metadata : Metadata) (group_col : string)
    (n_permutations : nat) :
  (3 <= length (common_samples dist_df metadata))%nat ->
  NoDup (permanova_groups dist_df metadata group_col) ->
  _compute_permanova sample_frac1 dist_df metadata group_col n_permutations
  = PermanovaStats None None n_permutations
      (length (common_samples dist_df metadata))
      (permanova_groups dist_df metadata group_col).
Proof.
  intros Hn Hnd. unfold _compute_permanova. cbv zeta.
  assert (Hlen : length (permanova_groups dist_df metadata group_col)
                 = length (common_samples dist_df metadata)).
  { unfold permanova_groups. apply length_map. }
  rewrite (py_unique_NoDup_id _ Hnd), Hlen.
  destruct (length (common_samples dist_df metadata) <? 3)%nat eqn:E3;
    [apply Nat.ltb_lt in E3; lia|].
  destruct (length (common_samples dist_df metadata) <? 2)%nat eqn:E2;
    [apply Nat.ltb_lt in E2; lia|].
  assert (Hobs : observed_f dist_df metadata group_col = None).
  { unfold observed_f. cbv zeta.
    rewrite (py_unique_NoDup_id _ Hnd). unfold pseudo_f. cbv zeta.
    rewrite Z.sub_diag. reflexivity. }
  rewrite Hobs.
  destruct (perm_f_values _ _ _ _ _); reflexivity.
Qed.

Lemma permanova_one_sample_per_group_witness :
  _compute_permanova rotate_draw demo_dist singleton_metadata "site" 9
  = PermanovaStats None None 9 4 ["gut"; "skin"; "oral"; "nasal"].
Proof.
  apply (permanova_one_sample_per_group rotate_draw demo_dist
           singleton_metadata "site" 9).
  - vm_compute. lia.
  - apply (bool_decide_unpack _). vm_compute. exact I.
Defined.

(* ================================================================== *)
(** * Ranges of the alpha diversity indices *)
(* ================================================================== *)

Section AlphaRanges.

Import Alpha.
Local Open Scope R_scope.

Lemma Rsum_map_div (s : R) (l : list R) :
  Rsum (map (fun x => x / s) l) = Rsum l / s.
Proof.
  induction l as [|x l IH]; simpl.
  - unfold Rdiv. ring.
  - rewrite IH. unfold Rdiv. ring.
Qed.

Lemma Rsum_nonneg_pos (l : list R) :
  Forall (fun x => 0 < x) l -> 0 <= Rsum l.
Proof.
  induction 1 as [|x l Hx _ IH]; simpl; Lra.lra.
Qed.

Lemma Rsum_pos (l : list R) :
  l <> [] -> Forall (fun x => 0 < x) l -> 0 < Rsum l.
Proof.
  intros Hne Hpos. destruct l as [|x l]; [congruence|].
  apply Forall_cons in Hpos as [Hx Hl].
  pose proof (Rsum_nonneg_pos l Hl). simpl. Lra.lra.
Qed.

Lemma Rsum_ge_elem (l : list R) (x : R) :
  Forall (fun x => 0 < x) l -> x ∈ l -> x <= Rsum l.
Proof.
  induction 1 as [|y l Hy Hl IH]; intros Hin.
  - apply elem_of_nil in Hin. contradiction.
  - pose proof (Rsum_nonneg_pos l Hl). simpl.
    apply elem_of_cons in Hin as [->|Hin]; [Lra.lra|].
    specialize (IH Hin). Lra.lra.
Qed.

Lemma Rsum_le_pointwise (P : R -> Prop) (f g : R -> R) (l : list R) :
  Forall P l -> (forall x, P x -> f x <= g x) ->
  Rsum (map f l) <= Rsum (map g l).
Proof.
  intros Hall Hfg. induction Hall as [|x l Hx _ IH]; simpl; [Lra.lra|].
  specialize (Hfg x Hx). Lra.lra.
Qed.

Lemma Rsum_affine (c d : R) (l : list R) :
  Rsum (map (fun x => c * x + d) l) = c * Rsum l + d * INR (length l).
Proof.
  induction l as [|x l IH].
  - simpl. ring.
  - cbn [map Rsum fold_right length]. fold (Rsum (map (fun x => c * x + d) l)).
    fold (Rsum l). rewrite IH, S_INR. ring.
Qed.

Lemma ln_nonpos (p : R) : 0 < p -> p <= 1 -> ln p <= 0.
Proof.
  intros H0 [Hlt | Heq].
  2:{ rewrite Heq, ln_1. Lra.lra. }
  rewrite <- ln_1. left. apply ln_increasing; assumption.
Qed.

Lemma ln_le_sub_one (y : R) : 0 < y -> ln y <= y - 1.
Proof.
  intros Hy. pose proof (exp_ineq1_le (ln y)) as H.
  rewrite exp_ln in H by exact Hy. Lra.lra.
Qed.

(** The proportions [p = row / row.sum()] of a non-empty list of positive
    numbers lie in (0, 1] and sum to 1. *)
Lemma proportions_spec (row : list R) :
  row <> [] -> Forall (fun x => 0 < x) row ->
  Forall (fun p => 0 < p /\ p <= 1) (map (fun x => x / Rsum row) row)
  /\ Rsum (map (fun x => x / Rsum row) row) = 1.
Proof.
  intros Hne Hpos.
  assert (Hs : 0 < Rsum row).
  { destruct row as [|x row]; [congruence|].
    apply Forall_cons in Hpos as [Hx Hrow].
    pose proof (Rsum_nonneg_pos row Hrow). simpl. Lra.lra. }
  split.
  - rewrite Forall_fmap. apply Forall_forall. intros x Hx. simpl.
    pose proof (Rsum_ge_elem row x Hpos Hx) as Hle.
    rewrite Forall_forall in Hpos. specialize (Hpos x Hx). split.
    + apply Rdiv_lt_0_compat; assumption.
    + apply (Rmult_le_reg_r (Rsum row)); [exact Hs|].
      unfold Rdiv. rewrite Rmult_assoc, Rinv_l by Lra.lra. Lra.lra.
  - rewrite Rsum_map_div. unfold Rdiv. apply Rinv_r. Lra.lra.
Qed.

Lemma positive_part_Forall (row : list R) :
  Forall (fun x => 0 < x) (positive_part row).
Proof.
  apply Forall_forall. intros x Hx. apply (positive_part_pos row x Hx).
Qed.

Lemma shannon_nonneg (row : list R) : 0 <= shannon row.
Proof.
  unfold shannon.
  pose proof (positive_part_Forall row) as Hpos.
  destruct (positive_part row) as [|x rest] eqn:E; [Lra.lra|].
  destruct (proportions_spec (x :: rest)) as [Hp _];
    [discriminate|exact Hpos|].
  pose proof (Rsum_le_pointwise (fun p => 0 < p /\ p <= 1)
                (fun p => p * ln p) (fun p => 0 * p + 0) _ Hp) as H.
  rewrite Rsum_affine in H.
  assert (Hle : Rsum (map (fun p => p * ln p)
                          (map (fun y => y / Rsum (x :: rest)) (x :: rest)))
                <= 0).
  { etransitivity; [apply H|Lra.lra].
    intros p [Hp0 Hp1]. pose proof (ln_nonpos p Hp0 Hp1).
    assert (p * ln p <= 0); [|Lra.lra].
    replace 0 with (p * 0) by ring.
    apply Rmult_le_compat_l; Lra.lra. }
  Lra.lra.
Qed.

Lemma simpson_range (row : list R) : 0 <= simpson row < 1.
Proof.
  unfold simpson.
  pose proof (positive_part_Forall row) as Hpos.
  destruct (positive_part row) as [|x rest] eqn:E; [Lra.lra|].
  destruct (proportions_spec (x :: rest)) as [Hp Hone];
    [discriminate|exact Hpos|].
  set (p := map (fun y => y / Rsum (x :: rest)) (x :: rest)) in *.
  pose proof (Rsum_le_pointwise (fun p => 0 < p /\ p <= 1)
                (fun p => p * p) (fun p => 1 * p + 0) p Hp) as Hup.
  rewrite Rsum_affine, Hone in Hup.
  assert (Hlow : 0 < Rsum (map (fun p => p * p) p)).
  { assert (Hsq : Forall (fun y => 0 < y) (map (fun p => p * p) p)).
    { rewrite Forall_fmap. eapply Forall_impl; [exact Hp|].
      intros q [Hq _]. simpl. apply Rmult_lt_0_compat; exact Hq. }
    apply Rsum_pos; [|exact Hsq]. unfold p. discriminate. }
  assert (Hup' : Rsum (map (fun p => p * p) p) <= 1).
  { etransitivity; [apply Hup|Lra.lra].
    intros q [Hq0 Hq1].
    assert (q * q <= q * 1) by (apply Rmult_le_compat_l; Lra.lra).
    Lra.lra. }
  change (0 <= 1 - Rsum (map (fun p => p * p) p) < 1). Lra.lra.
Qed.

(** The Shannon index is at most the logarithm of the richness. *)
Lemma shannon_le_ln_richness (row : list R) :
  (1 <= observed_taxa row)%nat ->
  shannon row <= ln (INR (observed_taxa row)).
Proof.
  unfold shannon, observed_taxa.
  pose proof (positive_part_Forall row) as Hpos.
  destruct (positive_part row) as [|x rest] eqn:E; [simpl; lia|].
  intros _.
  destruct (proportions_spec (x :: rest)) as [Hp Hone];
    [discriminate|exact Hpos|].
  set (p := map (fun y => y / Rsum (x :: rest)) (x :: rest)) in *.
  set (n := INR (length (x :: rest))).
  assert (Hn : 0 < n) by (unfold n; apply lt_0_INR; simpl; lia).
  assert (Hlen : INR (length p) = n).
  { unfold p, n. rewrite length_map. reflexivity. }
  pose proof (Rsum_le_pointwise (fun p => 0 < p /\ p <= 1)
                (fun p => - (p * ln p))
                (fun p => (ln n - 1) * p + / n) p Hp) as H.
  rewrite Rsum_affine, Hone, Hlen in H.
  assert (Hneg : Rsum (map (fun p => - (p * ln p)) p)
                 = - Rsum (map (fun p => p * ln p) p)).
  { clear. induction p as [|q p IH]; simpl; [ring|].
    fold (Rsum (map (fun p => - (p * ln p)) p)).
    fold (Rsum (map (fun p => p * ln p) p)). rewrite IH. ring. }
  rewrite <- Hneg.
  etransitivity; [apply H|].
  - intros q [Hq0 Hq1].
    assert (Hnq : 0 < / (n * q)).
    { apply Rinv_0_lt_compat, Rmult_lt_0_compat; assumption. }
    pose proof (ln_le_sub_one (/ (n * q)) Hnq) as Hln.
    rewrite ln_Rinv in Hln by (apply Rmult_lt_0_compat; assumption).
    rewrite ln_mult in Hln by assumption.
    assert (Hmul : q * (- (ln n + ln q)) <= q * (/ (n * q) - 1))
      by (apply Rmult_le_compat_l; Lra.lra).
    assert (Hq : q * (/ (n * q) - 1) = / n - q) by (field; Lra.lra).
    rewrite Hq in Hmul. Lra.lra.
  - assert (Hinv : / n * n = 1) by (apply Rinv_l; Lra.lra). Lra.lra.
Qed.

(** The positive entries of a row of rationals, counted over the reals
    and over the rationals. *)
Lemma observed_taxa_rational (row : list Q) :
  observed_taxa (map Q2R row)
  = length (filter (fun x => Is_true (Qlt_bool 0 x)) row).
Proof.
  unfold observed_taxa, positive_part.
  induction row as [|x row IH]; [reflexivity|].
  cbn [map]. rewrite !filter_cons.
  destruct (decide (0 < Q2R x)) as [Hx|Hx];
    destruct (decide (Is_true (Qlt_bool 0 x))) as [Hq|Hq];
    cbn [length]; try (rewrite IH; reflexivity).
  - exfalso. apply Hq. apply Is_true_true, Qlt_bool_true.
    apply Rlt_Qlt. rewrite RMicromega.Q2R_0. exact Hx.
  - exfalso. apply Hx. apply Is_true_true, Qlt_bool_true in Hq.
    apply Qlt_Rlt in Hq. rewrite RMicromega.Q2R_0 in Hq. exact Hq.
Qed.

Lemma alpha_row_lookup (df : DataFrame) (run_labels : list string)
    (i : nat) (a : AlphaRow) :
  _compute_alpha_diversity df run_labels !! i = Some a ->
  exists (s : string) (row : list Q),
    index df !! i = Some s /\ values df !! i = Some row
    /\ a = alpha_of_row s (default ""%string (run_labels !! i))
                        (map Q2R row).
Proof.
  unfold _compute_alpha_diversity. rewrite list_lookup_imap.
  destruct (zip (index df) (values df) !! i) as [[s r]|] eqn:Ez;
    [|discriminate].
  intros [= <-].
  apply lookup_zip_with_Some in Ez as (s' & r' & [= -> ->] & Hs & Hr).
  exists s', r'. repeat split; assumption.
Qed.

(** X25.  In every line of the alpha diversity table the Shannon index is
    at least 0 and the Simpson index lies in [0, 1), whatever the row
    holds: entries that are not positive are left out of both. *)
Theorem alpha_shannon_simpson_range
    (df : DataFrame) (run_labels : list string) (i : nat) (a : AlphaRow) :
  _compute_alpha_diversity df run_labels !! i = Some a ->
  0 <= a_shannon a /\ 0 <= a_simpson a /\ a_simpson a < 1.
Proof.
  intros Ha. apply alpha_row_lookup in Ha as (s & row & _ & _ & ->).
  simpl. split; [apply shannon_nonneg|apply simpson_range].
Qed.

Lemma alpha_shannon_simpson_range_witness :
  0 <= a_shannon (alpha_of_row "s1"%string "A"%string
                               (map Q2R [3; 1; 0]%Q))
  /\ 0 <= a_simpson (alpha_of_row "s1"%string "A"%string
                                  (map Q2R [3; 1; 0]%Q))
  /\ a_simpson (alpha_of_row "s1"%string "A"%string
                             (map Q2R [3; 1; 0]%Q)) < 1.
Proof.
  apply (alpha_shannon_simpson_range demo_table_A ["A"; "B"]%string 0).
  reflexivity.
Defined.

(** With two or more positive entries the logarithm of the richness is
    positive, so the quotient is a number. *)
Lemma pielou_evenness_rich (row : list R) :
  (2 <= observed_taxa row)%nat ->
  0 < ln (INR (observed_taxa row))
  /\ pielou_evenness row
     = RFin (shannon row / ln (INR (observed_taxa row))).
Proof.
  intros Hobs.
  assert (Hln : 0 < ln (INR (observed_taxa row))).
  { rewrite <- ln_1. apply ln_increasing; [Lra.lra|].
    change 1 with (INR 1). apply lt_INR. lia. }
  split; [exact Hln|]. unfold pielou_evenness.
  destruct (observed_taxa row =? 0)%nat eqn:E0;
    [apply Nat.eqb_eq in E0; lia|].
  unfold rdiv. destruct (Req_dec_T _ 0) as [Hz|_]; [Lra.lra|].
  reflexivity.
Qed.

(** X26.  For a sample with two or more observed taxa the Pielou evenness
    is a number, neither NaN nor infinite, and it is not negative. *)
Theorem alpha_pielou_finite_nonneg
    (df : DataFrame) (run_labels : list string) (i : nat) (a : AlphaRow) :
  _compute_alpha_diversity df run_labels !! i = Some a ->
  (2 <= a_observed_taxa a)%nat ->
  exists e : R, a_pielou_evenness a = RFin e /\ 0 <= e.
Proof.
  intros Ha. apply alpha_row_lookup in Ha as (s & row & _ & _ & ->).
  cbn [alpha_of_row a_observed_taxa a_pielou_evenness].
  set (r := map Q2R row). intros Hobs.
  destruct (pielou_evenness_rich r Hobs) as [Hln ->].
  eexists. split; [reflexivity|].
  apply Rmult_le_pos; [apply shannon_nonneg|].
  left. apply Rinv_0_lt_compat. exact Hln.
Qed.

Lemma alpha_pielou_finite_nonneg_witness :
  exists e : R,
    a_pielou_evenness (alpha_of_row "s1"%string "A"%string
                                    (map Q2R [3; 1; 0]%Q)) = RFin e
    /\ 0 <= e.
Proof.
  apply (alpha_pielou_finite_nonneg demo_table_A ["A"; "B"]%string 0).
  - reflexivity.
  - cbn [alpha_of_row a_observed_taxa]. rewrite observed_taxa_rational.
    vm_compute. lia.
Defined.

(** X27.  In exact arithmetic the Shannon index of a sample never exceeds
    the logarithm of its richness, so that the Pielou evenness of a sample
    with two or more observed taxa is at most 1.  The bound is attained
    by even samples; there the rounding of the logarithm and of the sum
    decides on which side of 1 a double lands. *)
Theorem alpha_pielou_at_most_one_exact
    (df : DataFrame) (run_labels : list string) (i : nat) (a : AlphaRow) :
  _compute_alpha_diversity df run_labels !! i = Some a ->
  (2 <= a_observed_taxa a)%nat ->
  a_shannon a <= ln (INR (a_observed_taxa a))
  /\ exists e : R, a_pielou_evenness a = RFin e /\ e <= 1.
Proof.
  intros Ha. apply alpha_row_lookup in Ha as (s & row & _ & _ & ->).
  cbn [alpha_of_row a_observed_taxa a_pielou_evenness a_shannon].
  set (r := map Q2R row). intros Hobs.
  pose proof (shannon_le_ln_richness r ltac:(lia)) as H1.
  split; [exact H1|].
  destruct (pielou_evenness_rich r Hobs) as [Hln ->].
  eexists. split; [reflexivity|].
  apply (Rmult_le_reg_r (ln (INR (observed_taxa r)))); [exact Hln|].
  unfold Rdiv. rewrite Rmult_assoc, Rinv_l by Lra.lra. Lra.lra.
Qed.

Lemma alpha_pielou_at_most_one_exact_witness :
  exists e : R,
    a_pielou_evenness (alpha_of_row "s1"%string "A"%string
                                    (map Q2R [3; 1; 0]%Q)) = RFin e
    /\ e <= 1.
Proof.
  apply (alpha_pielou_at_most_one_exact demo_table_A ["A"; "B"]%string 0).
  - reflexivity.
  - cbn [alpha_of_row a_observed_taxa]. rewrite observed_taxa_rational.
    vm_compute. lia.
Defined.

End AlphaRanges.

(* ================================================================== *)
(** * Properties of the per-run summaries *)
(* ================================================================== *)

Lemma py_unique_elem (l : list string) (x : string) :
  x ∈ l -> x ∈ py_unique l.
Proof.
  induction l as [|y l IH]; simpl; [trivial|].
  rewrite !elem_of_cons, list_elem_of_filter. intros [->|H]; [auto|].
  destruct (decide (x = y)) as [->|Hne]; auto.
Qed.

Lemma sum_list_with_plus {A} (f g : A -> nat) (l : list A) :
  sum_list_with (fun k => (f k + g k)%nat) l
  = (sum_list_with f l + sum_list_with g l)%nat.
Proof. induction l as [|x l IH]; simpl; [reflexivity|]. lia. Qed.

Lemma sum_list_with_ext_in {A} (f g : A -> nat) (l : list A) :
  (forall k, k ∈ l -> f k = g k) ->
  sum_list_with f l = sum_list_with g l.
Proof.
  induction l as [|x l IH]; intros H; simpl; [reflexivity|].
  rewrite (H x) by left. rewrite IH; [reflexivity|].
  intros k Hk. apply H. right. exact Hk.
Qed.

Lemma sum_indicator_absent (x : string) (ks : list string) :
  x ∉ ks ->
  sum_list_with (fun k => if decide (x = k) then 1%nat else 0%nat) ks
  = 0%nat.
Proof.
  induction ks as [|k ks IH]; intros Hx; simpl; [reflexivity|].
  apply not_elem_of_cons in Hx as [Hne Hx].
  destruct (decide (x = k)); [contradiction|]. rewrite IH by exact Hx.
  reflexivity.
Qed.

Lemma sum_indicator_present (x : string) (ks : list string) :
  NoDup ks -> x ∈ ks ->
  sum_list_with (fun k => if decide (x = k) then 1%nat else 0%nat) ks
  = 1%nat.
Proof.
  induction 1 as [|k ks Hk Hnd IH]; intros Hx.
  - apply elem_of_nil in Hx. contradiction.
  - simpl. destruct (decide (x = k)) as [->|Hne].
    + rewrite sum_indicator_absent by exact Hk. reflexivity.
    + apply elem_of_cons in Hx as [Hx|Hx]; [contradiction|].
      rewrite IH by exact Hx. reflexivity.
Qed.

(** Grouping by a key splits a list: the sizes of the groups add up to
    its length. *)
Lemma group_sizes_add_up {B} (ks : list string) (zs : list (string * B)) :
  NoDup ks -> (forall z, z ∈ zs -> z.1 ∈ ks) ->
  sum_list_with (fun k => length (filter (fun z => z.1 = k) zs)) ks
  = length zs.
Proof.
  intros Hnd. induction zs as [|z zs IH]; intros Hin.
  - simpl. clear. induction ks as [|k ks IHk]; simpl; [reflexivity|].
    exact IHk.
  - rewrite (sum_list_with_ext_in _
               (fun k => ((if decide (z.1 = k) then 1 else 0)
                          + length (filter (fun z => z.1 = k) zs))%nat)).
    + rewrite sum_list_with_plus, sum_indicator_present;
        [|exact Hnd|apply Hin; left].
      rewrite IH; [reflexivity|]. intros y Hy. apply Hin. right. exact Hy.
    + intros k _. rewrite filter_cons.
      destruct (decide (z.1 = k)); reflexivity.
Qed.

Lemma group_rows_length (df : DataFrame) (run_labels : list string)
    (run : string) :
  length (group_rows df run_labels run)
  = length (filter (fun z : string * list Q => z.1 = run)
                   (zip run_labels (values df))).
Proof. unfold group_rows. apply length_fmap. Qed.

(** X28.  When there is one run label per row, the sample counts of the
    per-run summaries add up to the number of rows: every sample is
    counted in the summary of exactly one run. *)
Theorem run_summaries_count_every_sample
    (df : DataFrame) (run_labels : list string) :
  length run_labels = length (values df) ->
  sum_list_with (fun rs => rs_n_samples rs.2)
                (_compute_run_summaries df run_labels)
  = length (values df).
Proof.
  intros Hlen. unfold _compute_run_summaries.
  assert (Hsum : forall U : list string,
            sum_list_with (fun rs : string * RunSummary => rs_n_samples rs.2)
              (map (fun run => (run, run_summary df run_labels run)) U)
            = sum_list_with
                (fun k => length (filter (fun z : string * list Q => z.1 = k)
                                         (zip run_labels (values df)))) U).
  { induction U as [|u U IH]; [reflexivity|].
    cbn [map sum_list_with]. rewrite IH. f_equal.
    cbn [snd run_summary rs_n_samples]. apply group_rows_length. }
  rewrite Hsum, group_sizes_add_up.
  - rewrite length_zip_with_l_eq by exact Hlen. exact Hlen.
  - apply py_unique_NoDup.
  - intros [l row] Hz. apply elem_of_zip_l in Hz.
    apply py_unique_elem. exact Hz.
Qed.

Lemma run_summaries_count_every_sample_witness :
  sum_list_with (fun rs => rs_n_samples rs.2)
                (_compute_run_summaries partly_shared_table
                                        ["A"; "A"; "B"; "B"])
  = length (values partly_shared_table).
Proof.
  apply (run_summaries_count_every_sample partly_shared_table
           ["A"; "A"; "B"; "B"]).
  reflexivity.
Defined.

Lemma observed_columns_le (n : nat) (rows : list (list Q)) :
  (observed_columns n rows <= n)%nat.
Proof.
  unfold observed_columns.
  etransitivity; [apply count_true_le_length|].
  rewrite length_map, col_vectors_length. reflexivity.
Qed.

(** The positive entries of a row lie in columns that count as
    observed. *)
Lemma richness_le_observed (n : nat) (rows : list (list Q))
    (row : list Q) :
  row ∈ rows -> length row = n ->
  (count_true (presence row) <= observed_columns n rows)%nat.
Proof.
  revert rows row. induction n as [|n IH]; intros rows row Hin Hlen.
  - destruct row; [|discriminate]. unfold presence, count_true.
    simpl. lia.
  - destruct row as [|x row']; [discriminate|]. injection Hlen as Hlen.
    unfold observed_columns. cbn [col_vectors map presence].
    rewrite !count_true_cons.
    assert (Htl : row' ∈ map (@tl Q) rows).
    { apply list_elem_of_fmap. exists (x :: row'). split;
        [reflexivity|exact Hin]. }
    pose proof (IH _ _ Htl Hlen) as Hrest.
    unfold observed_columns, presence in Hrest.
    destruct (Qlt_bool 0 x) eqn:Ex; [|lia].
    assert (Hany : existsb (Qlt_bool 0) (map cell_hd rows) = true).
    { apply existsb_exists. exists x. split; [|exact Ex].
      apply list_elem_of_In, list_elem_of_fmap.
      exists (x :: row'). split; [reflexivity|exact Hin]. }
    rewrite Hany. lia.
Qed.

Lemma Qmean_np_mean (l : list Q) :
  l <> [] -> Qmean l = Some (np_mean l).
Proof. destruct l; [congruence|reflexivity]. Qed.

Lemma group_rows_elem (df : DataFrame) (run_labels : list string)
    (run : string) (row : list Q) :
  row ∈ group_rows df run_labels run -> row ∈ values df.
Proof.
  unfold group_rows. intros H.
  apply list_elem_of_fmap in H as ([l r] & -> & H).
  apply list_elem_of_filter in H as [_ H].
  apply elem_of_zip_r in H. exact H.
Qed.

Lemma group_rows_nonempty (df : DataFrame) (run_labels : list string)
    (run : string) :
  length run_labels = length (values df) ->
  run ∈ py_unique run_labels ->
  group_rows df run_labels run <> [].
Proof.
  intros Hlen Hrun. apply py_unique_subset in Hrun.
  apply list_elem_of_lookup in Hrun as [i Hi].
  destruct (lookup_lt_is_Some_2 (values df) i) as [row Hrow].
  { rewrite <- Hlen. apply lookup_lt_Some in Hi. exact Hi. }
  assert (Hz : (run, row) ∈ zip run_labels (values df)).
  { apply list_elem_of_lookup. exists i.
    apply lookup_zip_with_Some. exists run, row. auto. }
  assert (Hg : row ∈ group_rows df run_labels run).
  { unfold group_rows. apply list_elem_of_fmap. exists (run, row).
    split; [reflexivity|]. apply list_elem_of_filter. split;
      [reflexivity|exact Hz]. }
  intros Hnil. rewrite Hnil in Hg. apply elem_of_nil in Hg. exact Hg.
Qed.

(** X29.  In the summary of each run of a rectangular table with one run
    label per row: the run has at least one sample, the observed taxa
    are at most the columns of the table, and the mean richness is a
    number between 0 and the number of observed taxa. *)
Theorem run_summary_count_bounds
    (df : DataFrame) (run_labels : list string) (i : nat) (run : string)
    (s : RunSummary) :
  well_formed df -> length run_labels = nrows df ->
  _compute_run_summaries df run_labels !! i = Some (run, s) ->
  (1 <= rs_n_samples s)%nat
  /\ (rs_n_taxa_observed s <= ncols df)%nat
  /\ exists m : Q,
       rs_mean_richness s = Some m
       /\ (0 <= m)%Q /\ (m <= Qof_nat (rs_n_taxa_observed s))%Q.
Proof.
  intros [Hrows Hcells] Hlabels Hi.
  unfold _compute_run_summaries in Hi. rewrite list_lookup_fmap in Hi.
  destruct (py_unique run_labels !! i) as [r|] eqn:Er; [|discriminate].
  injection Hi as <- <-.
  assert (Hne : group_rows df run_labels r <> []).
  { apply group_rows_nonempty; [congruence|].
    eapply list_elem_of_lookup_2. exact Er. }
  cbn [run_summary rs_n_samples rs_n_taxa_observed rs_mean_richness].
  split.
  { destruct (group_rows df run_labels r); [congruence|simpl; lia]. }
  split; [apply observed_columns_le|].
  assert (Hrne : row_richness (group_rows df run_labels r) <> []).
  { unfold row_richness. destruct (group_rows df run_labels r);
      [congruence|discriminate]. }
  rewrite (Qmean_np_mean _ Hrne). eexists. split; [reflexivity|].
  apply np_mean_bounds; [exact Hrne|].
  unfold row_richness. rewrite Forall_fmap. apply Forall_forall.
  intros row Hrow. simpl. split; [apply Qof_nat_nonneg|].
  apply Qof_nat_le. apply richness_le_observed; [exact Hrow|].
  rewrite Forall_forall in Hcells. apply Hcells.
  eapply group_rows_elem. exact Hrow.
Qed.

Lemma run_summary_count_bounds_witness :
  (1 <= rs_n_samples
          (run_summary partly_shared_table ["A"; "A"; "B"; "B"] "B"))%nat
  /\ (rs_n_taxa_observed
        (run_summary partly_shared_table ["A"; "A"; "B"; "B"] "B")
      <= ncols partly_shared_table)%nat
  /\ exists m : Q,
       rs_mean_richness
         (run_summary partly_shared_table ["A"; "A"; "B"; "B"] "B")
       = Some m
       /\ (0 <= m)%Q
       /\ (m <= Qof_nat
                  (rs_n_taxa_observed
                     (run_summary partly_shared_table
                                  ["A"; "A"; "B"; "B"] "B")))%Q.
Proof.
  apply (run_summary_count_bounds partly_shared_table
           ["A"; "A"; "B"; "B"] 1 "B").
  - split; [reflexivity|]. repeat constructor.
  - reflexivity.
  - reflexivity.
Defined.

Lemma insert_desc_perm (x : string * Q) (l : list (string * Q)) :
  insert_desc x l ≡ₚ x :: l.
Proof.
  induction l as [|y l IH]; simpl; [reflexivity|].
  destruct (Qle_bool y.2 x.2); [reflexivity|].
  rewrite IH. apply Permutation_swap.
Qed.

Lemma sort_desc_perm (s : list (string * Q)) : sort_desc s ≡ₚ s.
Proof.
  unfold sort_desc. induction s as [|x s IH]; simpl; [reflexivity|].
  rewrite insert_desc_perm, IH. reflexivity.
Qed.

Lemma insert_desc_sorted (x : string * Q) (l : list (string * Q)) :
  StronglySorted value_ge l -> StronglySorted value_ge (insert_desc x l).
Proof.
  induction 1 as [|y l Hs IH Hall]; simpl; [repeat constructor|].
  destruct (Qle_bool y.2 x.2) eqn:E.
  - apply Qle_bool_iff in E. constructor; [constructor; assumption|].
    constructor; [exact E|].
    eapply Forall_impl; [exact Hall|]. unfold value_ge. intros z Hz. lra.
  - constructor; [exact IH|].
    rewrite insert_desc_perm. constructor; [|exact Hall].
    unfold value_ge. destruct (Qlt_le_dec x.2 y.2) as [H|H]; [lra|].
    apply Qle_bool_iff in H. congruence.
Qed.

Lemma sort_desc_sorted (s : list (string * Q)) :
  StronglySorted value_ge (sort_desc s).
Proof.
  unfold sort_desc. induction s as [|x s IH]; simpl; [constructor|].
  apply insert_desc_sorted. exact IH.
Qed.

(** X30.  The [top_taxa] of a run are min(5, number of columns) taxa with
    their mean abundance in the run, in descending order of that mean,
    and no taxon left out has a larger mean than a taxon listed. *)
Theorem run_summary_top_taxa
    (df : DataFrame) (run_labels : list string) (i : nat) (run : string)
    (s : RunSummary) :
  _compute_run_summaries df run_labels !! i = Some (run, s) ->
  length (rs_top_taxa s) = Nat.min 5 (ncols df)
  /\ StronglySorted value_ge (rs_top_taxa s)
  /\ exists rest : list (string * Q),
       (rs_top_taxa s ++ rest)%list
       ≡ₚ zip (columns df) (run_profile df run_labels run)
       /\ forall x y, x ∈ rs_top_taxa s -> y ∈ rest -> value_ge x y.
Proof.
  intros Hi.
  unfold _compute_run_summaries in Hi. rewrite list_lookup_fmap in Hi.
  destruct (py_unique run_labels !! i) as [r|]; [|discriminate].
  injection Hi as <- <-.
  cbn [run_summary rs_top_taxa]. unfold nlargest.
  set (means := zip (columns df) (run_profile df run_labels r)).
  pose proof (sort_desc_sorted means) as Hs.
  rewrite <- (take_drop 5 (sort_desc means)) in Hs.
  split.
  { rewrite length_take, (Permutation_length (sort_desc_perm means)).
    unfold means. rewrite length_zip_with_l_eq; [reflexivity|].
    rewrite run_profile_length. reflexivity. }
  split; [exact (StronglySorted_app_1_l _ _ _ Hs)|].
  exists (drop 5 (sort_desc means)). split.
  - rewrite take_drop. apply sort_desc_perm.
  - intros x y Hx Hy.
    exact (StronglySorted_app_1_elem_of _ _ _ _ _ Hs Hx Hy).
Qed.

Lemma run_summary_top_taxa_witness :
  length (rs_top_taxa
            (run_summary partly_shared_table ["A"; "A"; "B"; "B"] "A"))
  = Nat.min 5 (ncols partly_shared_table).
Proof.
  apply (run_summary_top_taxa partly_shared_table
           ["A"; "A"; "B"; "B"] 0 "A").
  reflexivity.
Defined.
